(** * The virtual best algorithm data set of bbob_pproc (module [bestalg])

    A shallow embedding of [bestalg.py]: the construction of a
    [BestAlgSet] out of the data sets of several algorithms for one
    function and one dimension, its queries [detERT] and [detEvals], its
    equality, and the two counting analyses
    [getAllContributingAlgorithmsToBest] and [extractBestAlgorithms].

    numpy's float64 values are IEEE 754 binary64 numbers; they are modelled
    by [spec_float] with the comparisons of [SpecFloat], under which every
    comparison against NaN is false.  Python dictionaries whose iteration
    order the code relies on are association lists, the dictionaries it
    only reads by key are [gmap]s, and Python exceptions are the values of
    an error monad. *)

From Stdlib Require Import ZArith Lia.
From Stdlib Require Import Floats.SpecFloat.
From stdpp Require Import gmap strings list fin_maps sorting.

Local Open Scope string_scope.
Set Warnings "-clear-no-such-hyp".

(** ** numpy floats *)

Module Np.

Abbreviation float := spec_float.

Definition inf : float := S754_infinity false.
Definition nan : float := S754_nan.
Definition zero : float := S754_zero false.

(** [np.isnan] *)
Definition isnan (x : float) : bool :=
  match x with S754_nan => true | _ => false end.

(** The comparisons [==], [<], [<=], [>], [>=] of two float64 values. *)
Definition eqb (x y : float) : bool := SFeqb x y.
Definition ltb (x y : float) : bool := SFltb x y.
Definition leb (x y : float) : bool := SFleb x y.
Definition gtb (x y : float) : bool := SFltb y x.
Definition geb (x y : float) : bool := SFleb y x.

(** Multiplication of two float64 values, rounded to nearest even. *)
Definition mul (x y : float) : float := SFmul 53 1024 x y.

(** The float64 nearest to the integer [n] (exact for |n| < 2^53). *)
Definition of_Z (n : Z) : float := binary_normalize 53 1024 n 0 false.

(** The comparison results that stand for [<=]. *)
Definition le_cmp (c : comparison) : bool :=
  match c with Gt => false | _ => true end.

End Np.

(** ** Python exceptions as an error monad *)

Inductive exn : Set :=
  | AssertionError
  | KeyError
  | IndexError
  | ValueError
  | NameError
  | AttributeError
  | Usage (msg : string).

Inductive result (A : Type) : Type :=
  | Ok (a : A)
  | Raise (e : exn).
Arguments Ok {A} a.
Arguments Raise {A} e.

#[global] Instance result_ret : MRet result := fun A a => Ok a.
#[global] Instance result_bind : MBind result := fun A B f m =>
  match m with Ok a => f a | Raise e => Raise e end.

Definition is_Ok {A} (m : result A) : Prop := exists a, m = Ok a.

(** [l[i]] on a Python list. *)
Definition list_get {A} (l : list A) (i : nat) : result A :=
  match l !! i with Some a => Ok a | None => Raise IndexError end.

(** [m[k]] on a Python dictionary. *)
Definition dict_get {A} (m : gmap string A) (k : string) : result A :=
  match m !! k with Some a => Ok a | None => Raise KeyError end.

(** A loop body run over a list, threading the loop state. *)
Fixpoint for_each {A S} (body : S -> A -> result S) (l : list A) (s : S)
  : result S :=
  match l with
  | [] => Ok s
  | a :: l' => s' ← body s a; for_each body l' s'
  end.

(** A list comprehension whose element expression may raise. *)
Fixpoint comprehension {A B} (f : A -> result B) (l : list A) : result (list B) :=
  match l with
  | [] => Ok []
  | a :: l' => b ← f a; bs ← comprehension f l'; Ok (b :: bs)
  end.

(** ** Data *)

(** A row of an array whose zero-th column is the value on which the row
    is aligned ([line[0]]) and whose other columns are the data
    ([line[1:]]). *)
Record row : Set := Row { key : Np.float; vals : list Np.float }.

(** The attributes of a [pproc.DataSet] that [bestalg] reads. *)
Module DataSet.
Record t : Set := mk {
  dim : Z;
  funcId : Z;
  target : list Np.float;
  ert : list Np.float;
  evals : list row;
  funvals : list row;
  maxevals : list Np.float;
  finalfunvals : list Np.float
}.
End DataSet.

(** [dict_alg]: algorithm names with their [DataSetList], in the
    iteration order of the dictionary.  The keys of a dictionary are
    distinct; the properties that need it say [NoDup]. *)
Abbreviation DictAlg := (list (string * list DataSet.t)).

(** ** [class BestAlgSet] *)

Module BestAlgSet.

Record t : Type := mk {
  evals : list row;
  maxevals : gmap string (list Np.float);
  finalfunvals : gmap string (list Np.float);
  funvalsnofail : gmap string row;
  dim : Z;
  funcId : Z;
  algs : list string;
  algId : string;
  comment : string;
  ert : list Np.float;
  target : list Np.float;
  bestfinalfunvals : list Np.float;
  algbestfinalfunvals : string
}.

(** [s.pop()] on a set of integers: some element of the set, [KeyError]
    on the empty set.  Which element Python takes is unspecified; the one
    taken here is the first of [elements]. *)
Definition set_pop (s : gset Z) : result Z :=
  match elements s with
  | [] => Raise KeyError
  | x :: _ => Ok x
  end.

(** Lines 104-108: the dimensions and the function ids of all data sets. *)
Definition collect_dim_funcId (dict_alg : DictAlg) : gset Z * gset Z :=
  foldl (fun '(d, f) i =>
           (d ∪ list_to_set (DataSet.dim <$> i),
            f ∪ list_to_set (DataSet.funcId <$> i)))
        (∅, ∅) (dict_alg.*2).

(** Lines 110-112: the statement builds a [Usage] exception object and
    drops it; there is no [raise] in front of it. *)
Definition usage_check (f d : gset Z) : option exn :=
  if decide (1 < size f \/ 1 < size d)
  then Some (Usage "Expect the data of algorithms for only one function and one dimension.")
  else None.

(** Lines 120-132: one pass of the loop over [dict_alg.iteritems()].  The
    state is [(tmpdictAlg, its keys, dictMaxEvals, dictFinalFunVals)]; the
    two warnings print and go on.  Python does not say in which order
    [tmpdictAlg.keys()] gives the keys; they are kept here in the order of
    their insertion, and that one order is [sortedAlgs] from then on. *)
Definition keep_step
  (st : gmap string DataSet.t * list string
        * gmap string (list Np.float) * gmap string (list Np.float))
  (item : string * list DataSet.t) :=
  let '(tmpdictAlg, keys, dictMaxEvals, dictFinalFunVals) := st in
  let '(alg, i) := item in
  match i with
  | [] => st
  | [i0] =>
      (<[alg := i0]> tmpdictAlg,
       if decide (alg ∈ keys) then keys else (keys ++ [alg])%list,
       <[alg := DataSet.maxevals i0]> dictMaxEvals,
       <[alg := DataSet.finalfunvals i0]> dictFinalFunVals)
  | _ :: _ :: _ => st
  end.

(** Lines 117-134: the algorithms with exactly one data set. *)
Definition keep_singletons (dict_alg : DictAlg) :=
  foldl keep_step (∅, [], ∅, ∅) dict_alg.

(** [np.transpose(np.vstack([target, ert]))]: the rows [(target, ert)];
    [np.vstack] raises [ValueError] when the two lengths differ. *)
Definition vstack_transpose (target ert : list Np.float)
  : result (list (Np.float * Np.float)) :=
  if decide (length target = length ert) then Ok (zip target ert)
  else Raise ValueError.

(** Lines 153-163: one step of the scan of a row; [st] is
    [(currentbestert, currentbestalg)]. *)
Definition best_step (sortedAlgs : list string) (st : Np.float * string)
  (j : nat) (tmpert : Np.float) : result (Np.float * string) :=
  if Np.isnan tmpert then Ok st
  else if Np.eqb tmpert st.1 then Ok st
  else if Np.ltb tmpert st.1 then
    alg ← list_get sortedAlgs j; Ok (tmpert, alg)
  else Ok st.

(** [for j, tmpert in enumerate(curerts)], from index [j] on. *)
Fixpoint scan_erts (sortedAlgs : list string) (j : nat)
  (curerts : list Np.float) (st : Np.float * string)
  : result (Np.float * string) :=
  match curerts with
  | [] => Ok st
  | tmpert :: rest =>
      st' ← best_step sortedAlgs st j tmpert;
      scan_erts sortedAlgs (S j) rest st'
  end.

(** Lines 149-165, for one row [i] of the aligned array.  The assertion
    takes the length of the boolean array [np.isnan(curerts) == False],
    which is the number of columns of [curerts]. *)
Definition find_best (sortedAlgs : list string) (i : row)
  : result (Np.float * string) :=
  let curerts := vals i in
  if decide (0 < length ((fun x => negb (Np.isnan x)) <$> curerts))
  then scan_erts sortedAlgs 0 curerts (Np.inf, "")
  else Raise AssertionError.

(** Lines 175-179: [while curLine[0] > funval], taking the next line of
    the iterator until it is exhausted.  Returns the line and what is left
    of the iterator. *)
Fixpoint advance (curLine : row) (it : list row) (funval : Np.float)
  : row * list row :=
  if Np.gtb (key curLine) funval then
    match it with
    | [] => (curLine, [])
    | line :: it' => advance line it' funval
    end
  else (curLine, it).

(** Lines 172-183: one pass of the loop over [zip(res[:, 0], resalgs)].
    The state is [(dictiter, dictcurLine, resDataSet)]; an iterator is the
    list of the lines it has not given out yet. *)
Definition evals_step (dict_alg : gmap string DataSet.t)
  (st : gmap string (list row) * gmap string row * list row)
  (fa : Np.float * string)
  : result (gmap string (list row) * gmap string row * list row) :=
  let '(dictiter, dictcurLine, resDataSet) := st in
  let '(funval, alg) := fa in
  ds ← dict_get dict_alg alg;
  let it := default (DataSet.evals ds) (dictiter !! alg) in
  let curLine := default (Row Np.inf [Np.zero]) (dictcurLine !! alg) in
  let '(curLine, it) := advance curLine it funval in
  Ok (<[alg := it]> dictiter,
      <[alg := curLine]> dictcurLine,
      (resDataSet ++ [Row funval (vals curLine)])%list).

(** [a == b] for two arrays of one dimension: entry by entry when the
    lengths agree, and an array of one entry is broadcast against the
    other.  [None] when the two shapes cannot be broadcast; the numpy of
    Python 2, for which the module is written, then warns and gives the
    plain [False]. *)
Definition broadcast_eq (a b : list Np.float) : option (list bool) :=
  if decide (length a = length b) then Some (zip_with Np.eqb a b)
  else
    match a, b with
    | [x], _ => Some (Np.eqb x <$> b)
    | _, [y] => Some ((fun x => Np.eqb x y) <$> a)
    | _, _ => None
    end.

(** [(curline[1:] == finalfunvals).any()]; the plain [False] of two
    shapes that cannot be broadcast has no method [any]. *)
Definition any_equal (tail final : list Np.float) : result bool :=
  match broadcast_eq tail final with
  | Some equal => Ok (existsb id equal)
  | None => Raise AttributeError
  end.

(** Lines 188-191: the [for] loop with its [break].  The loop variable
    [curline] keeps the value it had before the loop when [funvals] is
    empty, hence the [option]: [None] is the unbound variable. *)
Fixpoint scan_funvals (curline : option row) (funvals : list row)
  (final : list Np.float) : result (option row) :=
  match funvals with
  | [] => Ok curline
  | line :: rest =>
      any_equal (vals line) final ≫= fun reached : bool =>
        if reached then Ok (Some line)
        else scan_funvals (Some line) rest final
  end.

(** Lines 187-192: one pass of the loop over [setalgs]; the state is
    [(curline, dictFunValsNoFail)]. *)
Definition nofail_step (dict_alg : gmap string DataSet.t)
  (st : option row * gmap string row) (alg : string)
  : result (option row * gmap string row) :=
  ds ← dict_get dict_alg alg;
  curline ← scan_funvals st.1 (DataSet.funvals ds) (DataSet.finalfunvals ds);
  match curline with
  | None => Raise NameError
  | Some curline => Ok (Some curline, <[alg := curline]> st.2)
  end.

(** [dict((i, d[i]) for i in setalgs)] *)
Definition restrict {A} (d : gmap string A) (setalgs : list string)
  : result (gmap string A) :=
  kvs ← comprehension (fun i => v ← dict_get d i; Ok (i, v)) setalgs;
  Ok (foldl (fun m kv => <[kv.1 := kv.2]> m) ∅ kvs).

Section Construction.

(** [readalign.alignArrayData(readalign.HArrayMultiReader(erts, False))]
    and [np.median] are not part of this module. *)
Variable alignArrayData : list (list (Np.float * Np.float)) -> result (list row).
Variable median : list Np.float -> Np.float.

(** Lines 208-212: one pass of the loop; the state is [(bestfinalfunvals,
    algbestfinalfunvals)], the latter [None] while it is unbound. *)
Definition bestfinal_step (dict_alg : gmap string DataSet.t)
  (st : list Np.float * option string) (alg : string)
  : result (list Np.float * option string) :=
  ds ← dict_get dict_alg alg;
  if Np.ltb (median (DataSet.finalfunvals ds)) (median st.1)
  then Ok (DataSet.finalfunvals ds, Some alg)
  else Ok st.

(** [BestAlgSet.__init__] *)
Definition init (dict_alg : DictAlg) : result t :=
  let '(d, f) := collect_dim_funcId dict_alg in
  let _not_raised := usage_check f d in
  f ← set_pop f;
  d ← set_pop d;
  let '(dict_alg, sortedAlgs, dictMaxEvals, dictFinalFunVals) :=
    keep_singletons dict_alg in
  erts ← comprehension
           (fun i => ds ← dict_get dict_alg i;
                     vstack_transpose (DataSet.target ds) (DataSet.ert ds))
           sortedAlgs;
  res ← alignArrayData erts;
  best ← comprehension (find_best sortedAlgs) res;
  let reserts := best.*1 in
  let resalgs := best.*2 in
  '(_, _, resDataSet) ←
     for_each (evals_step dict_alg) (zip (key <$> res) resalgs) (∅, ∅, []);
  let setalgs := elements (list_to_set resalgs : gset string) in
  '(_, dictFunValsNoFail) ←
     for_each (nofail_step dict_alg) setalgs (None, ∅);
  maxevals ← restrict dictMaxEvals setalgs;
  finalfunvals ← restrict dictFinalFunVals setalgs;
  '(bestfinalfunvals, algbestfinalfunvals) ←
     for_each (bestfinal_step dict_alg) sortedAlgs ([Np.inf], None);
  match algbestfinalfunvals with
  | None => Raise NameError
  | Some algbestfinalfunvals =>
      Ok {| evals := resDataSet;
            maxevals := maxevals;
            finalfunvals := finalfunvals;
            funvalsnofail := dictFunValsNoFail;
            dim := d;
            funcId := f;
            algs := resalgs;
            algId := "Virtual Best Algorithm";
            comment := "Combination of " +:+ String.concat ", " sortedAlgs;
            ert := reserts;
            target := key <$> res;
            bestfinalfunvals := bestfinalfunvals;
            algbestfinalfunvals := algbestfinalfunvals |}
  end.

End Construction.

(** [a[idx]] for a boolean array [idx]: the entries of [a] where [idx]
    holds.  [None] stands for the [IndexError] that numpy raises when the
    two lengths differ. *)
Definition bool_index {A} (a : list A) (idx : list bool) : option (list A) :=
  if decide (length a = length idx)
  then Some (fst <$> filter (fun p => snd p = true) (zip a idx))
  else None.

(** [BestAlgSet.detERT], one target: the body of the loop.  The two
    indexings of the [try] block raise nothing but [IndexError] ([None]
    here), which the [except] clause turns into [np.inf]. *)
Definition detERT1 (self : t) (f : Np.float) : Np.float :=
  let idx := (fun x => Np.leb x f) <$> target self in
  match sel ← bool_index (ert self) idx; head sel with
  | Some e => e
  | None => Np.inf
  end.

(** [BestAlgSet.detERT] *)
Definition detERT (self : t) (targets : list Np.float) : list Np.float :=
  detERT1 self <$> targets.

(** Lines 318-322: the scan of [self.evals] from index [i] on; [None] when
    the loop ends without [break]. *)
Fixpoint scan_evals (algs : list string) (i : nat) (evals : list row)
  (f : Np.float) : result (option (list Np.float * string)) :=
  match evals with
  | [] => Ok None
  | line :: rest =>
      if Np.leb (key line) f then
        tmp2 ← list_get algs i; Ok (Some (vals line, tmp2))
      else scan_evals algs (S i) rest f
  end.

(** [BestAlgSet.detEvals], one target: [(tmp, tmp2)]. *)
Definition detEvals1 (self : t) (f : Np.float)
  : result (list Np.float * option string) :=
  found ← scan_evals (algs self) 0 (evals self) f;
  match found with
  | Some (tmp, tmp2) => Ok (tmp, Some tmp2)
  | None => Ok (replicate (length (bestfinalfunvals self)) Np.nan, None)
  end.

(** [BestAlgSet.detEvals]: the pair [(res, res2)]. *)
Definition detEvals (self : t) (targets : list Np.float)
  : result (list (list Np.float) * list (option string)) :=
  rs ← comprehension (detEvals1 self) targets;
  Ok (rs.*1, rs.*2).

(** The argument [other] of a comparison is any Python object. *)
Inductive pyobject : Type :=
  | Instance (other : t)
  | OtherClass.

(** [BestAlgSet.__eq__] *)
Definition eq (self : t) (other : pyobject) : bool :=
  match other with
  | Instance other =>
      Z.eqb (funcId self) (funcId other)
      && Z.eqb (dim self) (dim other)
      && String.eqb (algId self) (algId other)
      && String.eqb (comment self) (comment other)
  | OtherClass => false
  end.

(** [BestAlgSet.__ne__] *)
Definition ne (self : t) (other : pyobject) : bool := negb (eq self other).

End BestAlgSet.

(** ** The counting analyses *)

(** The code that [getAllContributingAlgorithmsToBest] and
    [extractBestAlgorithms] have in common. *)

(** [l.count(a)] *)
Definition count (a : string) (l : list string) : nat :=
  length (filter (fun x => x = a) l).

(** [countsperalgorithm.setdefault((d, a), 0)] followed by
    [countsperalgorithm[(d, a)] += l.count(a)]. *)
Definition tally (d : Z) (l : list string) (counts : gmap (Z * string) nat)
  (a : string) : gmap (Z * string) nat :=
  <[(d, a) := default 0 (counts !! (d, a)) + count a l]> counts.

(** The order of Python on the keys [(d, a)]: by dimension, then by name,
    byte by byte. *)
Definition key_le (x y : Z * string) : Prop :=
  (x.1 < y.1)%Z \/ (x.1 = y.1 /\ String.leb x.2 y.2 = true).

#[global] Instance key_le_dec x y : Decision (key_le x y).
Proof. unfold key_le. apply _. Defined.

(** The loop over [sorted(countsperalgorithm)] that fills
    [selectedalgsperdimension] with the pairs [(count, a)]. *)
Definition selectedalgsperdimension (countsperalgorithm : gmap (Z * string) nat)
  : gmap Z (list (nat * string)) :=
  foldl (fun sel '(d, a) =>
           <[d := (default [] (sel !! d)
                   ++ [(default 0 (countsperalgorithm !! (d, a)), a)])%list]> sel)
        ∅ (merge_sort key_le (map_to_list countsperalgorithm).*1).

Module getAllContributingAlgorithmsToBest.

(** Lines 572-575: one pass of the loop over [range(0, len(target))],
    appending to [correctedbestalgentries]. *)
Definition corrected_step (b : BestAlgSet.t) (target_lb target_ub : Np.float)
  (corrected : list string) (i : nat) : result (list string) :=
  t ← list_get (BestAlgSet.target b) i;
  if Np.geb t target_lb && Np.leb t target_ub then
    a ← list_get (BestAlgSet.algs b) i; Ok (corrected ++ [a])%list
  else Ok corrected.

Definition correctedbestalgentries (b : BestAlgSet.t)
  (target_lb target_ub : Np.float) : result (list string) :=
  for_each (corrected_step b target_lb target_ub)
           (seq 0 (length (BestAlgSet.target b))) [].

(** Lines 566-581: one pass of the loop over the keys [(d, f)] of
    [bestalgentries]. *)
Definition entry_step (target_lb target_ub : Np.float)
  (counts : gmap (Z * string) nat) (entry : Z * Z * BestAlgSet.t)
  : result (gmap (Z * string) nat) :=
  let '(d, f, b) := entry in
  let setofalgs := elements (list_to_set (BestAlgSet.algs b) : gset string) in
  corrected ← correctedbestalgentries b target_lb target_ub;
  Ok (foldl (tally d corrected) counts setofalgs).

(** Lines 565-581; [bestalgentries] is the dictionary read back from the
    pickle file, visited in the order of [map_to_list]. *)
Definition countsperalgorithm (bestalgentries : gmap (Z * Z) BestAlgSet.t)
  (target_lb target_ub : Np.float) : result (gmap (Z * string) nat) :=
  for_each (entry_step target_lb target_ub) (map_to_list bestalgentries) ∅.

(** The function prints the lists of [selectedalgsperdimension]; this is
    the dictionary it prints them from. *)
Definition run (bestalgentries : gmap (Z * Z) BestAlgSet.t)
  (target_lb target_ub : Np.float) : result (gmap Z (list (nat * string))) :=
  counts ← countsperalgorithm bestalgentries target_lb target_ub;
  Ok (selectedalgsperdimension counts).

End getAllContributingAlgorithmsToBest.

Module extractBestAlgorithms.

(** [l[i]] for a Python list and an integer: a negative [i] counts from
    the end of the list, and an index outside of it raises
    [IndexError]. *)
Definition py_index {A} (l : list A) (i : Z) : result A :=
  let i := if (i <? 0)%Z then (i + Z.of_nat (length l))%Z else i in
  if (i <? 0)%Z then Raise IndexError else list_get l (Z.to_nat i).

Section Extract.

(** What the function takes from other modules: the aligner and the
    median of the construction; [considered f d t], which is
    [toolsstats.in_approximately(t, targets((f, d), discretize=True))];
    [dictAlg], which gives for the name of an algorithm the dictionary
    [dictAlg[astring].dictByDim()], from a dimension to the list of the
    data sets of the algorithm in that dimension; and
    [dataset_detERT curralgdata t], which is
    [curralgdata.detERT([t])[0]] for a data set of [pproc]. *)
Variable alignArrayData : list (list (Np.float * Np.float)) -> result (list row).
Variable median : list Np.float -> Np.float.
Variable considered : Z -> Z -> Np.float -> bool.
Variable dictAlg : gmap string (gmap Z (list DataSet.t)).
Variable dataset_detERT : DataSet.t -> Np.float -> Np.float.
Variable f_factor : Np.float.

(** Lines 645-648: the running time of [astring] at the target, [None]
    when the algorithm has no data in dimension [d].  [dictAlg[astring]]
    raises [KeyError] for a name that is not a key, and
    [currdictalg[d][f - 1]] takes the data set by its position in the
    list: [IndexError] when the list has no such position. *)
Definition currERT (astring : string) (d f : Z) (t : Np.float)
  : result (option Np.float) :=
  currdictalg ← dict_get dictAlg astring;
  match currdictalg !! d with
  | None => Ok None
  | Some datasets =>
      curralgdata ← py_index datasets (f - 1);
      Ok (Some (dataset_detERT curralgdata t))
  end.

(** Lines 649-655, for an algorithm with the running time [currERT].
    [best_alg] is [best.algs[i]], [best_ERT] is [best.detERT([t])[0]]; the
    state is [(secondbest_ERT, secondbest_str, secondbest_included,
    selectedAlgsPerProblemDF)]. *)
Definition second_update (best_alg : string) (best_ERT : Np.float)
  (st : Np.float * string * bool * list string)
  (astring : string) (currERT : Np.float)
  : Np.float * string * bool * list string :=
  let '(secondbest_ERT, secondbest_str, secondbest_included, selected) := st in
  if decide (astring <> best_alg) then
    let '(secondbest_ERT, secondbest_str) :=
      if Np.ltb currERT secondbest_ERT then (currERT, astring)
      else (secondbest_ERT, secondbest_str) in
    if Np.leb currERT (Np.mul best_ERT f_factor)
    then (secondbest_ERT, secondbest_str, true, (selected ++ [astring])%list)
    else (secondbest_ERT, secondbest_str, secondbest_included, selected)
  else st.

(** Lines 645-655: one pass of the loop over the algorithms [astring] of
    the cell. *)
Definition second_step (best_alg : string) (best_ERT : Np.float) (d f : Z)
  (t : Np.float) (st : Np.float * string * bool * list string)
  (astring : string) : result (Np.float * string * bool * list string) :=
  found ← currERT astring d f t;
  match found with
  | None => Ok st
  | Some currERT => Ok (second_update best_alg best_ERT st astring currERT)
  end.

(** Lines 637-657: what a considered target row appends to
    [selectedAlgsPerProblemDF], starting from [selected]. *)
Definition credit (best_alg : string) (best_ERT : Np.float) (d f : Z)
  (t : Np.float) (j : list string) (selected : list string)
  : result (list string) :=
  let selected := (selected ++ [best_alg])%list in
  '(_, secondbest_str, secondbest_included, selected) ←
    for_each (second_step best_alg best_ERT d f t) j
             (Np.inf, "", false, selected);
  if negb secondbest_included && negb (String.eqb secondbest_str "")
  then Ok (selected ++ [secondbest_str])%list
  else Ok selected.

(** Lines 631-657: one pass of the loop over [range(0, len(best.target))]. *)
Definition target_step (best : BestAlgSet.t) (d f : Z) (j : list string)
  (selected : list string) (i : nat) : result (list string) :=
  t ← list_get (BestAlgSet.target best) i;
  if considered f d t then
    best_alg ← list_get (BestAlgSet.algs best) i;
    credit best_alg (BestAlgSet.detERT1 best t) d f t j selected
  else Ok selected.

(** Lines 627-660: one cell [(f, d)] with its dictionary [j]. *)
Definition cell_step (selectedAlgsPerProblem : gmap (Z * Z) (list string))
  (cell : Z * Z * DictAlg) : result (gmap (Z * Z) (list string)) :=
  let '(f, d, j) := cell in
  best ← BestAlgSet.init alignArrayData median j;
  selected ← for_each (target_step best d f (j.*1))
                      (seq 0 (length (BestAlgSet.target best))) [];
  if decide (0 < length selected)
  then Ok (<[(d, f) := selected]> selectedAlgsPerProblem)
  else Ok selectedAlgsPerProblem.

(** Lines 625-660; [cells] are the triples [(f, d, j)] in the order in
    which the two loops over [pproc.dictAlgByFun] and [pproc.dictAlgByDim]
    visit them. *)
Definition selectedAlgsPerProblem (cells : list (Z * Z * DictAlg))
  : result (gmap (Z * Z) (list string)) :=
  for_each cell_step cells ∅.

(** Lines 667-675: one pass of the second counting loop. *)
Definition count_step (counts : gmap (Z * string) nat)
  (entry : Z * Z * list string) : gmap (Z * string) nat :=
  let '(d, f, selected) := entry in
  let setofalgs := elements (list_to_set selected : gset string) in
  foldl (tally d selected) counts setofalgs.

Definition countsperalgorithm (selected : gmap (Z * Z) (list string))
  : gmap (Z * string) nat :=
  foldl count_step ∅ (map_to_list selected).

(** The value that [extractBestAlgorithms] returns. *)
Definition run (cells : list (Z * Z * DictAlg))
  : result (gmap Z (list (nat * string))) :=
  selected ← selectedAlgsPerProblem cells;
  Ok (selectedalgsperdimension (countsperalgorithm selected)).

End Extract.

End extractBestAlgorithms.

(** ** The rest of the module *)

(** [BestAlgSet.createDictInstance].  The method reads
    [self.instancenumbers], an attribute that [__init__] does not set and
    that no other code of the module sets: it is [None] on an object as
    [__init__] leaves it, and the list that a caller has assigned to the
    attribute otherwise. *)
Definition createDictInstance_step (instancenumbers : list Z)
  (dictinstance : gmap Z (list nat)) (i : nat) : result (gmap Z (list nat)) :=
  n ← list_get instancenumbers i;
  Ok (<[n := (default [] (dictinstance !! n) ++ [i])%list]> dictinstance).

Definition createDictInstance (instancenumbers : option (list Z))
  : result (gmap Z (list nat)) :=
  match instancenumbers with
  | None => Raise AttributeError
  | Some instancenumbers =>
      for_each (createDictInstance_step instancenumbers)
               (seq 0 (length instancenumbers)) ∅
  end.

(** [create_data_files], for one value of [result], up to the lines that
    are formatted and written: the dictionary [dict_evaluation] and its
    sorted items. *)
Module create_data_files.

(** What the loop can raise: the [IndexError] of [value.ert[index]], and
    from [int] the [OverflowError] of an infinity and the [ValueError] of
    NaN. *)
Inductive failure : Set :=
  | Python (e : exn)
  | OverflowError.

(** [int(x)] for a float: the integer towards zero. *)
Definition int (x : Np.float) : failure + Z :=
  match x with
  | S754_nan => inl (Python ValueError)
  | S754_infinity _ => inl OverflowError
  | S754_zero _ => inr 0%Z
  | S754_finite s m e =>
      let magnitude := Z.shiftl (Z.pos m) e in
      inr (if s then (- magnitude)%Z else magnitude)
  end.

(** Lines 514-517: one pass of the loop over [range(len(value.target))]. *)
Definition evaluation_step (value : BestAlgSet.t)
  (dict_evaluation : gmap Z Np.float) (index : nat)
  : failure + gmap Z Np.float :=
  match BestAlgSet.ert value !! index with
  | None => inl (Python IndexError)
  | Some evaluation_value =>
      match BestAlgSet.target value !! index with
      | None => inl (Python IndexError)
      | Some target =>
          match int evaluation_value with
          | inl e => inl e
          | inr k => inr (<[k := target]> dict_evaluation)
          end
      end
  end.

Fixpoint evaluation_loop (value : BestAlgSet.t) (indices : list nat)
  (dict_evaluation : gmap Z Np.float) : failure + gmap Z Np.float :=
  match indices with
  | [] => inr dict_evaluation
  | index :: rest =>
      match evaluation_step value dict_evaluation index with
      | inl e => inl e
      | inr d => evaluation_loop value rest d
      end
  end.

(** Lines 513-517 *)
Definition dict_evaluation (value : BestAlgSet.t) : failure + gmap Z Np.float :=
  evaluation_loop value (seq 0 (length (BestAlgSet.target value))) ∅.

(** [sorted(dict_evaluation.iteritems())]: the keys of a dictionary are
    distinct, so the order of the pairs is the order of their keys. *)
Definition item_le (x y : Z * Np.float) : Prop := (x.1 <= y.1)%Z.

#[global] Instance item_le_dec x y : Decision (item_le x y).
Proof. unfold item_le. apply _. Defined.

Definition sorted_items (d : gmap Z Np.float) : list (Z * Np.float) :=
  merge_sort item_le (map_to_list d).

(** The pairs [(key_target, value_target)] of the lines after the header. *)
Definition lines (value : BestAlgSet.t) : failure + list (Z * Np.float) :=
  match dict_evaluation value with
  | inl e => inl e
  | inr d => inr (sorted_items d)
  end.

End create_data_files.

(** [generate].  [cells] are the triples [(f, d, j)] in the order in which
    the two loops over [pproc.dictAlgByFun] and [pproc.dictAlgByDim] visit
    them; the set of a cell is stored under [(d, f)]. *)
Module generate.
Section Generate.
Variable alignArrayData : list (list (Np.float * Np.float)) -> result (list row).
Variable median : list Np.float -> Np.float.

Definition cell_step (res : gmap (Z * Z) BestAlgSet.t)
  (cell : Z * Z * DictAlg) : result (gmap (Z * Z) BestAlgSet.t) :=
  let '(f, d, j) := cell in
  tmp ← BestAlgSet.init alignArrayData median j;
  Ok (<[(d, f) := tmp]> res).

Definition run (cells : list (Z * Z * DictAlg))
  : result (gmap (Z * Z) BestAlgSet.t) :=
  for_each cell_step cells ∅.

End Generate.
End generate.

(** ** The vocabulary of the properties *)

Section Vocabulary.
Import BestAlgSet.

(** Row [i] is the first row of the grid whose target is [<= f]. *)
Definition first_row_at_or_below (self : t) (f : Np.float) (i : nat) : Prop :=
  (exists t0, target self !! i = Some t0 /\ Np.leb t0 f = true) /\
  forall j t', j < i -> target self !! j = Some t' -> Np.leb t' f = false.

(** What holds of the state [(currentbestert, currentbestalg)] after the
    entries [pre] of a row: either nothing below infinity was seen and the
    state is still the initial one, or the state is the first least entry
    and the algorithm of its column. *)
Definition scan_inv (sortedAlgs : list string) (pre : list Np.float)
  (st : Np.float * string) : Prop :=
  (st = (Np.inf, "") /\ forall x, x ∈ pre -> Np.ltb x Np.inf = false)
  \/ (exists i, pre !! i = Some st.1 /\ sortedAlgs !! i = Some st.2 /\
        Np.ltb st.1 Np.inf = true /\
        (forall x, x ∈ pre -> Np.isnan x = false -> Np.leb st.1 x = true) /\
        (forall k x, k < i -> pre !! k = Some x -> Np.isnan x = false ->
           Np.ltb st.1 x = true)).

(** The first least entry of a row and the algorithm of its column. *)
Definition first_least (sortedAlgs : list string) (curerts : list Np.float)
  (e : Np.float) (a : string) : Prop :=
  exists j, curerts !! j = Some e /\ sortedAlgs !! j = Some a /\
    Np.isnan e = false /\
    (forall x, x ∈ curerts -> Np.isnan x = false -> Np.leb e x = true) /\
    (forall k x, k < j -> curerts !! k = Some x -> Np.isnan x = false ->
       Np.ltb e x = true).

(** The same choice as the specification words it, to compare: the first
    line whose tail is not exactly [finalfunvals], and the last line if
    there is none. *)
Definition tail_equal (tail final : list Np.float) : bool :=
  bool_decide (length tail = length final)
  && forallb (fun '(x, y) => Np.eqb x y) (zip tail final).

Fixpoint spec_first_differing (funvals : list row) (final : list Np.float)
  : option row :=
  match funvals with
  | [] => None
  | line :: rest =>
      if negb (tail_equal (vals line) final) then Some line
      else match rest with
           | [] => Some line
           | _ :: _ => spec_first_differing rest final
           end
  end.

(** The tail of a line has an entry equal to the entry of [final] for the
    same run. *)
Definition reaches (tail final : list Np.float) : bool :=
  existsb (fun '(x, y) => Np.eqb x y) (zip tail final).

(** Every line of [funvals] has one entry for each run, as [final] has. *)
Definition one_entry_per_run (funvals : list row) (final : list Np.float)
  : Prop :=
  Forall (fun line => length (vals line) = length final) funvals.

(** [line] is the first line of [funvals] whose tail has an entry equal to
    the entry of [final] for the same run, or the last line of [funvals]
    when no line has such an entry. *)
Definition first_reaching (funvals : list row) (final : list Np.float)
  (line : row) : Prop :=
  (exists pre post, funvals = (pre ++ line :: post)%list /\
     reaches (vals line) final = true /\
     forall l, l ∈ pre -> reaches (vals l) final = false)
  \/ ((forall l, l ∈ funvals -> reaches (vals l) final = false) /\
       last funvals = Some line).

(** The sum over all algorithms [a] of [counts[(d, a)]]. *)
Definition dimension_total (d : Z) (counts : gmap (Z * string) nat) : nat :=
  sum_list_with (fun kv => if decide (kv.1.1 = d) then kv.2 else 0)
                (map_to_list counts).

(** The sum of the counts in the list of dimension [d] of
    [selectedalgsperdimension]. *)
Definition ranking_total (d : Z) (selected : gmap Z (list (nat * string)))
  : nat :=
  sum_list_with fst (default [] (selected !! d)).

(** The number of rows of the grid of [b] whose target lies between the
    two bounds. *)
Definition rows_in_range (b : t) (target_lb target_ub : Np.float) : nat :=
  length (filter (fun t0 => Np.geb t0 target_lb && Np.leb t0 target_ub = true)
                 (target b)).

(** The rows in range of all the entries [(d, f)] of one dimension [d]. *)
Definition rows_of_dimension (d : Z) (entries : list (Z * Z * t))
  (target_lb target_ub : Np.float) : nat :=
  sum_list_with (fun e => if decide (e.1.1 = d)
                          then rows_in_range e.2 target_lb target_ub else 0)
                entries.

End Vocabulary.

Module CreditSpec.
Section TargetRow.
Variable dictAlg : gmap string (gmap Z (list DataSet.t)).
Variable dataset_detERT : DataSet.t -> Np.float -> Np.float.
Variable f_factor : Np.float.
Variables (best_alg : string) (best_ERT : Np.float) (d f : Z) (t : Np.float).

(** The look-up of the data set of [astring] raises nothing: the name is
    a key of [dictAlg] and, when the algorithm has data in dimension [d],
    the list of its data sets has the position [f - 1]. *)
Definition data_set_found (astring : string) : Prop :=
  match dictAlg !! astring with
  | Some currdictalg =>
      match currdictalg !! d with
      | Some datasets =>
          is_Ok (extractBestAlgorithms.py_index datasets (f - 1))
      | None => True
      end
  | None => False
  end.

(** The running time of [astring] at the row, when it has one. *)
Definition ERT_at (astring : string) : option Np.float :=
  match extractBestAlgorithms.currERT dictAlg dataset_detERT astring d f t with
  | Ok found => found
  | Raise _ => None
  end.

(** One pass of the loop over the algorithms of the cell when the
    look-up of the data set raises nothing. *)
Definition second_step_found (st : Np.float * string * bool * list string)
  (astring : string) : Np.float * string * bool * list string :=
  match ERT_at astring with
  | Some currERT =>
      extractBestAlgorithms.second_update f_factor best_alg best_ERT st
                                          astring currERT
  | None => st
  end.

(** [astring] is not the winner and its running time is within the factor
    [f_factor] of the running time of the winner. *)
Definition within_factor (astring : string) : bool :=
  match ERT_at astring with
  | Some currERT =>
      bool_decide (astring <> best_alg)
      && Np.leb currERT (Np.mul best_ERT f_factor)
  | None => false
  end.

(** The part of [second_step] that keeps the second best. *)
Definition second_best_step (p : Np.float * string) (astring : string)
  : Np.float * string :=
  match ERT_at astring with
  | Some currERT =>
      if decide (astring <> best_alg) then
        if Np.ltb currERT p.1 then (currERT, astring) else p
      else p
  | None => p
  end.

(** What holds of [(secondbest_ERT, secondbest_str)] after the algorithms
    [pre]: either no algorithm other than the winner had a running time
    below infinity and the state is the initial one, or the state is an
    algorithm other than the winner with the least running time. *)
Definition second_inv (pre : list string) (p : Np.float * string) : Prop :=
  (p = (Np.inf, "") /\
   forall a e, a ∈ pre -> a <> best_alg -> ERT_at a = Some e ->
               Np.ltb e Np.inf = false)
  \/ (p.2 ∈ pre /\ p.2 <> best_alg /\ ERT_at p.2 = Some p.1 /\
       Np.ltb p.1 Np.inf = true /\
       forall a e, a ∈ pre -> a <> best_alg -> ERT_at a = Some e ->
                   Np.isnan e = false -> Np.leb p.1 e = true).

(** [astring] is credited at the row as the second best: an algorithm
    other than the winner with the least running time among them. *)
Definition second_best (j : list string) (sb : string) : Prop :=
  sb ∈ j /\ sb <> best_alg /\
  exists e_sb, ERT_at sb = Some e_sb /\
    forall a e, a ∈ j -> a <> best_alg -> ERT_at a = Some e ->
                Np.isnan e = false -> Np.leb e_sb e = true.

(** Two algorithms of the cell have a running time below infinity. *)
Definition two_with_running_time (j : list string) : Prop :=
  exists a1 a2 e1 e2, a1 <> a2 /\ a1 ∈ j /\ a2 ∈ j /\
    ERT_at a1 = Some e1 /\ ERT_at a2 = Some e2 /\
    Np.ltb e1 Np.inf = true /\ Np.ltb e2 Np.inf = true.

End TargetRow.
End CreditSpec.

(** ** The vocabulary of further properties *)

Section MoreVocabulary.
Import BestAlgSet.

(** [tmpdictAlg] and [sortedAlgs] of a construction. *)
Definition tmpdictAlg_of (dict_alg : DictAlg) : gmap string DataSet.t :=
  (keep_singletons dict_alg).1.1.1.

Definition sortedAlgs_of (dict_alg : DictAlg) : list string :=
  (keep_singletons dict_alg).1.1.2.

(** [res], the aligned array of a construction (lines 140-142). *)
Definition aligned_grid
  (alignArrayData : list (list (Np.float * Np.float)) -> result (list row))
  (dict_alg : DictAlg) : result (list row) :=
  erts ← comprehension
           (fun i => ds ← dict_get (tmpdictAlg_of dict_alg) i;
                     vstack_transpose (DataSet.target ds) (DataSet.ert ds))
           (sortedAlgs_of dict_alg);
  alignArrayData erts.

(** The algorithms of [dict_alg] with exactly one data set, in order. *)
Definition singletons (dict_alg : DictAlg) : list string :=
  (filter (fun p => length p.2 = 1) dict_alg).*1.

End MoreVocabulary.

Section EvalsVocabulary.
Import BestAlgSet.

(** Where the data of a row of [self.evals] comes from, for the target
    [funval] of the row and the data set [ds] of its winner: a line of
    [ds.evals] whose alignment value is not above the target; or the last
    line of [ds.evals], still above the target, when the lines have run
    out; or the line [np.array([np.inf, 0])] that the cursor starts from. *)
Definition provenance (ds : DataSet.t) (funval : Np.float)
  (data : list Np.float) : Prop :=
  (exists line, line ∈ DataSet.evals ds /\ data = vals line /\
     Np.gtb (key line) funval = false)
  \/ (exists line, last (DataSet.evals ds) = Some line /\ data = vals line /\
        Np.gtb (key line) funval = true)
  \/ (data = [Np.zero] /\
      (DataSet.evals ds = [] \/ Np.gtb Np.inf funval = false)).

(** The cursor of an algorithm, [(dictiter[alg], dictcurLine[alg])]: not
    there yet, or at the start, or on a line of [ds.evals] with the lines
    after it left in the iterator. *)
Definition cursor_ok (ds : DataSet.t) (it : option (list row))
  (curLine : option row) : Prop :=
  match it, curLine with
  | None, None => True
  | Some it, Some curLine =>
      (curLine = Row Np.inf [Np.zero] /\ it = DataSet.evals ds)
      \/ exists pre, DataSet.evals ds = (pre ++ curLine :: it)%list
  | _, _ => False
  end.

(** A row of [self.evals] for the pair [(funval, alg)] of the loop. *)
Definition evals_row_from (tmpdictAlg : gmap string DataSet.t)
  (fa : Np.float * string) (r : row) : Prop :=
  key r = fa.1 /\
  exists ds, tmpdictAlg !! fa.2 = Some ds /\ provenance ds fa.1 (vals r).

End EvalsVocabulary.

Section CountVocabulary.
Import BestAlgSet.

(** The winners of the rows of [b] whose target lies between the two
    bounds, row by row. *)
Definition winners_in_range (b : t) (target_lb target_ub : Np.float)
  : list string :=
  snd <$> filter (fun p => Np.geb p.1 target_lb && Np.leb p.1 target_ub = true)
                 (zip (target b) (algs b)).

(** The number of rows in range that [a] won over the entries of
    dimension [d]. *)
Definition rows_won (d : Z) (a : string) (entries : list (Z * Z * t))
  (target_lb target_ub : Np.float) : nat :=
  sum_list_with
    (fun e => if decide (e.1.1 = d)
              then count a (winners_in_range e.2 target_lb target_ub) else 0)
    entries.

End CountVocabulary.

Section CellVocabulary.
Variable considered : Z -> Z -> Np.float -> bool.

(** The rows of [best] whose target is considered for the function [f]
    in dimension [d], each with its winner. *)
Definition considered_rows (best : BestAlgSet.t) (f d : Z)
  : list (Np.float * string) :=
  filter (fun p => considered f d p.1 = true)
         (zip (BestAlgSet.target best) (BestAlgSet.algs best)).

End CellVocabulary.

(** ** Inputs for the examples *)

Module Examples.

(** An aligner for curves that already share one target axis: row [i] has
    the [i]-th target of the first curve and the [i]-th ert of every curve
    (NaN where a curve is shorter).  On such curves every aligner that
    keeps the common axis gives these rows. *)
Definition align_common_axis (erts : list (list (Np.float * Np.float)))
  : result (list row) :=
  match erts with
  | [] => Raise ValueError
  | c :: _ =>
      Ok (imap (fun i tc =>
                  Row tc.1 ((fun c' => default Np.nan (snd <$> c' !! i)) <$> erts))
               c)
  end.

Fixpoint insert_sorted (x : Np.float) (l : list Np.float) : list Np.float :=
  match l with
  | [] => [x]
  | y :: l' => if Np.leb x y then x :: l else y :: insert_sorted x l'
  end.

(** The median as numpy computes it: NaN if an entry is NaN, else the
    middle entry of the sorted array, or the mean of the two middle ones. *)
Definition np_median (l : list Np.float) : Np.float :=
  if existsb Np.isnan l then Np.nan
  else
    let s := foldr insert_sorted [] l in
    let n := length l in
    if Nat.even n then
      match s !! (n / 2 - 1), s !! (n / 2) with
      | Some a, Some b => SFdiv 53 1024 (SFadd 53 1024 a b) (Np.of_Z 2)
      | _, _ => Np.nan
      end
    else default Np.nan (s !! (n / 2)).

Local Open Scope Z_scope.

Definition fl (n : Z) : Np.float := Np.of_Z n.

(** A data set with one run: targets and erts, the evals and funvals
    rows, the final function value. *)
Definition data_set (f d : Z) (curve : list (Z * Np.float))
  (evals funvals : list (Z * Z)) (final : Z) : DataSet.t :=
  {| DataSet.dim := d;
     DataSet.funcId := f;
     DataSet.target := (fun p => fl p.1) <$> curve;
     DataSet.ert := snd <$> curve;
     DataSet.evals := (fun p => Row (fl p.1) [fl p.2]) <$> evals;
     DataSet.funvals := (fun p => Row (fl p.1) [fl p.2]) <$> funvals;
     DataSet.maxevals := [fl 1000];
     DataSet.finalfunvals := [fl final] |}.

Definition init := BestAlgSet.init align_common_axis np_median.

(** Three algorithms on the targets 10 and 1; [C] never reaches target 1
    and ties with [A] on target 10. *)
Definition A := data_set 1 2 [(10, fl 100); (1, fl 500)] [(10, 90); (1, 450)] [(1, 7); (2, 3)] 3.
Definition B := data_set 1 2 [(10, fl 150); (1, fl 300)] [(10, 140); (1, 280)] [(1, 6); (3, 2)] 2.
Definition C := data_set 1 2 [(10, fl 100); (1, Np.nan)] [(10, 95)] [(1, 8); (2, 8)] 8.
Definition three : DictAlg := [("A", [A]); ("B", [B]); ("C", [C])].


(** One algorithm whose only ert is infinite, and one whose only ert is
    NaN; the same data under the empty name. *)
Definition ds_inf := data_set 1 2 [(10, Np.inf)] [(10, 90)] [(1, 7); (2, 3)] 3.
Definition ds_nan := data_set 1 2 [(10, Np.nan)] [(10, 90)] [(1, 7); (2, 3)] 3.
Definition only_inf : DictAlg := [("A", [ds_inf])].
Definition only_nan : DictAlg := [("A", [ds_nan])].
Definition unnamed_nan : DictAlg := [("", [ds_nan])].
Definition unnamed_and_inf : DictAlg := [("", [ds_nan]); ("A", [ds_inf])].

(** Two algorithms run on two different functions in two different
    dimensions. *)
Definition B' := data_set 2 3 [(10, fl 150); (1, fl 300)] [(10, 140); (1, 280)] [(1, 6); (3, 2)] 2.
Definition mixed : DictAlg := [("A", [A]); ("B", [B'])].

(** A stand-in for [detERT] of a data set of [pproc], for one target:
    the ert of the first row of the data set whose target is [<= t], and
    [np.inf] when there is no such row. *)
Definition pproc_detERT (ds : DataSet.t) (t : Np.float) : Np.float :=
  default Np.inf
    (head (snd <$> filter (fun p => Np.leb p.1 t = true)
                          (zip (DataSet.target ds) (DataSet.ert ds)))).

(** Algorithms with one data set each, of function 1 in dimension 2, that
    has the running time of the table at the target 10. *)
Definition running_times (table : list (string * Np.float))
  : gmap string (gmap Z (list DataSet.t)) :=
  list_to_map
    ((fun p => (p.1, {[ 2 := [data_set 1 2 [(10, p.2)] [] [] 0] ]})) <$> table).

(** The credits of a row of target 10 of function 1 in dimension 2, won
    by [A] with a running time of 100, for the factor 2. *)
Definition credit (table : list (string * Np.float)) : result (list string) :=
  extractBestAlgorithms.credit (running_times table) pproc_detERT (fl 2)
                               "A" (fl 100) 2 1 (fl 10) (table.*1) [].

Definition times_within := [("A", fl 100); ("B", fl 150); ("C", fl 500)].
Definition times_fallback := [("A", fl 100); ("B", fl 300); ("C", fl 500)].
Definition times_unnamed := [("A", fl 100); ("", fl 500)].
Definition times_unreached := [("A", fl 100); ("B", Np.inf)].

(** [dictAlg] for [A], [B] and [C]: each has its one data set, of
    function 1, in dimension 2. *)
Definition times_three : gmap string (gmap Z (list DataSet.t)) :=
  {[ "A" := {[ 2 := [A] ]}; "B" := {[ 2 := [B] ]}; "C" := {[ 2 := [C] ]} ]}.

(** [extractBestAlgorithms] on the one cell of [three], every target being
    considered, with the factor 2. *)
Definition extract_three : result (gmap Z (list (nat * string))) :=
  extractBestAlgorithms.run align_common_axis np_median (fun _ _ _ => true)
                            times_three pproc_detERT (fl 2) [(1, 2, three)].

(** [B] has data in dimension 2, but for the function 1 only: its list
    has no position 1 for the function 2. *)
Definition times_short : gmap string (gmap Z (list DataSet.t)) :=
  {[ "A" := {[ 2 := [A; A] ]}; "B" := {[ 2 := [B] ]} ]}.

Definition no_set : BestAlgSet.t :=
  BestAlgSet.mk [] ∅ ∅ ∅ 0 0 [] "" "" [] [] [] "".

(** The set constructed from [dict_alg], when the construction succeeds. *)
Definition built (dict_alg : DictAlg) : BestAlgSet.t :=
  match init dict_alg with Ok self => self | Raise _ => no_set end.

(** The set of [three] with another grid, other erts, winners and evals. *)
Definition three_regridded : BestAlgSet.t :=
  let self := built three in
  BestAlgSet.mk [] (BestAlgSet.maxevals self) (BestAlgSet.finalfunvals self)
    (BestAlgSet.funvalsnofail self) (BestAlgSet.dim self)
    (BestAlgSet.funcId self) ["C"] (BestAlgSet.algId self)
    (BestAlgSet.comment self) [fl 7] [fl 5]
    (BestAlgSet.bestfinalfunvals self) (BestAlgSet.algbestfinalfunvals self).

(** The entries of a pickle file with the one set of [three]. *)
Definition entries_three : gmap (Z * Z) BestAlgSet.t :=
  {[ (2, 1) := built three ]}.

(** An algorithm without a data set, and one whose [ert] is one entry
    short of its [target]. *)
Definition no_data : DictAlg := [("A", [])].

Definition ragged : DataSet.t :=
  {| DataSet.dim := 2;
     DataSet.funcId := 1;
     DataSet.target := [fl 10; fl 1];
     DataSet.ert := [fl 100];
     DataSet.evals := [];
     DataSet.funvals := [];
     DataSet.maxevals := [fl 1000];
     DataSet.finalfunvals := [fl 3] |}.

Definition with_ragged : DictAlg := [("A", [A]); ("R", [ragged])].

End Examples.

(** * Properties *)

(** ** Order facts about the comparisons of floats

    [SFcompare] orders the non-NaN values by sign, exponent and mantissa;
    the facts below are the ones the minimum searches rely on. *)

Module NpFacts.
Import Np.

Lemma compare_refl_not_nan x : isnan x = false -> SFcompare x x = Some Eq.
Proof.
  destruct x as [[]|[]| |[] m e]; simpl; try done; intros _.
  - by rewrite Z.compare_refl, Pos.compare_cont_refl.
  - by rewrite Z.compare_refl, Pos.compare_cont_refl.
Qed.

Lemma compare_antisym x y :
  SFcompare y x = CompOpp <$> SFcompare x y.
Proof.
  destruct x as [[]|[]| |[] m e], y as [[]|[]| |[] m' e']; simpl; try done.
  - rewrite (Z.compare_antisym e e'). destruct (e ?= e')%Z; simpl; try done.
    fold (Pos.compare m m'); fold (Pos.compare m' m).
    by rewrite (Pos.compare_antisym m m'), CompOpp_involutive.
  - rewrite (Z.compare_antisym e e'). destruct (e ?= e')%Z; simpl; try done.
    fold (Pos.compare m m'); fold (Pos.compare m' m).
    by rewrite (Pos.compare_antisym m m').
Qed.

Lemma compare_not_nan x y :
  isnan x = false -> isnan y = false -> is_Some (SFcompare x y).
Proof.
  destruct x as [[]|[]| |[] m e], y as [[]|[]| |[] m' e']; simpl; try done; eauto.
Qed.

Lemma compare_nan_l x y : isnan x = true -> SFcompare x y = None.
Proof. by destruct x. Qed.

Lemma compare_nan_r x y : isnan y = true -> SFcompare x y = None.
Proof. by destruct y, x. Qed.

Ltac compare_cases :=
  change (Pos.compare_cont Eq) with Pos.compare in *;
  repeat match goal with
  | H : context [(?a ?= ?b)%Z] |- _ => destruct (Z.compare_spec a b)
  | |- context [(?a ?= ?b)%Z] => destruct (Z.compare_spec a b)
  | H : context [(?a ?= ?b)%positive] |- _ => destruct (Pos.compare_spec a b)
  | |- context [(?a ?= ?b)%positive] => destruct (Pos.compare_spec a b)
  end.

Lemma compare_trans x y z c1 c2 :
  SFcompare x y = Some c1 -> SFcompare y z = Some c2 ->
  le_cmp c1 = true -> le_cmp c2 = true ->
  SFcompare x z = Some (match c1, c2 with Eq, Eq => Eq | _, _ => Lt end).
Proof.
  destruct x as [[]|[]| |[] m e], y as [[]|[]| |[] m' e'],
    z as [[]|[]| |[] m'' e'']; simpl; intros H1 H2 L1 L2;
    simplify_eq; simpl in *; try done;
    compare_cases; subst; simpl in *; try done; lia.
Qed.

Lemma ltb_leb_trans x y z : ltb x y = true -> leb y z = true -> ltb x z = true.
Proof.
  unfold ltb, leb, SFltb, SFleb.
  destruct (SFcompare x y) as [[]|] eqn:H1; try done.
  destruct (SFcompare y z) as [[]|] eqn:H2; try done; intros _ _;
    by rewrite (compare_trans _ _ _ _ _ H1 H2).
Qed.

Lemma leb_trans x y z : leb x y = true -> leb y z = true -> leb x z = true.
Proof.
  unfold leb, SFleb.
  destruct (SFcompare x y) as [[]|] eqn:H1; try done;
  destruct (SFcompare y z) as [[]|] eqn:H2; try done; intros _ _;
    by rewrite (compare_trans _ _ _ _ _ H1 H2).
Qed.

Lemma ltb_leb x y : ltb x y = true -> leb x y = true.
Proof. unfold ltb, leb, SFltb, SFleb. by destruct (SFcompare x y) as [[]|]. Qed.

Lemma eqb_leb x y : eqb x y = true -> leb x y = true.
Proof. unfold eqb, leb, SFeqb, SFleb. by destruct (SFcompare x y) as [[]|]. Qed.

Lemma eqb_sym x y : eqb x y = eqb y x.
Proof.
  unfold eqb, SFeqb. rewrite (compare_antisym x y).
  by destruct (SFcompare x y) as [[]|].
Qed.

Lemma ltb_not_nan x y : ltb x y = true -> isnan x = false /\ isnan y = false.
Proof. by destruct x as [[]|[]| |[] m e], y as [[]|[]| |[] m' e']. Qed.

Lemma leb_not_nan x y : leb x y = true -> isnan x = false /\ isnan y = false.
Proof. by destruct x as [[]|[]| |[] m e], y as [[]|[]| |[] m' e']. Qed.

(** For two numbers, exactly one of [x == y], [x < y] and [y < x] holds. *)
Lemma trichotomy x y :
  isnan x = false -> isnan y = false ->
  eqb x y = false -> ltb x y = false -> ltb y x = true.
Proof.
  intros Hx Hy. unfold eqb, ltb, SFeqb, SFltb.
  rewrite (compare_antisym x y).
  destruct (compare_not_nan x y Hx Hy) as [c ->]. by destruct c.
Qed.

Lemma ltb_irrefl_leb x y : ltb x y = true -> leb y x = false.
Proof.
  unfold ltb, leb, SFltb, SFleb. rewrite (compare_antisym x y).
  by destruct (SFcompare x y) as [[]|].
Qed.

Lemma not_ltb_leb x y :
  isnan x = false -> isnan y = false -> ltb x y = false -> leb y x = true.
Proof.
  intros Hx Hy. unfold ltb, leb, SFltb, SFleb.
  rewrite (compare_antisym x y).
  destruct (compare_not_nan x y Hx Hy) as [c ->]. by destruct c.
Qed.

Lemma leb_inf x : isnan x = false -> leb x inf = true.
Proof. by destruct x as [[]|[]| |[] m e]. Qed.

Lemma not_ltb_inf x : isnan x = false -> ltb x inf = false -> x = inf.
Proof. by destruct x as [[]|[]| |[] m e]. Qed.

End NpFacts.

(** ** The error monad *)

Lemma bind_Ok {A B} (m : result A) (k : A -> result B) (b : B) :
  (m ≫= k) = Ok b -> exists a, m = Ok a /\ k a = Ok b.
Proof. destruct m as [a|e]; [eauto | done]. Qed.

Tactic Notation "inv_bind" hyp(H) "as" ident(a) ident(Ha) :=
  apply bind_Ok in H as (a & Ha & H).

Lemma for_each_cons {A S} (body : S -> A -> result S) a l s :
  for_each body (a :: l) s = body s a ≫= for_each body l.
Proof. done. Qed.

Lemma for_each_app {A S} (body : S -> A -> result S) l1 l2 s :
  for_each body (l1 ++ l2) s = for_each body l1 s ≫= for_each body l2.
Proof.
  revert s. induction l1 as [|a l1 IH]; intros s; [done|].
  simpl. destruct (body s a) as [s'|e]; simpl; [apply IH|done].
Qed.

Lemma comprehension_length {A B} (f : A -> result B) l bs :
  comprehension f l = Ok bs -> length bs = length l.
Proof.
  revert bs; induction l as [|a l IH]; intros bs H; simpl in H.
  - by simplify_eq.
  - inv_bind H as b Hb. inv_bind H as bs' Hbs. simplify_eq. simpl. f_equal.
    by apply IH.
Qed.

Lemma comprehension_lookup {A B} (f : A -> result B) l bs i a :
  comprehension f l = Ok bs -> l !! i = Some a ->
  exists b, bs !! i = Some b /\ f a = Ok b.
Proof.
  revert bs i; induction l as [|a' l IH]; intros bs i H Hi; [done|].
  simpl in H. inv_bind H as b Hb. inv_bind H as bs' Hbs. simplify_eq.
  destruct i as [|i]; simpl in *; simplify_eq; eauto.
Qed.

Lemma comprehension_total {A B} (f : A -> result B) l :
  (forall a, a ∈ l -> is_Ok (f a)) -> is_Ok (comprehension f l).
Proof.
  induction l as [|a l IH]; intros H; simpl; [by eexists|].
  destruct (H a) as [b ->]; [by left|]. simpl.
  destruct IH as [bs ->]; [|by eexists].
  intros a' Ha'. apply H. by right.
Qed.

(** ** Queries *)

Section Queries.
Import BestAlgSet.

Lemma head_masked (es ts : list Np.float) (f : Np.float) :
  length es = length ts ->
  match head (fst <$> filter (fun p => snd p = true)
                        (zip es ((fun x => Np.leb x f) <$> ts))) with
  | Some e => exists i t0, ts !! i = Some t0 /\ Np.leb t0 f = true /\
       (forall j t', j < i -> ts !! j = Some t' -> Np.leb t' f = false) /\
       es !! i = Some e
  | None => forall t0, t0 ∈ ts -> Np.leb t0 f = false
  end.
Proof.
  revert es; induction ts as [|t0 ts IH]; intros [|e es] Hlen; simpl in *;
    try done.
  - intros t0 Ht0. by apply elem_of_nil in Ht0.
  - rewrite filter_cons. simpl. destruct (Np.leb t0 f) eqn:Hle.
    + rewrite decide_True by done. simpl. exists 0, t0.
      repeat split; try done. intros j t' Hj. lia.
    + rewrite decide_False by done.
      specialize (IH es ltac:(lia)).
      destruct (head _) as [e'|].
      * destruct IH as (i & t1 & Hi & Hle1 & Hbefore & He).
        exists (S i), t1. repeat split; try done.
        intros [|j] t' Hj Ht'; simpl in *; simplify_eq; [done|].
        apply (Hbefore j); [lia|done].
      * intros t1 [->|Ht1]%elem_of_cons; [done|by apply IH].
Qed.

Lemma detERT1_spec (self : t) (f : Np.float) :
  length (target self) = length (ert self) ->
  (forall i, first_row_at_or_below self f i ->
     exists e, ert self !! i = Some e /\ detERT1 self f = e) /\
  ((forall t0, t0 ∈ target self -> Np.leb t0 f = false) ->
     detERT1 self f = Np.inf).
Proof.
  intros Hlen. unfold detERT1, bool_index.
  rewrite decide_True by (by rewrite length_fmap).
  simpl. pose proof (head_masked (ert self) (target self) f (eq_sym Hlen)) as H.
  destruct (head _) as [e|]; split.
  - destruct H as (i & t0 & Hi & Hle & Hbefore & He).
    intros i' [(t1 & Hi' & Hle1) Hbefore'].
    destruct (Nat.lt_total i i') as [Hlt|[->|Hlt]].
    + by rewrite (Hbefore' i t0 Hlt Hi) in Hle.
    + eauto.
    + by rewrite (Hbefore i' t1 Hlt Hi') in Hle1.
  - destruct H as (i & t0 & Hi & Hle & _). intros Hnone.
    rewrite Hnone in Hle; [done|]. by eapply list_elem_of_lookup_2.
  - intros i [(t1 & Hi' & Hle1) _].
    rewrite H in Hle1; [done|]. by eapply list_elem_of_lookup_2.
  - done.
Qed.

Lemma detERT_spec (self : t) (targets : list Np.float) :
  length (target self) = length (ert self) ->
  length (detERT self targets) = length targets /\
  forall k f, targets !! k = Some f ->
    (forall i, first_row_at_or_below self f i ->
       exists e, ert self !! i = Some e /\ detERT self targets !! k = Some e) /\
    ((forall t0, t0 ∈ target self -> Np.leb t0 f = false) ->
       detERT self targets !! k = Some Np.inf).
Proof.
  intros Hlen. unfold detERT. split; [by rewrite length_fmap|].
  intros k f Hk. rewrite list_lookup_fmap, Hk. simpl.
  destruct (detERT1_spec self f Hlen) as [Hfirst Hnone]. split.
  - intros i Hi. destruct (Hfirst i Hi) as (e & He & ->). eauto.
  - intros H. by rewrite Hnone.
Qed.

Lemma scan_evals_none (algs0 : list string) (i : nat) (ev : list row) f :
  (forall line, line ∈ ev -> Np.leb (key line) f = false) ->
  scan_evals algs0 i ev f = Ok None.
Proof.
  revert i; induction ev as [|line ev IH]; intros i H; simpl; [done|].
  rewrite (H line) by (by left). apply IH. intros l Hl. apply H. by right.
Qed.

Lemma detEvals_none (self : t) (f : Np.float) :
  (forall line, line ∈ evals self -> Np.leb (key line) f = false) ->
  detEvals self [f]
  = Ok ([replicate (length (bestfinalfunvals self)) Np.nan], [None]).
Proof.
  intros H. unfold detEvals, detEvals1. simpl.
  by rewrite (scan_evals_none _ _ _ _ H).
Qed.

Lemma scan_evals_total (algs0 : list string) (ev : list row) f :
  forall i, i + length ev <= length algs0 ->
  is_Ok (scan_evals algs0 i ev f).
Proof.
  induction ev as [|line ev IH]; intros i Hi; simpl in *; [by eexists|].
  destruct (Np.leb (key line) f).
  - destruct (lookup_lt_is_Some_2 algs0 i ltac:(lia)) as [a Ha].
    unfold list_get. rewrite Ha. by eexists.
  - apply IH. lia.
Qed.

Lemma detEvals_spec (self : t) (targets : list Np.float) :
  length (evals self) <= length (algs self) ->
  exists res res2,
    detEvals self targets = Ok (res, res2) /\
    length res = length targets /\ length res2 = length targets /\
    forall k f, targets !! k = Some f ->
      (forall line, line ∈ evals self -> Np.leb (key line) f = false) ->
      res !! k = Some (replicate (length (bestfinalfunvals self)) Np.nan) /\
      res2 !! k = Some None.
Proof.
  intros Hlen. unfold detEvals.
  destruct (comprehension_total (detEvals1 self) targets) as [rs Hrs].
  { intros f _. unfold detEvals1.
    destruct (scan_evals_total (algs self) (evals self) f 0 Hlen) as [o ->].
    simpl. destruct o as [[tmp tmp2]|]; by eexists. }
  rewrite Hrs. simpl. exists (rs.*1), (rs.*2).
  pose proof (comprehension_length _ _ _ Hrs) as Hl.
  rewrite !length_fmap. split_and!; try done.
  intros k f Hk Hnone.
  destruct (comprehension_lookup _ _ _ _ _ Hrs Hk) as (r & Hr & Hdet).
  unfold detEvals1 in Hdet. rewrite (scan_evals_none _ _ _ _ Hnone) in Hdet.
  simpl in Hdet. simplify_eq. by rewrite !list_lookup_fmap, Hr.
Qed.

(** C10: [__eq__] holds exactly when the two instances agree on
    [funcId], [dim], [algId] and [comment], whatever their other
    attributes are; an object of another class is never equal; and
    [__ne__] is the negation of [__eq__]. *)
Theorem eq_four_fields (self other : t) (o : pyobject) :
  (eq self (Instance other) = true <->
     funcId self = funcId other /\ dim self = dim other /\
     algId self = algId other /\ comment self = comment other) /\
  eq self OtherClass = false /\
  ne self o = negb (eq self o).
Proof.
  split; [|done]. unfold eq.
  rewrite !andb_true_iff, !Z.eqb_eq, !String.eqb_eq. tauto.
Qed.

End Queries.

(** ** The choice of the best algorithm of a row *)

Section FindBest.
Import BestAlgSet.

Lemma best_step_inv sortedAlgs pre st tmpert st' :
  scan_inv sortedAlgs pre st ->
  best_step sortedAlgs st (length pre) tmpert = Ok st' ->
  scan_inv sortedAlgs (pre ++ [tmpert]) st'.
Proof.
  intros Hinv. unfold best_step.
  destruct (Np.isnan tmpert) eqn:Hnan;
    [|destruct (Np.eqb tmpert st.1) eqn:Heq;
      [|destruct (Np.ltb tmpert st.1) eqn:Hlt]]; intros H.
  - (* NaN *) simplify_eq. destruct Hinv as [[-> Hpre]|(i & Hi & Ha & Hfin & Hle & Hbef)].
    + left. split; [done|]. intros x [Hx|Hx%list_elem_of_singleton]%elem_of_app;
        [by apply Hpre|subst; by destruct tmpert].
    + right. exists i. split_and!; try done.
      * by apply lookup_app_l_Some.
      * intros x [Hx|Hx%list_elem_of_singleton]%elem_of_app Hx'; [by apply Hle|].
        subst. congruence.
      * intros k x Hk Hkx. apply Hbef with k; [done|].
        rewrite lookup_app_l in Hkx; [done|].
        apply lookup_lt_Some in Hi. lia.
  - (* equal to the current best *) simplify_eq.
    destruct Hinv as [[-> Hpre]|(i & Hi & Ha & Hfin & Hle & Hbef)].
    + left. split; [done|]. intros x [Hx|Hx%list_elem_of_singleton]%elem_of_app;
        [by apply Hpre|]. subst. simpl in Heq. by destruct tmpert as [[]|[]| |[] m e].
    + right. exists i. split_and!; try done.
      * by apply lookup_app_l_Some.
      * intros x [Hx|Hx%list_elem_of_singleton]%elem_of_app Hx'; [by apply Hle|].
        subst. apply NpFacts.eqb_leb. by rewrite NpFacts.eqb_sym.
      * intros k x Hk Hkx. apply Hbef with k; [done|].
        rewrite lookup_app_l in Hkx; [done|].
        apply lookup_lt_Some in Hi. lia.
  - (* below the current best *)
    inv_bind H as a Hget. simplify_eq. unfold list_get in Hget.
    destruct (sortedAlgs !! length pre) as [a'|] eqn:Ha'; simplify_eq.
    assert (Hst : Np.isnan st.1 = false /\ Np.leb st.1 Np.inf = true
                  /\ forall x, x ∈ pre -> Np.isnan x = false -> Np.leb st.1 x = true).
    { destruct Hinv as [[-> Hpre]|(i & Hi & Ha & Hfin & Hle & Hbef)]; simpl.
      - split_and!; try done. intros x Hx Hnx.
        by rewrite (NpFacts.not_ltb_inf x Hnx (Hpre x Hx)).
      - split_and!; [by destruct (NpFacts.ltb_not_nan _ _ Hfin)|by apply NpFacts.ltb_leb|done]. }
    destruct Hst as (Hn & Hinf & Hle).
    right. exists (length pre). simpl. split_and!; try done.
    + by rewrite lookup_app_r, Nat.sub_diag.
    + by apply NpFacts.ltb_leb_trans with st.1.
    + intros x [Hx|Hx%list_elem_of_singleton]%elem_of_app Hx'.
      * apply NpFacts.ltb_leb, NpFacts.ltb_leb_trans with st.1; [done|by apply Hle].
      * subst. unfold Np.leb, SFleb. by rewrite NpFacts.compare_refl_not_nan.
    + intros k x Hk Hkx Hx'. rewrite lookup_app_l in Hkx by done.
      apply NpFacts.ltb_leb_trans with st.1; [done|].
      apply Hle; [by eapply list_elem_of_lookup_2|done].
  - (* above the current best *) simplify_eq.
    destruct Hinv as [[-> Hpre]|(i & Hi & Ha & Hfin & Hle & Hbef)].
    + left. split; [done|]. intros x [Hx|Hx%list_elem_of_singleton]%elem_of_app;
        [by apply Hpre|by subst].
    + right. exists i. split_and!; try done.
      * by apply lookup_app_l_Some.
      * intros x [Hx|Hx%list_elem_of_singleton]%elem_of_app Hx'; [by apply Hle|].
        subst. apply NpFacts.ltb_leb, NpFacts.trichotomy;
          [done|by destruct (NpFacts.ltb_not_nan _ _ Hfin)|done|done].
      * intros k x Hk Hkx. apply Hbef with k; [done|].
        rewrite lookup_app_l in Hkx; [done|].
        apply lookup_lt_Some in Hi. lia.
Qed.

Lemma scan_erts_inv sortedAlgs rest : forall pre st st',
  scan_inv sortedAlgs pre st ->
  scan_erts sortedAlgs (length pre) rest st = Ok st' ->
  scan_inv sortedAlgs (pre ++ rest) st'.
Proof.
  induction rest as [|tmpert rest IH]; intros pre st st' Hinv H; simpl in H.
  - simplify_eq. by rewrite app_nil_r.
  - inv_bind H as st1 Hst1. rewrite (cons_middle tmpert), app_assoc.
    apply IH with st1; [by eapply best_step_inv|].
    by rewrite length_app, Nat.add_1_r.
Qed.

Lemma scan_erts_total sortedAlgs rest : forall j st,
  j + length rest <= length sortedAlgs ->
  is_Ok (scan_erts sortedAlgs j rest st).
Proof.
  induction rest as [|tmpert rest IH]; intros j st Hlen; simpl in *;
    [by eexists|].
  assert (is_Ok (best_step sortedAlgs st j tmpert)) as [st' ->].
  { unfold best_step, list_get.
    destruct (lookup_lt_is_Some_2 sortedAlgs j ltac:(lia)) as [a ->].
    repeat case_match; by eexists. }
  simpl. apply IH. lia.
Qed.

(** A row with an entry below infinity, and with a name for each of its
    columns: [find_best] gives its first least entry and the name of that
    column, so that an equal entry further on does not replace it. *)
Lemma find_best_first_least sortedAlgs (i : row) :
  length (vals i) <= length sortedAlgs ->
  (exists x, x ∈ vals i /\ Np.ltb x Np.inf = true) ->
  exists e a, find_best sortedAlgs i = Ok (e, a) /\
    first_least sortedAlgs (vals i) e a.
Proof.
  intros Hlen (x & Hx & Hfin). unfold find_best.
  rewrite decide_True.
  2:{ rewrite length_fmap. destruct (vals i); [by apply elem_of_nil in Hx|simpl; lia]. }
  destruct (scan_erts_total sortedAlgs (vals i) 0 (Np.inf, "") Hlen) as [[e a] Hscan].
  exists e, a. split; [done|].
  apply (scan_erts_inv sortedAlgs (vals i) []) in Hscan.
  2:{ left. split; [done|]. intros y Hy. by apply elem_of_nil in Hy. }
  simpl in Hscan. destruct Hscan as [[_ Hnone]|(j & Hj & Ha & Hlt & Hle & Hbef)].
  - by rewrite (Hnone x Hx) in Hfin.
  - exists j. split_and!; try done. by destruct (NpFacts.ltb_not_nan _ _ Hlt).
Qed.

(** A row without any entry below infinity keeps the initial state. *)
Lemma find_best_default sortedAlgs (i : row) :
  vals i <> [] ->
  (forall x, x ∈ vals i -> Np.ltb x Np.inf = false) ->
  find_best sortedAlgs i = Ok (Np.inf, "").
Proof.
  intros Hne Hall. unfold find_best.
  rewrite decide_True by (rewrite length_fmap; destruct (vals i); [done|simpl; lia]).
  clear Hne. generalize 0. induction (vals i) as [|x l IH]; intros j; [done|].
  simpl. unfold best_step. simpl.
  assert (Hx := Hall x ltac:(by left)).
  destruct (Np.isnan x) eqn:Hnan; simpl.
  - apply IH. intros y Hy. apply Hall. by right.
  - rewrite (NpFacts.not_ltb_inf x Hnan Hx). simpl.
    apply IH. intros y Hy. apply Hall. by right.
Qed.

End FindBest.

(** ** The construction *)

Section Init.
Import BestAlgSet.
Variable alignArrayData : list (list (Np.float * Np.float)) -> result (list row).
Variable median : list Np.float -> Np.float.

(** What a successful construction went through. *)
Lemma init_Ok (dict_alg : DictAlg) (self : t) :
  init alignArrayData median dict_alg = Ok self ->
  exists tmpdictAlg sortedAlgs dictMaxEvals dictFinalFunVals
         res best st_evals curline,
    keep_singletons dict_alg
      = (tmpdictAlg, sortedAlgs, dictMaxEvals, dictFinalFunVals) /\
    comprehension (find_best sortedAlgs) res = Ok best /\
    for_each (evals_step tmpdictAlg) (zip (key <$> res) (best.*2)) (∅, ∅, [])
      = Ok (st_evals, evals self) /\
    for_each (nofail_step tmpdictAlg)
             (elements (list_to_set (best.*2) : gset string)) (None, ∅)
      = Ok (curline, funvalsnofail self) /\
    restrict dictMaxEvals (elements (list_to_set (best.*2) : gset string))
      = Ok (maxevals self) /\
    restrict dictFinalFunVals (elements (list_to_set (best.*2) : gset string))
      = Ok (finalfunvals self) /\
    for_each (bestfinal_step median tmpdictAlg) sortedAlgs ([Np.inf], None)
      = Ok (bestfinalfunvals self, Some (algbestfinalfunvals self)) /\
    target self = key <$> res /\ ert self = best.*1 /\ algs self = best.*2.
Proof.
  unfold init. destruct (collect_dim_funcId dict_alg) as [d f].
  intros H. inv_bind H as f0 Hf. inv_bind H as d0 Hd.
  destruct (keep_singletons dict_alg) as [[[tmp sorted] dME] dFFV].
  inv_bind H as erts Herts. inv_bind H as res Hres. inv_bind H as best Hbest.
  inv_bind H as st1 Hst1. destruct st1 as [[di dc] resDataSet].
  inv_bind H as st2 Hst2. destruct st2 as [cl nofail].
  inv_bind H as me Hme. inv_bind H as ffv Hffv.
  inv_bind H as st3 Hst3. destruct st3 as [bffv [abffv|]]; [|done].
  simplify_eq. simpl.
  by exists tmp, sorted, dME, dFFV, res, best, (di, dc), cl.
Qed.

Lemma restrict_dom {A} (d : gmap string A) (l : list string) m :
  restrict d l = Ok m -> dom m = (list_to_set l : gset string).
Proof.
  unfold restrict. intros H. inv_bind H as kvs Hkvs. simplify_eq.
  assert (forall m0 : gmap string A,
             dom (foldl (fun m kv => <[kv.1 := kv.2]> m) m0 kvs)
             = dom m0 ∪ (list_to_set l : gset string)) as Hgen.
  { revert kvs Hkvs. induction l as [|a l IH]; intros kvs Hkvs m0; simpl in *.
    - simplify_eq. simpl. set_solver.
    - inv_bind Hkvs as kv Hkv. inv_bind Hkvs as kvs' Hkvs'. simplify_eq.
      inv_bind Hkv as v Hv. simplify_eq. simpl.
      rewrite (IH kvs' Hkvs'), dom_insert_L. set_solver. }
  rewrite Hgen, dom_empty_L. set_solver.
Qed.

Lemma nofail_dom (tmp : gmap string DataSet.t) (l : list string) :
  forall c m c' m',
    for_each (nofail_step tmp) l (c, m) = Ok (c', m') ->
    dom m' = dom m ∪ (list_to_set l : gset string).
Proof.
  induction l as [|a l IH]; intros c m c' m' H; simpl in H.
  - simplify_eq. simpl. set_solver.
  - inv_bind H as st Hst. unfold nofail_step in Hst.
    inv_bind Hst as ds Hds. simpl in Hst.
    inv_bind Hst as found Hfound. destruct found as [line|]; [|done].
    simplify_eq.
    rewrite (IH _ _ _ _ H), dom_insert_L. simpl. set_solver.
Qed.

Lemma init_lengths (dict_alg : DictAlg) (self : t) :
  init alignArrayData median dict_alg = Ok self ->
  length (target self) = length (algs self) /\
  length (algs self) = length (ert self).
Proof.
  intros H. apply init_Ok in H
    as (tmp & sorted & dME & dFFV & res & best & st1 & cl & _ & Hbest
        & _ & _ & _ & _ & _ & -> & -> & ->).
  apply comprehension_length in Hbest. by rewrite !length_fmap.
Qed.

(** C7: in every constructed set, [target], [algs] and [ert] have one
    length, and [maxevals], [finalfunvals] and [funvalsnofail] have as keys
    exactly the algorithms that occur in [algs]. *)
Theorem init_shape (dict_alg : DictAlg) (self : t) :
  init alignArrayData median dict_alg = Ok self ->
  length (target self) = length (algs self) /\
  length (algs self) = length (ert self) /\
  dom (maxevals self) = (list_to_set (algs self) : gset string) /\
  dom (finalfunvals self) = (list_to_set (algs self) : gset string) /\
  dom (funvalsnofail self) = (list_to_set (algs self) : gset string).
Proof.
  intros H. destruct (init_lengths _ _ H) as [Hl1 Hl2].
  apply init_Ok in H
    as (tmp & sorted & dME & dFFV & res & best & st1 & cl & _ & _
        & _ & Hnofail & Hme & Hffv & _ & _ & _ & Halgs).
  rewrite Halgs in *. split_and!; try done.
  - apply restrict_dom in Hme. rewrite Hme. set_solver.
  - apply restrict_dom in Hffv. rewrite Hffv. set_solver.
  - apply nofail_dom in Hnofail. rewrite Hnofail, dom_empty_L. set_solver.
Qed.

(** C4: on a constructed set, for every queried target [f], [detERT] gives
    the ert of the first row of the grid whose target is [<= f], and
    [np.inf] when no row of the grid has a target [<= f]; it gives a value
    for every target and raises nothing. *)
Theorem detERT_first_row_or_inf (dict_alg : DictAlg) (self : t)
  (targets : list Np.float) :
  init alignArrayData median dict_alg = Ok self ->
  length (detERT self targets) = length targets /\
  forall k f, targets !! k = Some f ->
    (forall i, first_row_at_or_below self f i ->
       exists e, ert self !! i = Some e /\ detERT self targets !! k = Some e) /\
    ((forall t0, t0 ∈ target self -> Np.leb t0 f = false) ->
       detERT self targets !! k = Some Np.inf).
Proof.
  intros H. apply detERT_spec.
  destruct (init_lengths _ _ H) as [Hl1 Hl2]. congruence.
Qed.

(** *** The algorithm with the best final function values *)

Lemma keep_singletons_from (alg : string) (ds : DataSet.t) (l : DictAlg) :
  forall st, (foldl keep_step st l).1.1.1 !! alg = Some ds ->
  st.1.1.1 !! alg = Some ds \/ (alg, [ds]) ∈ l.
Proof.
  induction l as [|[a i] l IH]; intros st H; simpl in *; [by left|].
  apply IH in H as [H|H]; [|right; by right].
  destruct st as [[[tmp ks] dME] dFFV].
  destruct i as [|i0 [|i1 i]]; simpl in *; try (by left).
  destruct (decide (a = alg)) as [->|Hne].
  - rewrite lookup_insert_eq in H. simplify_eq. right. by left.
  - rewrite lookup_insert_ne in H by done. by left.
Qed.

Lemma bestfinal_from (tmp : gmap string DataSet.t) (l : list string) :
  forall v o v' a,
    for_each (bestfinal_step median tmp) l (v, o) = Ok (v', Some a) ->
    (o = Some a /\ v' = v)
    \/ exists ds, tmp !! a = Some ds /\ v' = DataSet.finalfunvals ds.
Proof.
  induction l as [|alg l IH]; intros v o v' a H; simpl in H.
  - simplify_eq. by left.
  - inv_bind H as st Hst. unfold bestfinal_step in Hst.
    inv_bind Hst as ds Hds. unfold dict_get in Hds.
    destruct (tmp !! alg) as [ds'|] eqn:Halg; simplify_eq. simpl in Hst.
    destruct (Np.ltb _ _); simplify_eq.
    + apply IH in H as [[? ->]|H]; [|by right]. simplify_eq.
      right. by exists ds.
    + by apply IH in H.
Qed.

Lemma evals_loop_length (tmp : gmap string DataSet.t)
  (l : list (Np.float * string)) : forall st st',
  for_each (evals_step tmp) l st = Ok st' ->
  length st'.2 = length st.2 + length l.
Proof.
  induction l as [|[funval alg] l IH]; intros st st' H; simpl in H.
  - simplify_eq. simpl. lia.
  - inv_bind H as st1 Hst1. apply IH in H. rewrite H.
    destruct st as [[di dc] acc]. unfold evals_step in Hst1.
    inv_bind Hst1 as ds Hds. destruct (advance _ _ _) as [cur it].
    simplify_eq. simpl. rewrite length_app. simpl. lia.
Qed.

Lemma init_evals_length (dict_alg : DictAlg) (self : t) :
  init alignArrayData median dict_alg = Ok self ->
  length (evals self) = length (algs self).
Proof.
  intros H. apply init_Ok in H
    as (tmp & sorted & dME & dFFV & res & best & st1 & cl & _ & Hbest
        & Hevals & _ & _ & _ & _ & _ & _ & ->).
  apply evals_loop_length in Hevals. simpl in Hevals.
  pose proof (comprehension_length _ _ _ Hbest) as Hl.
  rewrite Hevals, length_zip_with, !length_fmap. lia.
Qed.

(** C8: on a constructed set [detEvals] raises nothing and answers every
    target of the list that it is given; for each of them that no row of
    [self.evals] has an alignment value [<=] to, the answer is an array of
    NaN with one entry for each run of the algorithm
    [algbestfinalfunvals], that is for each of its final function values,
    and [None] for the algorithm. *)
Theorem detEvals_unreached (dict_alg : DictAlg) (self : t)
  (targets : list Np.float) :
  init alignArrayData median dict_alg = Ok self ->
  exists ds res res2,
    (algbestfinalfunvals self, [ds]) ∈ dict_alg /\
    bestfinalfunvals self = DataSet.finalfunvals ds /\
    detEvals self targets = Ok (res, res2) /\
    length res = length targets /\ length res2 = length targets /\
    forall k f, targets !! k = Some f ->
      (forall line, line ∈ evals self -> Np.leb (key line) f = false) ->
      res !! k = Some (replicate (length (DataSet.finalfunvals ds)) Np.nan) /\
      res2 !! k = Some None.
Proof.
  intros H. pose proof (init_evals_length _ _ H) as Hlen.
  destruct (detEvals_spec self targets ltac:(lia))
    as (res & res2 & Hdet & Hl1 & Hl2 & Hnone).
  apply init_Ok in H
    as (tmp & sorted & dME & dFFV & res0 & best & st1 & cl & Hkeep & _
        & _ & _ & _ & _ & Hbest & _ & _ & _).
  apply bestfinal_from in Hbest as [[? _]|(ds & Hds & Hv)]; [done|].
  exists ds, res, res2. rewrite Hv in *. split_and!; try done.
  pose proof (keep_singletons_from (algbestfinalfunvals self) ds dict_alg
                (∅, [], ∅, ∅)) as Hfrom.
  unfold keep_singletons in Hkeep. rewrite Hkeep in Hfrom.
  by destruct (Hfrom Hds).
Qed.

(** *** The representative line of [funvalsnofail] *)

Lemma any_equal_same_length (tail final : list Np.float) :
  length tail = length final ->
  any_equal tail final = Ok (reaches tail final).
Proof.
  intros Hlen. unfold any_equal, broadcast_eq, reaches.
  rewrite decide_True by done. f_equal. clear Hlen.
  revert final. induction tail as [|x tail IH]; intros [|y final]; try done.
  simpl. by rewrite IH.
Qed.

Lemma scan_funvals_spec (funvals : list row) (final : list Np.float) :
  one_entry_per_run funvals final ->
  forall curline, funvals <> [] ->
  exists line, scan_funvals curline funvals final = Ok (Some line) /\
    first_reaching funvals final line.
Proof.
  induction funvals as [|line rest IH]; intros Hruns curline Hne; [done|].
  apply Forall_cons in Hruns as [Hline Hruns]. simpl.
  rewrite (any_equal_same_length _ _ Hline). simpl.
  destruct (reaches (vals line) final) eqn:Hany.
  - exists line. split; [done|]. left. exists [], rest. split_and!; try done.
    intros l Hl. by apply elem_of_nil in Hl.
  - destruct rest as [|line' rest].
    + exists line. split; [done|]. right. split; [|done].
      by intros l ->%list_elem_of_singleton.
    + destruct (IH Hruns (Some line) ltac:(done)) as (r & -> & Hr).
      exists r. split; [done|].
      destruct Hr as [(pre & post & Heq & Hr & Hpre)|[Hall Hlast]].
      * left. exists (line :: pre), post. rewrite Heq. split_and!; try done.
        intros l [->|Hl]%elem_of_cons; [done|by apply Hpre].
      * right. split; [|done].
        intros l [->|Hl]%elem_of_cons; [done|by apply Hall].
Qed.

Lemma keep_singletons_other (alg : string) (l : DictAlg) : forall st,
  alg ∉ l.*1 ->
  (foldl keep_step st l).1.1.1 !! alg = st.1.1.1 !! alg.
Proof.
  induction l as [|[a i] l IH]; intros st Hnot; [done|].
  simpl in *. apply not_elem_of_cons in Hnot as [Hne Hnot].
  rewrite IH by done. destruct st as [[[tmp ks] dME] dFFV].
  destruct i as [|i0 [|i1 i]]; simpl; try done.
  by rewrite lookup_insert_ne.
Qed.

Lemma keep_singletons_lookup (alg : string) (ds : DataSet.t) (l : DictAlg) :
  forall st, NoDup (l.*1) -> (alg, [ds]) ∈ l ->
  (foldl keep_step st l).1.1.1 !! alg = Some ds.
Proof.
  induction l as [|[a i] l IH]; intros st Hnd Hin;
    [by apply elem_of_nil in Hin|].
  simpl in *. apply NoDup_cons in Hnd as [Hnot Hnd].
  apply elem_of_cons in Hin as [Heq|Hin].
  - simplify_eq. rewrite keep_singletons_other by done.
    destruct st as [[[tmp ks] dME] dFFV]. simpl. by rewrite lookup_insert_eq.
  - by apply IH.
Qed.

Lemma nofail_other (tmp : gmap string DataSet.t) (alg : string) (l : list string) :
  forall c m c' m',
    for_each (nofail_step tmp) l (c, m) = Ok (c', m') ->
    alg ∉ l -> m' !! alg = m !! alg.
Proof.
  induction l as [|a l IH]; intros c m c' m' H Hnot; simpl in H.
  - by simplify_eq.
  - apply not_elem_of_cons in Hnot as [Hne Hnot].
    inv_bind H as st Hst. unfold nofail_step in Hst.
    inv_bind Hst as ds Hds. simpl in Hst.
    inv_bind Hst as found Hfound. destruct found as [line|]; [|done].
    simplify_eq.
    rewrite (IH _ _ _ _ H Hnot). by rewrite lookup_insert_ne.
Qed.

Lemma nofail_lookup (tmp : gmap string DataSet.t) (alg : string)
  (ds : DataSet.t) (l : list string) :
  tmp !! alg = Some ds -> DataSet.funvals ds <> [] ->
  one_entry_per_run (DataSet.funvals ds) (DataSet.finalfunvals ds) ->
  forall c m c' m',
    NoDup l -> alg ∈ l ->
    for_each (nofail_step tmp) l (c, m) = Ok (c', m') ->
    exists line, m' !! alg = Some line /\
      first_reaching (DataSet.funvals ds) (DataSet.finalfunvals ds) line.
Proof.
  intros Hds Hne Hruns.
  induction l as [|a l IH]; intros c m c' m' Hnd Hin H;
    [by apply elem_of_nil in Hin|].
  apply NoDup_cons in Hnd as [Hnot Hnd]. simpl in H.
  inv_bind H as st Hst. unfold nofail_step in Hst.
  inv_bind Hst as ds' Hds'. simpl in Hst.
  apply elem_of_cons in Hin as [->|Hin].
  - unfold dict_get in Hds'. rewrite Hds in Hds'. simplify_eq.
    destruct (scan_funvals_spec (DataSet.funvals ds') (DataSet.finalfunvals ds')
                Hruns c Hne) as (line & Hscan & Hline).
    rewrite Hscan in Hst. simpl in Hst. simplify_eq.
    exists line. split; [|done].
    rewrite (nofail_other _ _ _ _ _ _ _ H Hnot). by rewrite lookup_insert_eq.
  - inv_bind Hst as found Hfound. destruct found as [line|]; [|done].
    simplify_eq. by eapply IH.
Qed.

(** C5, as the code has it: for an algorithm that won a row, and whose
    trajectory [funvals] is not empty and has in every line one entry for
    each run, as [finalfunvals] has, [funvalsnofail] holds the first line
    of the trajectory whose tail has an entry equal to the entry of
    [finalfunvals] for the same run, and the last line of the trajectory
    when no line has such an entry. *)
Theorem funvalsnofail_first_reaching (dict_alg : DictAlg) (self : t)
  (alg : string) (ds : DataSet.t) :
  NoDup (dict_alg.*1) ->
  (alg, [ds]) ∈ dict_alg ->
  DataSet.funvals ds <> [] ->
  one_entry_per_run (DataSet.funvals ds) (DataSet.finalfunvals ds) ->
  init alignArrayData median dict_alg = Ok self ->
  alg ∈ algs self ->
  exists line, funvalsnofail self !! alg = Some line /\
    first_reaching (DataSet.funvals ds) (DataSet.finalfunvals ds) line.
Proof.
  intros Hnd Hin Hne Hruns H Halg. apply init_Ok in H
    as (tmp & sorted & dME & dFFV & res & best & st1 & cl & Hkeep & _
        & _ & Hnofail & _ & _ & _ & _ & _ & Halgs).
  rewrite Halgs in Halg.
  assert (tmp !! alg = Some ds) as Htmp.
  { pose proof (keep_singletons_lookup alg ds dict_alg (∅, [], ∅, ∅) Hnd Hin) as Hl.
    unfold keep_singletons in Hkeep. by rewrite Hkeep in Hl. }
  eapply (nofail_lookup tmp alg ds _ Htmp Hne Hruns); [|shelve|exact Hnofail].
  - apply NoDup_elements.
  Unshelve. set_solver.
Qed.

End Init.

(** ** The construction on examples *)

Section Constructed.
Import BestAlgSet Examples.

Lemma init_three : init three = Ok (built three).
Proof. vm_compute. reflexivity. Qed.

(** The scenario of the three algorithms: [A] wins target 10 with ert 100
    although [C] has the same ert, [B] wins target 1 with ert 300. *)
Example three_winners :
  algs (built three) = ["A"; "B"] /\ ert (built three) = [fl 100; fl 300].
Proof. vm_compute. done. Qed.

(** C1: a row whose only entry is infinite.  Its least entry is the
    infinite ert of ["A"], but the scan, which starts from
    [currentbestert = np.inf] and takes an equal entry for a tie, leaves
    the winner at the empty name; the construction then stops with the
    [KeyError] of [dict_alg['']].  When there is an algorithm of the empty
    name, whose ert is NaN in this row, the construction goes through and
    stores that name as the winner of the row. *)
Theorem find_best_infinite_row :
  find_best ["A"] (Row (fl 10) [Np.inf]) = Ok (Np.inf, "") /\
  first_least ["A"] [Np.inf] Np.inf "A" /\
  init only_inf = Raise KeyError /\
  (exists self, init unnamed_and_inf = Ok self /\
     algs self = [""] /\ ert self = [Np.inf] /\
     first_least [""; "A"] [Np.nan; Np.inf] Np.inf "A").
Proof.
  split_and!; [done| |by vm_compute|].
  - exists 0. split_and!; try done.
    + by intros x ->%list_elem_of_singleton.
    + intros k x Hk. lia.
  - exists (built unnamed_and_inf).
    split; [vm_compute; reflexivity|]. split; [vm_compute; reflexivity|].
    split; [vm_compute; reflexivity|].
    exists 1. split_and!; try done.
    + intros x Hx Hnan.
      repeat (apply elem_of_cons in Hx as [->|Hx]); try done.
      by apply elem_of_nil in Hx.
    + intros [|k] x Hk Hx Hnan; simpl in *; simplify_eq; lia.
Qed.

(** C2: a row whose only entry is NaN.  The assertion looks at the number
    of columns, so it passes, and the row gets the winner [''] and the ert
    [np.inf].  With an algorithm ["A"] the construction stops later, in
    the loop over the evals, with the [KeyError] of [dict_alg['']]; with an
    algorithm of the empty name it goes through and stores [''] and
    [np.inf]. *)
Theorem find_best_all_nan_row :
  find_best ["A"] (Row (fl 10) [Np.nan]) = Ok (Np.inf, "") /\
  init only_nan = Raise KeyError /\
  (exists self, init unnamed_nan = Ok self /\
     algs self = [""] /\ ert self = [Np.inf]).
Proof.
  split_and!; [done|by vm_compute|].
  exists (built unnamed_nan). by vm_compute.
Qed.

(** C3: data sets of two functions and two dimensions.  The [Usage]
    object is built and dropped, and the construction goes on to a set for
    one of the functions and one of the dimensions. *)
Theorem init_mixed_not_refused :
  collect_dim_funcId mixed = ({[2; 3]}, {[1; 2]})%Z /\
  is_Some (usage_check {[1; 2]}%Z {[2; 3]}%Z) /\
  exists self, init mixed = Ok self /\
    algs self = ["A"; "B"] /\
    (funcId self = 1 \/ funcId self = 2)%Z /\ (dim self = 2 \/ dim self = 3)%Z.
Proof.
  split_and!; [vm_compute; reflexivity|vm_compute; eauto|].
  exists (built mixed). vm_compute. auto.
Qed.

Lemma detERT_first_row_or_inf_witness :
  length (detERT (built three) [fl 5; fl 0]) = length [fl 5; fl 0] /\
  forall k f, [fl 5; fl 0] !! k = Some f ->
    (forall i, first_row_at_or_below (built three) f i ->
       exists e, ert (built three) !! i = Some e /\
                 detERT (built three) [fl 5; fl 0] !! k = Some e) /\
    ((forall t0, t0 ∈ target (built three) -> Np.leb t0 f = false) ->
       detERT (built three) [fl 5; fl 0] !! k = Some Np.inf).
Proof.
  apply (detERT_first_row_or_inf align_common_axis np_median three
           (built three) [fl 5; fl 0]).
  vm_compute. reflexivity.
Defined.

(** Target 5 is reached at the row of target 1, target 0 is not reached. *)
Example detERT_three :
  detERT (built three) [fl 5; fl 0] = [fl 300; Np.inf].
Proof. vm_compute. reflexivity. Qed.

Lemma detEvals_unreached_witness :
  exists ds res res2,
    (algbestfinalfunvals (built three), [ds]) ∈ three /\
    bestfinalfunvals (built three) = DataSet.finalfunvals ds /\
    detEvals (built three) [fl 5; fl 0; fl 0] = Ok (res, res2) /\
    length res = length [fl 5; fl 0; fl 0] /\
    length res2 = length [fl 5; fl 0; fl 0] /\
    forall k f, [fl 5; fl 0; fl 0] !! k = Some f ->
      (forall line, line ∈ evals (built three) ->
         Np.leb (key line) f = false) ->
      res !! k = Some (replicate (length (DataSet.finalfunvals ds)) Np.nan) /\
      res2 !! k = Some None.
Proof.
  apply (detEvals_unreached align_common_axis np_median three
           (built three) [fl 5; fl 0; fl 0]).
  vm_compute. reflexivity.
Defined.

(** [B] has the least final function value; its one run gives the one
    NaN of each target 0, next to the answer for the target 5. *)
Example detEvals_three :
  algbestfinalfunvals (built three) = "B" /\
  detEvals (built three) [fl 5; fl 0; fl 0]
  = Ok ([[fl 280]; [Np.nan]; [Np.nan]], [Some "B"; None; None]).
Proof. split; vm_compute; reflexivity. Qed.

Lemma init_shape_witness :
  length (target (built three)) = length (algs (built three)) /\
  length (algs (built three)) = length (ert (built three)) /\
  dom (maxevals (built three)) = (list_to_set (algs (built three)) : gset string) /\
  dom (finalfunvals (built three)) = (list_to_set (algs (built three)) : gset string) /\
  dom (funvalsnofail (built three)) = (list_to_set (algs (built three)) : gset string).
Proof.
  apply (init_shape align_common_axis np_median three (built three)).
  vm_compute. reflexivity.
Defined.

(** Two sets with different grids, erts, winners and evals are equal. *)
Example eq_three_regridded :
  eq (built three) (Instance three_regridded) = true /\
  ne (built three) (Instance three_regridded) = false /\
  target (built three) <> target three_regridded.
Proof. split_and!; [by vm_compute|by vm_compute|]. vm_compute. discriminate. Qed.

(** [C] is an input but wins no row: it is not a key. *)
Example three_keys :
  dom (maxevals (built three)) = ({[ "A"; "B" ]} : gset string).
Proof. vm_compute. reflexivity. Qed.

Lemma funvalsnofail_first_reaching_witness :
  exists line, funvalsnofail (built three) !! "A" = Some line /\
    first_reaching (DataSet.funvals A) (DataSet.finalfunvals A) line.
Proof.
  apply (funvalsnofail_first_reaching align_common_axis np_median three
           (built three) "A" A).
  - compute_done.
  - by left.
  - discriminate.
  - repeat constructor.
  - vm_compute. reflexivity.
  - compute_done.
Defined.

(** C5 as it is worded fails on [A], whose trajectory has the tails 7 and
    3 and whose final value is 3: the first line whose tail differs from
    the final value is the line of 7, and the code keeps the line of 3. *)
Lemma funvalsnofail_not_first_differing :
  init three = Ok (built three) /\
  "A" ∈ algs (built three) /\
  spec_first_differing (DataSet.funvals A) (DataSet.finalfunvals A)
    = Some (Row (fl 1) [fl 7]) /\
  funvalsnofail (built three) !! "A" = Some (Row (fl 2) [fl 3]) /\
  funvalsnofail (built three) !! "A"
    <> spec_first_differing (DataSet.funvals A) (DataSet.finalfunvals A).
Proof.
  split_and!.
  - vm_compute. reflexivity.
  - compute_done.
  - vm_compute. reflexivity.
  - vm_compute. reflexivity.
  - vm_compute. discriminate.
Qed.

(** The comparison broadcasts a [finalfunvals] of one entry against the
    tail of a line and compares entry by entry when the lengths agree;
    two shapes that cannot be broadcast end the construction. *)
Example any_equal_shapes :
  any_equal [fl 7; fl 3] [fl 3] = Ok true /\
  any_equal [fl 7; fl 3] [fl 3; fl 7] = Ok false /\
  any_equal [fl 7; fl 3; fl 1] [fl 3; fl 7] = Raise AttributeError.
Proof. split_and!; vm_compute; reflexivity. Qed.

End Constructed.

(** ** Counting the contributions *)

Section Counting.
Import BestAlgSet getAllContributingAlgorithmsToBest.

Lemma dimension_total_empty d : dimension_total d ∅ = 0.
Proof. unfold dimension_total. by rewrite map_to_list_empty. Qed.

Lemma dimension_total_insert_fresh (d : Z) (k : Z * string) (n : nat)
  (counts : gmap (Z * string) nat) :
  counts !! k = None ->
  dimension_total d (<[k := n]> counts)
  = (if decide (k.1 = d) then n else 0) + dimension_total d counts.
Proof.
  intros Hk. unfold dimension_total.
  by rewrite (map_to_list_insert counts k n Hk).
Qed.

Lemma dimension_total_tally (d' d : Z) (l : list string) (a : string)
  (counts : gmap (Z * string) nat) :
  dimension_total d' (tally d l counts a)
  = dimension_total d' counts + (if decide (d = d') then count a l else 0).
Proof.
  unfold tally. destruct (counts !! (d, a)) as [v|] eqn:Hk; simpl.
  - rewrite <-(insert_delete_eq counts).
    rewrite <-(insert_id counts (d, a) v Hk) at 2.
    rewrite <-(insert_delete_eq counts (d, a) v).
    rewrite !dimension_total_insert_fresh by apply lookup_delete_eq.
    simpl. case_decide; lia.
  - rewrite dimension_total_insert_fresh by done. simpl. case_decide; lia.
Qed.

Lemma dimension_total_tallies (d' d : Z) (l S : list string) :
  forall counts : gmap (Z * string) nat,
  dimension_total d' (foldl (tally d l) counts S)
  = dimension_total d' counts
    + (if decide (d = d') then sum_list_with (fun a => count a l) S else 0).
Proof.
  induction S as [|a S IH]; intros counts; simpl.
  - case_decide; lia.
  - rewrite IH, dimension_total_tally. case_decide; lia.
Qed.

Lemma count_cons a x l :
  count a (x :: l) = (if decide (x = a) then 1 else 0) + count a l.
Proof. unfold count. rewrite filter_cons. by case_decide. Qed.

Lemma sum_indicator (x : string) (S : list string) :
  NoDup S -> x ∈ S ->
  sum_list_with (fun a => if decide (x = a) then 1 else 0) S = 1.
Proof.
  induction S as [|a S IH]; intros Hnd Hin; [by apply elem_of_nil in Hin|].
  apply NoDup_cons in Hnd as [Hnot Hnd]. simpl.
  apply elem_of_cons in Hin as [->|Hin].
  - rewrite decide_True by done. f_equal.
    clear IH Hnd. induction S as [|b S IH]; [done|]. simpl.
    apply not_elem_of_cons in Hnot as [Hne Hnot].
    rewrite decide_False by done. by apply IH.
  - rewrite decide_False by (intros ->; done). by apply IH.
Qed.

(** Every entry of [l] is counted once when the names [S] are distinct and
    cover [l]. *)
Lemma sum_count (S l : list string) :
  NoDup S -> (forall x, x ∈ l -> x ∈ S) ->
  sum_list_with (fun a => count a l) S = length l.
Proof.
  intros Hnd. induction l as [|x l IH]; intros Hsub.
  - clear. induction S as [|a S IHS]; [done|]. simpl. by rewrite IHS.
  - assert (sum_list_with (fun a => count a (x :: l)) S
            = sum_list_with (fun a => if decide (x = a) then 1 else 0) S
              + sum_list_with (fun a => count a l) S) as ->.
    { clear. induction S as [|a S IHS]; [done|]. simpl.
      rewrite IHS, count_cons. lia. }
    rewrite sum_indicator, IH; [done| |done|].
    + intros y Hy. apply Hsub. by right.
    + apply Hsub. by left.
Qed.

Lemma corrected_steps (b : t) (lb ub : Np.float) :
  length (target b) = length (algs b) ->
  forall n i acc, i + n = length (target b) ->
  exists rest,
    for_each (corrected_step b lb ub) (seq i n) acc = Ok (acc ++ rest)%list /\
    length rest
    = length (filter (fun t0 => Np.geb t0 lb && Np.leb t0 ub = true)
                     (drop i (target b))) /\
    forall a, a ∈ rest -> a ∈ algs b.
Proof.
  intros Hlen. induction n as [|n IH]; intros i acc Hi; simpl.
  - exists []. rewrite app_nil_r, drop_ge by lia. split_and!; try done.
    intros a Ha. by apply elem_of_nil in Ha.
  - destruct (lookup_lt_is_Some_2 (target b) i ltac:(lia)) as [t0 Ht0].
    destruct (lookup_lt_is_Some_2 (algs b) i ltac:(lia)) as [a0 Ha0].
    assert (corrected_step b lb ub acc i
            = Ok (if Np.geb t0 lb && Np.leb t0 ub then acc ++ [a0] else acc)%list)
      as ->.
    { unfold corrected_step, list_get. rewrite Ht0. simpl.
      destruct (Np.geb t0 lb && Np.leb t0 ub); simpl; by rewrite ?Ha0. }
    rewrite (drop_S _ _ _ Ht0), filter_cons.
    destruct (Np.geb t0 lb && Np.leb t0 ub) eqn:Hrange; simpl.
    + destruct (IH (S i) (acc ++ [a0])%list ltac:(lia)) as (rest & -> & Hl & Hsub).
      exists (a0 :: rest). rewrite <-app_assoc. simpl.
      split_and!; [done|by rewrite Hl|].
      intros a [->|Ha]%elem_of_cons; [by eapply list_elem_of_lookup_2|by apply Hsub].
    + destruct (IH (S i) acc ltac:(lia)) as (rest & -> & Hl & Hsub).
      by exists rest.
Qed.

Lemma correctedbestalgentries_spec (b : t) (lb ub : Np.float) :
  length (target b) = length (algs b) ->
  exists corrected,
    correctedbestalgentries b lb ub = Ok corrected /\
    length corrected = rows_in_range b lb ub /\
    forall a, a ∈ corrected -> a ∈ algs b.
Proof.
  intros Hlen.
  destruct (corrected_steps b lb ub Hlen (length (target b)) 0 [] eq_refl)
    as (rest & H & Hl & Hsub).
  exists rest. by rewrite drop_0 in Hl.
Qed.

Lemma entry_step_total (lb ub : Np.float) d' counts d f (b : t) :
  length (target b) = length (algs b) ->
  exists counts',
    entry_step lb ub counts (d, f, b) = Ok counts' /\
    dimension_total d' counts'
    = dimension_total d' counts
      + (if decide (d = d') then rows_in_range b lb ub else 0).
Proof.
  intros Hlen. unfold entry_step.
  destruct (correctedbestalgentries_spec b lb ub Hlen)
    as (corrected & -> & Hl & Hsub). simpl.
  eexists. split; [done|]. rewrite dimension_total_tallies.
  case_decide; [|done]. rewrite sum_count, Hl; [done|apply NoDup_elements|].
  intros x Hx. apply Hsub in Hx. set_solver.
Qed.

Lemma entries_total (lb ub : Np.float) d' (entries : list (Z * Z * t)) :
  (forall e, e ∈ entries -> length (target e.2) = length (algs e.2)) ->
  forall counts, exists counts',
    for_each (entry_step lb ub) entries counts = Ok counts' /\
    dimension_total d' counts'
    = dimension_total d' counts + rows_of_dimension d' entries lb ub.
Proof.
  induction entries as [|[[d f] b] entries IH]; intros Hlen counts.
  - exists counts. split; [done|]. unfold rows_of_dimension. simpl. lia.
  - rewrite for_each_cons.
    destruct (entry_step_total lb ub d' counts d f b) as (c1 & -> & H1).
    { apply (Hlen (d, f, b)). by left. }
    simpl. destruct (IH ltac:(intros e He; apply Hlen; by right) c1)
      as (c2 & -> & H2).
    exists c2. split; [done|]. rewrite H2, H1.
    unfold rows_of_dimension. simpl. lia.
Qed.

Lemma ranking_total_fold (counts : gmap (Z * string) nat) (d : Z)
  (keys : list (Z * string)) : forall sel : gmap Z (list (nat * string)),
  ranking_total d
    (foldl (fun sel '(d', a) =>
              <[d' := (default [] (sel !! d')
                       ++ [(default 0 (counts !! (d', a)), a)])%list]> sel)
           sel keys)
  = ranking_total d sel
    + sum_list_with (fun k => if decide (k.1 = d)
                              then default 0 (counts !! k) else 0) keys.
Proof.
  induction keys as [|[d' a] keys IH]; intros sel; simpl; [lia|].
  rewrite IH. unfold ranking_total. simpl.
  destruct (decide (d' = d)) as [->|Hne].
  - rewrite lookup_insert_eq. simpl. rewrite sum_list_with_app. simpl. lia.
  - by rewrite lookup_insert_ne.
Qed.

(** The lists of [selectedalgsperdimension] hold the counts of
    [countsperalgorithm], each once. *)
Lemma ranking_total_counts (counts : gmap (Z * string) nat) (d : Z) :
  ranking_total d (selectedalgsperdimension counts) = dimension_total d counts.
Proof.
  unfold selectedalgsperdimension. rewrite ranking_total_fold.
  unfold ranking_total at 1. rewrite lookup_empty. simpl.
  rewrite merge_sort_Permutation. unfold dimension_total.
  assert (forall kv, kv ∈ map_to_list counts -> counts !! kv.1 = Some kv.2)
    as Hall by (intros [k v] Hkv; by apply elem_of_map_to_list).
  induction (map_to_list counts) as [|[k v] l IH]; [done|]. csimpl.
  rewrite IH by (intros kv Hkv; apply Hall; by right).
  pose proof (Hall (k, v) ltac:(by left)) as Hk. simpl in Hk. by rewrite Hk.
Qed.

Lemma countsperalgorithm_spec (bestalgentries : gmap (Z * Z) t)
  (target_lb target_ub : Np.float) :
  (forall k b, bestalgentries !! k = Some b ->
     length (target b) = length (algs b)) ->
  exists counts,
    countsperalgorithm bestalgentries target_lb target_ub = Ok counts /\
    forall d, dimension_total d counts
              = rows_of_dimension d (map_to_list bestalgentries)
                                  target_lb target_ub.
Proof.
  intros Hlen. unfold countsperalgorithm.
  assert (forall e, e ∈ map_to_list bestalgentries ->
                    length (target e.2) = length (algs e.2)) as Hall.
  { intros [k b] He. apply elem_of_map_to_list in He. by eapply Hlen. }
  destruct (entries_total target_lb target_ub 0 _ Hall ∅) as (counts & Hc & _).
  exists counts. split; [done|]. intros d.
  destruct (entries_total target_lb target_ub d _ Hall ∅) as (counts' & Hc' & Hd).
  rewrite Hc in Hc'. simplify_eq. by rewrite Hd, dimension_total_empty.
Qed.

End Counting.

(** ** The credits of a target row *)

Section Credit.
Import extractBestAlgorithms.
Variable dictAlg : gmap string (gmap Z (list DataSet.t)).
Variable dataset_detERT : DataSet.t -> Np.float -> Np.float.
Variable f_factor : Np.float.
Variables (best_alg : string) (best_ERT : Np.float) (d f : Z) (t : Np.float).

Local Abbreviation ERT_at := (CreditSpec.ERT_at dictAlg dataset_detERT d f t).
Local Abbreviation data_set_found := (CreditSpec.data_set_found dictAlg d f).
Local Abbreviation within_factor :=
  (CreditSpec.within_factor dictAlg dataset_detERT f_factor best_alg best_ERT
                            d f t).
Local Abbreviation second_best_step :=
  (CreditSpec.second_best_step dictAlg dataset_detERT best_alg d f t).
Local Abbreviation second_inv :=
  (CreditSpec.second_inv dictAlg dataset_detERT best_alg d f t).
Local Abbreviation second_best :=
  (CreditSpec.second_best dictAlg dataset_detERT best_alg d f t).
Local Abbreviation two_with_running_time :=
  (CreditSpec.two_with_running_time dictAlg dataset_detERT d f t).
Local Abbreviation second_step_found :=
  (CreditSpec.second_step_found dictAlg dataset_detERT f_factor best_alg
                                best_ERT d f t).

Lemma currERT_found (a : string) :
  data_set_found a -> currERT dictAlg dataset_detERT a d f t = Ok (ERT_at a).
Proof.
  unfold CreditSpec.data_set_found, CreditSpec.ERT_at, currERT, dict_get.
  destruct (dictAlg !! a) as [currdictalg|]; [|done]. simpl.
  destruct (currdictalg !! d) as [datasets|]; [|done].
  by intros [curralgdata ->].
Qed.

Lemma second_steps_found (j : list string) :
  (forall a, a ∈ j -> data_set_found a) ->
  forall st,
    for_each (second_step dictAlg dataset_detERT f_factor best_alg best_ERT
                          d f t) j st
    = Ok (foldl second_step_found st j).
Proof.
  induction j as [|a j IH]; intros Hfound st; [done|].
  rewrite for_each_cons. cbn [foldl].
  assert (second_step dictAlg dataset_detERT f_factor best_alg best_ERT
                      d f t st a = Ok (second_step_found st a)) as ->.
  { unfold second_step, CreditSpec.second_step_found.
    rewrite (currERT_found a (Hfound a ltac:(by left))). simpl.
    by destruct ERT_at. }
  simpl. apply IH. intros b Hb. apply Hfound. by right.
Qed.

Lemma second_step_split p incl sel astring :
  second_step_found (p, incl, sel) astring
  = (second_best_step p astring, incl || within_factor astring,
     if within_factor astring then (sel ++ [astring])%list else sel).
Proof.
  destruct p as [sE sS].
  unfold CreditSpec.second_step_found, second_update,
    CreditSpec.second_best_step, CreditSpec.within_factor.
  destruct ERT_at as [currERT|]; [|by rewrite orb_false_r].
  destruct (decide (astring <> best_alg)) as [Hne|Heq]; simpl.
  - rewrite (bool_decide_eq_true_2 _ Hne).
    destruct (Np.ltb currERT sE), (Np.leb currERT _); simpl;
      by rewrite ?orb_true_r, ?orb_false_r.
  - rewrite (bool_decide_eq_false_2 _ Heq). simpl. by rewrite orb_false_r.
Qed.

Lemma second_step_fold (j : list string) : forall p incl sel,
  foldl second_step_found (p, incl, sel) j
  = (foldl second_best_step p j, incl || existsb within_factor j,
     (sel ++ filter (fun a => within_factor a = true) j)%list).
Proof.
  induction j as [|a j IH]; intros p incl sel.
  - simpl. by rewrite orb_false_r, app_nil_r.
  - cbn [foldl]. rewrite second_step_split, IH, filter_cons. cbn [existsb].
    rewrite orb_assoc. destruct (within_factor a); simpl; [|done].
    by rewrite <-app_assoc.
Qed.

Lemma second_best_step_inv pre p a :
  second_inv pre p -> second_inv (pre ++ [a]) (second_best_step p a).
Proof.
  intros Hinv. unfold CreditSpec.second_best_step.
  destruct (ERT_at a) as [e|] eqn:He;
    [destruct (decide (a <> best_alg)) as [Hne|Heq];
     [destruct (Np.ltb e p.1) eqn:Hlt|]|].
  - (* a new second best *)
    assert (Np.leb p.1 Np.inf = true /\
            forall a' e', a' ∈ pre -> a' <> best_alg -> ERT_at a' = Some e' ->
                          Np.isnan e' = false -> Np.leb p.1 e' = true)
      as [Hinf Hle].
    { destruct Hinv as [[-> Hpre]|(Hin & Hnb & HE & Hfin & Hle)]; simpl.
      - split; [done|]. intros a' e' Ha' Hne' He' Hn'.
        by rewrite (NpFacts.not_ltb_inf e' Hn' (Hpre a' e' Ha' Hne' He')).
      - split; [by apply NpFacts.ltb_leb|done]. }
    right. simpl. split_and!; try done.
    + apply elem_of_app. right. by left.
    + by apply NpFacts.ltb_leb_trans with p.1.
    + intros a' e' [Ha' | ->%list_elem_of_singleton]%elem_of_app Hne' He' Hn'.
      * apply NpFacts.ltb_leb, NpFacts.ltb_leb_trans with p.1; [done|by eapply Hle].
      * rewrite He in He'. simplify_eq.
        unfold Np.leb, SFleb. by rewrite NpFacts.compare_refl_not_nan.
  - (* not below the second best *)
    destruct Hinv as [[-> Hpre]|(Hin & Hnb & HE & Hfin & Hle)].
    + left. split; [done|].
      intros a' e' [Ha' | ->%list_elem_of_singleton]%elem_of_app Hne' He';
        [by eapply Hpre|]. rewrite He in He'. by simplify_eq.
    + right. split_and!; try done.
      * apply elem_of_app. by left.
      * intros a' e' [Ha' | ->%list_elem_of_singleton]%elem_of_app Hne' He' Hn';
          [by eapply Hle|]. rewrite He in He'. simplify_eq.
        apply NpFacts.not_ltb_leb; [done|by destruct (NpFacts.ltb_not_nan _ _ Hfin)|done].
  - (* the winner *)
    apply dec_stable in Heq. subst a.
    destruct Hinv as [[-> Hpre]|(Hin & Hnb & HE & Hfin & Hle)].
    + left. split; [done|].
      intros a' e' [Ha' | ->%list_elem_of_singleton]%elem_of_app Hne' He';
        [by eapply Hpre|done].
    + right. split_and!; try done.
      * apply elem_of_app. by left.
      * intros a' e' [Ha' | ->%list_elem_of_singleton]%elem_of_app Hne' He' Hn';
          [by eapply Hle|done].
  - (* no data in this dimension *)
    destruct Hinv as [[-> Hpre]|(Hin & Hnb & HE & Hfin & Hle)].
    + left. split; [done|].
      intros a' e' [Ha' | ->%list_elem_of_singleton]%elem_of_app Hne' He';
        [by eapply Hpre|congruence].
    + right. split_and!; try done.
      * apply elem_of_app. by left.
      * intros a' e' [Ha' | ->%list_elem_of_singleton]%elem_of_app Hne' He' Hn';
          [by eapply Hle|congruence].
Qed.

Lemma second_best_fold_inv (j : list string) : forall pre p,
  second_inv pre p -> second_inv (pre ++ j) (foldl second_best_step p j).
Proof.
  induction j as [|a j IH]; intros pre p Hinv; simpl.
  - by rewrite app_nil_r.
  - rewrite (cons_middle a), app_assoc. by apply IH, second_best_step_inv.
Qed.


End Credit.

(** ** The counts over constructed sets *)

Section Contributions.
Import BestAlgSet getAllContributingAlgorithmsToBest.
Variable alignArrayData : list (list (Np.float * Np.float)) -> result (list row).
Variable median : list Np.float -> Np.float.

(** C9: [bestalgentries] holding constructed sets, the counts of one
    dimension, summed over the algorithms, are the number of rows in range
    of all the functions of that dimension: every such row is counted, and
    counted once.  The same holds of the counts in the list of that
    dimension in [selectedalgsperdimension]. *)
Theorem contributions_sum (bestalgentries : gmap (Z * Z) t)
  (target_lb target_ub : Np.float) :
  (forall k b, bestalgentries !! k = Some b ->
     exists dict_alg, init alignArrayData median dict_alg = Ok b) ->
  exists counts,
    countsperalgorithm bestalgentries target_lb target_ub = Ok counts /\
    run bestalgentries target_lb target_ub
    = Ok (selectedalgsperdimension counts) /\
    forall d,
      dimension_total d counts
      = rows_of_dimension d (map_to_list bestalgentries) target_lb target_ub /\
      ranking_total d (selectedalgsperdimension counts)
      = rows_of_dimension d (map_to_list bestalgentries) target_lb target_ub.
Proof.
  intros Hbuilt.
  destruct (countsperalgorithm_spec bestalgentries target_lb target_ub)
    as (counts & Hc & Hsum).
  { intros k b Hk. destruct (Hbuilt k b Hk) as [dict_alg H].
    by destruct (init_lengths _ _ _ _ H). }
  exists counts. split_and!; [done|by unfold run; rewrite Hc|].
  intros d. by rewrite ranking_total_counts, Hsum.
Qed.

End Contributions.

(** ** The analyses on examples *)

Section Analysed.
Import BestAlgSet Examples.

Lemma contributions_sum_witness :
  exists counts,
    getAllContributingAlgorithmsToBest.countsperalgorithm
      entries_three (fl 1) (fl 100) = Ok counts /\
    getAllContributingAlgorithmsToBest.run entries_three (fl 1) (fl 100)
    = Ok (selectedalgsperdimension counts) /\
    forall d,
      dimension_total d counts
      = rows_of_dimension d (map_to_list entries_three) (fl 1) (fl 100) /\
      ranking_total d (selectedalgsperdimension counts)
      = rows_of_dimension d (map_to_list entries_three) (fl 1) (fl 100).
Proof.
  apply (contributions_sum align_common_axis np_median entries_three).
  unfold entries_three. intros k b [_ <-]%lookup_singleton_Some.
  exists three. vm_compute. reflexivity.
Defined.

(** With the bounds 1 and 100 both rows of [three] count, one for [A] and
    one for [B]; with the bounds 5 and 100 only the row of [A] counts. *)
Example contributions_three :
  getAllContributingAlgorithmsToBest.run entries_three (fl 1) (fl 100)
  = Ok {[ 2%Z := [(1, "A"); (1, "B")] ]} /\
  getAllContributingAlgorithmsToBest.countsperalgorithm
    entries_three (fl 1) (fl 100)
  = Ok {[ (2%Z, "A") := 1; (2%Z, "B") := 1 ]} /\
  getAllContributingAlgorithmsToBest.countsperalgorithm
    entries_three (fl 5) (fl 100)
  = Ok {[ (2%Z, "A") := 1; (2%Z, "B") := 0 ]}.
Proof. split_and!; vm_compute; reflexivity. Qed.


(** The scenario of the factor 2: [B] with 150 is within the factor of the
    100 of [A] and is credited, [C] with 500 is not; when [B] has 300, no
    algorithm is within the factor and [B] is credited as the second
    best. *)
Example credit_scenarios :
  credit times_within = Ok ["A"; "B"] /\
  credit times_fallback = Ok ["A"; "B"].
Proof. split; vm_compute; reflexivity. Qed.

(** The whole analysis on [three]: at target 10 the winner [A] and, within
    the factor, [B] and [C]; at target 1 the winner [B] and, within the
    factor, [A]. *)
Example extract_three_ranking :
  extract_three = Ok {[ 2%Z := [(2, "A"); (2, "B"); (1, "C")] ]}.
Proof. vm_compute. reflexivity. Qed.


End Analysed.

(** * Further properties *)

(** ** The construction, step by step *)

Section InitMore.
Import BestAlgSet.
Variable alignArrayData : list (list (Np.float * Np.float)) -> result (list row).
Variable median : list Np.float -> Np.float.

(** What a successful construction went through, with the aligned array
    and the two sets of line 104-108. *)
Lemma init_inv (dict_alg : DictAlg) (self : t) :
  init alignArrayData median dict_alg = Ok self ->
  exists res best st_evals curline,
    set_pop (collect_dim_funcId dict_alg).2 = Ok (funcId self) /\
    set_pop (collect_dim_funcId dict_alg).1 = Ok (dim self) /\
    aligned_grid alignArrayData dict_alg = Ok res /\
    comprehension (find_best (sortedAlgs_of dict_alg)) res = Ok best /\
    for_each (evals_step (tmpdictAlg_of dict_alg))
             (zip (key <$> res) (best.*2)) (∅, ∅, [])
      = Ok (st_evals, evals self) /\
    for_each (nofail_step (tmpdictAlg_of dict_alg))
             (elements (list_to_set (best.*2) : gset string)) (None, ∅)
      = Ok (curline, funvalsnofail self) /\
    for_each (bestfinal_step median (tmpdictAlg_of dict_alg))
             (sortedAlgs_of dict_alg) ([Np.inf], None)
      = Ok (bestfinalfunvals self, Some (algbestfinalfunvals self)) /\
    target self = key <$> res /\ ert self = best.*1 /\ algs self = best.*2 /\
    comment self
    = "Combination of " +:+ String.concat ", " (sortedAlgs_of dict_alg).
Proof.
  unfold init, aligned_grid, sortedAlgs_of, tmpdictAlg_of.
  destruct (collect_dim_funcId dict_alg) as [d f].
  intros H. inv_bind H as f0 Hf. inv_bind H as d0 Hd.
  destruct (keep_singletons dict_alg) as [[[tmp sorted] dME] dFFV].
  inv_bind H as erts Herts. inv_bind H as res Hres. inv_bind H as best Hbest.
  inv_bind H as st1 Hst1. destruct st1 as [[di dc] resDataSet].
  inv_bind H as st2 Hst2. destruct st2 as [cl nofail].
  inv_bind H as me Hme. inv_bind H as ffv Hffv.
  inv_bind H as st3 Hst3. destruct st3 as [bffv [abffv|]]; [|done].
  simplify_eq. simpl.
  exists res, best, (di, dc), cl. rewrite Herts. simpl.
  by split_and!.
Qed.

Lemma nofail_keys (tmp : gmap string DataSet.t) (l : list string) :
  forall st st', for_each (nofail_step tmp) l st = Ok st' ->
  forall alg, alg ∈ l -> is_Some (tmp !! alg).
Proof.
  induction l as [|a l IH]; intros st st' H alg Halg;
    [by apply elem_of_nil in Halg|].
  simpl in H. inv_bind H as st1 Hst1.
  apply elem_of_cons in Halg as [->|Halg]; [|by eapply IH].
  unfold nofail_step in Hst1. inv_bind Hst1 as ds Hds.
  unfold dict_get in Hds. destruct (tmp !! a); [by eexists|done].
Qed.

Lemma winner_in_tmpdictAlg (dict_alg : DictAlg) (self : t) (alg : string) :
  init alignArrayData median dict_alg = Ok self ->
  alg ∈ algs self -> is_Some (tmpdictAlg_of dict_alg !! alg).
Proof.
  intros H Halg. apply init_inv in H
    as (res & best & st1 & cl & _ & _ & _ & _ & _ & Hnofail & _ & _ & _
        & Halgs & _).
  eapply nofail_keys; [exact Hnofail|]. rewrite Halgs in Halg. set_solver.
Qed.

(** X1: Every winner is an algorithm of the input with exactly one data set:
    an algorithm with no data set or with several never wins a row, and
    neither does a name that is not in the input. *)
Theorem winners_have_one_data_set (dict_alg : DictAlg) (self : t) (alg : string) :
  init alignArrayData median dict_alg = Ok self ->
  alg ∈ algs self ->
  exists ds, (alg, [ds]) ∈ dict_alg.
Proof.
  intros H Halg.
  destruct (winner_in_tmpdictAlg _ _ _ H Halg) as [ds Hds].
  exists ds. unfold tmpdictAlg_of, keep_singletons in Hds.
  by destruct (keep_singletons_from alg ds dict_alg (∅, [], ∅, ∅) Hds).
Qed.

(** X2: When the empty name is not an algorithm of the input, every row of a
    constructed set holds the first least non-NaN entry of the aligned row
    and the algorithm of its column: an entry further on that is equal to
    it does not replace it. *)
Theorem constructed_rows_first_least (dict_alg : DictAlg) (self : t) :
  "" ∉ dict_alg.*1 ->
  init alignArrayData median dict_alg = Ok self ->
  exists res,
    aligned_grid alignArrayData dict_alg = Ok res /\
    target self = key <$> res /\
    forall i line, res !! i = Some line ->
      exists e a, ert self !! i = Some e /\ algs self !! i = Some a /\
        first_least (sortedAlgs_of dict_alg) (vals line) e a.
Proof.
  intros Hnames H. pose proof H as H0. apply init_inv in H
    as (res & best & st1 & cl & _ & _ & Hres & Hbest & _ & _ & _ & Ht & He
        & Ha & _).
  exists res. split_and!; try done. intros i line Hi.
  destruct (comprehension_lookup _ _ _ _ _ Hbest Hi) as ([e a] & Hb & Hfind).
  exists e, a. rewrite He, Ha, !list_lookup_fmap, Hb. split_and!; try done.
  assert (a <> "") as Hne.
  { intros ->. destruct (winner_in_tmpdictAlg dict_alg self "" H0) as [ds Hds].
    - rewrite Ha. apply list_elem_of_fmap. exists (e, ""). split; [done|].
      by eapply list_elem_of_lookup_2.
    - unfold tmpdictAlg_of, keep_singletons in Hds.
      destruct (keep_singletons_from "" ds dict_alg (∅, [], ∅, ∅) Hds)
        as [?|Hin]; [done|].
      apply Hnames. apply list_elem_of_fmap. by exists ("", [ds]). }
  unfold find_best in Hfind. case_decide; [|done].
  apply (scan_erts_inv _ (vals line) []) in Hfind.
  2:{ left. split; [done|]. intros y Hy. by apply elem_of_nil in Hy. }
  simpl in Hfind. destruct Hfind as [[? _]|(j & Hj & Hja & Hlt & Hle & Hbef)];
    [by simplify_eq|].
  exists j. split_and!; try done. by destruct (NpFacts.ltb_not_nan _ _ Hlt).
Qed.

(** *** The algorithms that are kept *)

Lemma keep_singletons_keys (l : DictAlg) : forall st,
  NoDup (l.*1) -> (forall a, a ∈ l.*1 -> a ∉ st.1.1.2) ->
  (foldl keep_step st l).1.1.2 = (st.1.1.2 ++ singletons l)%list.
Proof.
  unfold singletons.
  induction l as [|[a i] l IH]; intros st Hnd Hfresh; simpl.
  - by rewrite app_nil_r.
  - simpl in Hnd. apply NoDup_cons in Hnd as [Hnot Hnd].
    destruct st as [[[tmp ks] dME] dFFV]. simpl in Hfresh.
    rewrite filter_cons. simpl.
    destruct i as [|i0 [|i1 i]]; simpl.
    + rewrite IH; [done|done|]. intros b Hb. apply Hfresh. by right.
    + rewrite decide_False by (apply Hfresh; by left).
      rewrite IH; [|done|]; simpl.
      * by rewrite <-app_assoc.
      * intros b Hb [Hin | ->%list_elem_of_singleton]%elem_of_app; [|done].
        revert Hin. apply Hfresh. by right.
    + rewrite IH; [done|done|]. intros b Hb. apply Hfresh. by right.
Qed.

Lemma sortedAlgs_singletons (dict_alg : DictAlg) :
  NoDup (dict_alg.*1) -> sortedAlgs_of dict_alg = singletons dict_alg.
Proof.
  intros Hnd. unfold sortedAlgs_of, keep_singletons.
  rewrite keep_singletons_keys; [done|done|].
  intros a _ Ha. by apply elem_of_nil in Ha.
Qed.

(** X3: The comment of a constructed set names, after [Combination of],
    the algorithms of the input that have exactly one data set, each once
    and in some order, and no other: the algorithms without a data set or
    with several are left out. *)
Theorem comment_names_singletons (dict_alg : DictAlg) (self : t) :
  NoDup (dict_alg.*1) ->
  init alignArrayData median dict_alg = Ok self ->
  exists names,
    names ≡ₚ singletons dict_alg /\
    comment self = "Combination of " +:+ String.concat ", " names.
Proof.
  intros Hnd H. apply init_inv in H
    as (res & best & st1 & cl & _ & _ & _ & _ & _ & _ & _ & _ & _ & _ & ->).
  exists (sortedAlgs_of dict_alg). split; [|done].
  by rewrite sortedAlgs_singletons.
Qed.

(** *** The function and the dimension *)

Lemma collect_elem (l : list (list DataSet.t)) : forall (d f : gset Z) (x : Z),
  (x ∈ (foldl (fun '(d, f) i =>
                 (d ∪ list_to_set (DataSet.dim <$> i),
                  f ∪ list_to_set (DataSet.funcId <$> i)))
              (d, f) l).2
   <-> x ∈ f \/ exists i ds, i ∈ l /\ ds ∈ i /\ DataSet.funcId ds = x) /\
  (x ∈ (foldl (fun '(d, f) i =>
                 (d ∪ list_to_set (DataSet.dim <$> i),
                  f ∪ list_to_set (DataSet.funcId <$> i)))
              (d, f) l).1
   <-> x ∈ d \/ exists i ds, i ∈ l /\ ds ∈ i /\ DataSet.dim ds = x).
Proof.
  induction l as [|i l IH]; intros d f x; simpl.
  - split; (split; [by left|]); intros [H|(i & ds & Hi & _)]; try done;
      by apply elem_of_nil in Hi.
  - destruct (IH (d ∪ list_to_set (DataSet.dim <$> i))
                 (f ∪ list_to_set (DataSet.funcId <$> i)) x) as [IHf IHd].
    split.
    + rewrite IHf, elem_of_union, elem_of_list_to_set, list_elem_of_fmap.
      setoid_rewrite elem_of_cons. naive_solver.
    + rewrite IHd, elem_of_union, elem_of_list_to_set, list_elem_of_fmap.
      setoid_rewrite elem_of_cons. naive_solver.
Qed.

Lemma set_pop_elem (s : gset Z) (x : Z) : set_pop s = Ok x -> x ∈ s.
Proof.
  unfold set_pop. destruct (elements s) as [|y l] eqn:He; [done|].
  intros ?; simplify_eq. apply elem_of_elements. rewrite He. by left.
Qed.

Lemma set_pop_Ok (s : gset Z) (x : Z) : x ∈ s -> is_Ok (set_pop s).
Proof.
  intros Hx%elem_of_elements. unfold set_pop.
  destruct (elements s); [by apply elem_of_nil in Hx|by eexists].
Qed.

(** X4: The function id and the dimension of a constructed set are those of
    data sets of the input; the data set can be one of an algorithm that is
    left out for having several. *)
Theorem funcId_dim_from_input (dict_alg : DictAlg) (self : t) :
  init alignArrayData median dict_alg = Ok self ->
  (exists alg i ds, (alg, i) ∈ dict_alg /\ ds ∈ i /\
     DataSet.funcId ds = funcId self) /\
  (exists alg i ds, (alg, i) ∈ dict_alg /\ ds ∈ i /\
     DataSet.dim ds = dim self).
Proof.
  intros H. apply init_inv in H
    as (res & best & st1 & cl & Hf & Hd & _).
  apply set_pop_elem in Hf, Hd. unfold collect_dim_funcId in Hf, Hd.
  split.
  - apply collect_elem in Hf as [Hf|(i & ds & Hi & Hds & Hx)];
      [by apply not_elem_of_empty in Hf|].
    apply list_elem_of_fmap in Hi as ([alg i'] & -> & Hi). eauto 10.
  - apply collect_elem in Hd as [Hd|(i & ds & Hi & Hds & Hx)];
      [by apply not_elem_of_empty in Hd|].
    apply list_elem_of_fmap in Hi as ([alg i'] & -> & Hi). eauto 10.
Qed.

(** X5: A dictionary without any data set, the empty dictionary among them,
    cannot be constructed from: [f.pop()] raises [KeyError] on the empty
    set. *)
Theorem init_no_data_set (dict_alg : DictAlg) :
  (forall alg i, (alg, i) ∈ dict_alg -> i = []) ->
  init alignArrayData median dict_alg = Raise KeyError.
Proof.
  intros Hall. unfold init.
  destruct (collect_dim_funcId dict_alg) as [d f] eqn:Hc.
  assert (f = ∅) as ->; [|done].
  apply set_eq. intros x. split; [|by intros ?%not_elem_of_empty].
  intros Hx. assert (x ∈ (collect_dim_funcId dict_alg).2) as Hx'
    by (by rewrite Hc).
  unfold collect_dim_funcId in Hx'.
  apply collect_elem in Hx' as [Hf|(i & ds & Hi & Hds & _)]; [done|].
  apply list_elem_of_fmap in Hi as ([alg i'] & -> & Hi).
  rewrite (Hall alg i' Hi) in Hds. by apply elem_of_nil in Hds.
Qed.

(** *** Curves of unequal lengths *)

Lemma comprehension_raise {A B} (f : A -> result B) (l : list A) (e : exn) :
  (exists a, a ∈ l /\ f a = Raise e) ->
  (forall a, a ∈ l -> f a = Raise e \/ is_Ok (f a)) ->
  comprehension f l = Raise e.
Proof.
  induction l as [|a l IH]; intros (a0 & Ha0 & Hf) Hall;
    [by apply elem_of_nil in Ha0|]. simpl.
  destruct (Hall a ltac:(by left)) as [Ha|[b Hb]]; rewrite ?Ha, ?Hb; [done|].
  simpl. rewrite IH; [done| |].
  - apply elem_of_cons in Ha0 as [->|Ha0]; [congruence|eauto].
  - intros a' Ha'. apply Hall. by right.
Qed.

Lemma keep_singletons_keys_dom (l : DictAlg) : forall st,
  (forall a, a ∈ st.1.1.2 -> is_Some (st.1.1.1 !! a)) ->
  forall a, a ∈ (foldl keep_step st l).1.1.2 ->
            is_Some ((foldl keep_step st l).1.1.1 !! a).
Proof.
  induction l as [|[b i] l IH]; intros st Hst; [done|]. simpl.
  apply IH. destruct st as [[[tmp ks] dME] dFFV].
  destruct i as [|i0 [|i1 i]]; simpl in *; try done.
  intros a Ha. destruct (decide (b = a)) as [->|Hne].
  - rewrite lookup_insert_eq. by eexists.
  - rewrite lookup_insert_ne by done. apply Hst.
    case_decide; [done|].
    apply elem_of_app in Ha as [Ha|Ha%list_elem_of_singleton]; [done|].
    congruence.
Qed.

(** X6: A kept algorithm whose [target] and [ert] differ in length stops the
    construction with the [ValueError] of [np.vstack]. *)
Theorem init_unequal_lengths (dict_alg : DictAlg) (alg : string)
  (ds : DataSet.t) :
  NoDup (dict_alg.*1) ->
  (alg, [ds]) ∈ dict_alg ->
  length (DataSet.target ds) <> length (DataSet.ert ds) ->
  init alignArrayData median dict_alg = Raise ValueError.
Proof.
  intros Hnd Hin Hlen. unfold init.
  destruct (collect_dim_funcId dict_alg) as [d f] eqn:Hc.
  assert (DataSet.funcId ds ∈ f /\ DataSet.dim ds ∈ d) as [Hf Hd].
  { assert (f = (collect_dim_funcId dict_alg).2) as -> by (by rewrite Hc).
    assert (d = (collect_dim_funcId dict_alg).1) as -> by (by rewrite Hc).
    unfold collect_dim_funcId.
    split; apply collect_elem; right; exists [ds], ds;
      (split_and!; [|by left|done]);
      apply list_elem_of_fmap; by exists (alg, [ds]). }
  destruct (set_pop_Ok _ _ Hf) as [f0 ->], (set_pop_Ok _ _ Hd) as [d0 ->].
  simpl.
  pose proof (sortedAlgs_singletons dict_alg Hnd) as Hsorted.
  pose proof (keep_singletons_lookup alg ds dict_alg (∅, [], ∅, ∅) Hnd Hin)
    as Htmp.
  pose proof (keep_singletons_keys_dom dict_alg (∅, [], ∅, ∅)) as Hdom.
  unfold sortedAlgs_of, keep_singletons in *.
  destruct (foldl keep_step (∅, [], ∅, ∅) dict_alg)
    as [[[tmp sorted] dME] dFFV]. simpl in *.
  rewrite (comprehension_raise _ sorted ValueError); [done| |].
  - exists alg. split.
    + rewrite Hsorted. unfold singletons. apply list_elem_of_fmap.
      exists (alg, [ds]). split; [done|]. by apply list_elem_of_filter.
    + unfold dict_get, vstack_transpose. rewrite Htmp. simpl.
      by rewrite decide_False.
  - intros a Ha. destruct (Hdom ltac:(intros ? []%elem_of_nil) a Ha) as [ds' Hds'].
    unfold dict_get, vstack_transpose. rewrite Hds'. simpl.
    case_decide; [right; by eexists|by left].
Qed.

(** *** The best final function values *)

Lemma ltb_irrefl (x : Np.float) : Np.ltb x x = false.
Proof.
  unfold Np.ltb, SFltb. destruct (Np.isnan x) eqn:Hx.
  - by rewrite NpFacts.compare_nan_l.
  - by rewrite NpFacts.compare_refl_not_nan.
Qed.

Lemma ltb_trans (x y z : Np.float) :
  Np.ltb x y = true -> Np.ltb y z = true -> Np.ltb x z = true.
Proof.
  intros Hxy Hyz. apply NpFacts.ltb_leb_trans with y; [done|].
  by apply NpFacts.ltb_leb.
Qed.

Lemma ltb_asym (x y : Np.float) : Np.ltb x y = true -> Np.ltb y x = false.
Proof.
  intros Hxy. destruct (Np.ltb y x) eqn:Hyx; [|done].
  by rewrite <-(ltb_irrefl x), (ltb_trans x y x).
Qed.

Lemma bestfinal_below (tmp : gmap string DataSet.t) (l : list string) :
  forall v o v' a,
    for_each (bestfinal_step median tmp) l (v, o) = Ok (v', Some a) ->
    (o = Some a /\ v' = v) \/ Np.ltb (median v') (median v) = true.
Proof.
  induction l as [|alg l IH]; intros v o v' a H; simpl in H.
  - simplify_eq. by left.
  - inv_bind H as st Hst. unfold bestfinal_step in Hst.
    inv_bind Hst as ds Hds. simpl in Hst.
    destruct (Np.ltb _ _) eqn:Hlt; simplify_eq.
    + right. apply IH in H as [[_ ->]|H]; [done|by eapply ltb_trans].
    + by apply IH in H.
Qed.

Lemma bestfinal_least (tmp : gmap string DataSet.t) (l : list string) :
  forall v o v' o',
    for_each (bestfinal_step median tmp) l (v, o) = Ok (v', o') ->
    (v' = v \/ Np.ltb (median v') (median v) = true) /\
    forall b ds, b ∈ l -> tmp !! b = Some ds ->
      Np.ltb (median (DataSet.finalfunvals ds)) (median v') = false.
Proof.
  induction l as [|alg l IH]; intros v o v' o' H; simpl in H.
  - simplify_eq. split; [by left|]. intros b ds Hb. by apply elem_of_nil in Hb.
  - inv_bind H as st Hst. unfold bestfinal_step in Hst.
    inv_bind Hst as ds Hds. unfold dict_get in Hds.
    destruct (tmp !! alg) as [ds'|] eqn:Halg; simplify_eq. simpl in Hst.
    destruct (Np.ltb _ _) eqn:Hlt; simplify_eq; apply IH in H as [Hv Hle].
    + split.
      * right. destruct Hv as [->|Hv]; [done|by eapply ltb_trans].
      * intros b dsb [->|Hb]%elem_of_cons Hdsb; [|by eapply Hle].
        simplify_eq. destruct Hv as [->|Hv]; [apply ltb_irrefl|by apply ltb_asym].
    + split; [done|].
      intros b dsb [->|Hb]%elem_of_cons Hdsb; [|by eapply Hle].
      simplify_eq. destruct Hv as [->|Hv]; [done|].
      destruct (Np.ltb (median (DataSet.finalfunvals ds)) (median v')) eqn:Hc;
        [|done]. by rewrite (ltb_trans _ _ _ Hc Hv) in Hlt.
Qed.

(** X7: [algbestfinalfunvals] is an algorithm of the input with one data set,
    [bestfinalfunvals] is its [finalfunvals], its median is below the
    median of [[np.inf]], and no algorithm with one data set has a median
    below it. *)
Theorem best_final_is_least (dict_alg : DictAlg) (self : t) :
  NoDup (dict_alg.*1) ->
  init alignArrayData median dict_alg = Ok self ->
  exists ds, (algbestfinalfunvals self, [ds]) ∈ dict_alg /\
    bestfinalfunvals self = DataSet.finalfunvals ds /\
    Np.ltb (median (DataSet.finalfunvals ds)) (median [Np.inf]) = true /\
    forall b dsb, (b, [dsb]) ∈ dict_alg ->
      Np.ltb (median (DataSet.finalfunvals dsb))
             (median (DataSet.finalfunvals ds)) = false.
Proof.
  intros Hnd H. apply init_inv in H
    as (res & best & st1 & cl & _ & _ & _ & _ & _ & _ & Hbest & _).
  pose proof (bestfinal_from _ _ _ _ _ _ _ Hbest) as [[? _]|(ds & Hds & Hv)];
    [done|].
  pose proof (bestfinal_below _ _ _ _ _ _ Hbest) as [[? _]|Hlt]; [done|].
  pose proof (bestfinal_least _ _ _ _ _ _ Hbest) as [_ Hle].
  exists ds. rewrite Hv in *. split_and!; try done.
  - unfold tmpdictAlg_of, keep_singletons in Hds.
    by destruct (keep_singletons_from _ ds dict_alg (∅, [], ∅, ∅) Hds).
  - intros b dsb Hb. apply (Hle b).
    + rewrite sortedAlgs_singletons by done. unfold singletons.
      apply list_elem_of_fmap. exists (b, [dsb]). split; [done|].
      by apply list_elem_of_filter.
    + by apply keep_singletons_lookup.
Qed.

(** *** The reconstructed evals *)

Lemma advance_spec (it : list row) : forall curLine funval curLine' it',
  advance curLine it funval = (curLine', it') ->
  (curLine' = curLine /\ it' = it /\
   (Np.gtb (key curLine) funval = false \/ it = []))
  \/ exists skipped, it = (skipped ++ curLine' :: it')%list /\
       (Np.gtb (key curLine') funval = false \/ it' = []).
Proof.
  induction it as [|line it IH]; intros cur fv cur' it' H; simpl in H.
  - left. destruct (Np.gtb (key cur) fv) eqn:Hgt; simplify_eq; eauto.
  - destruct (Np.gtb (key cur) fv) eqn:Hgt; [|left; simplify_eq; eauto].
    right. apply IH in H as [(-> & -> & Hstop)|(skipped & -> & Hstop)].
    + by exists [].
    + by exists (line :: skipped).
Qed.

Lemma evals_step_row (tmp : gmap string DataSet.t)
  (di : gmap string (list row)) (dc : gmap string row) (acc : list row)
  (fa : Np.float * string) di' dc' acc' :
  (forall alg ds, tmp !! alg = Some ds -> cursor_ok ds (di !! alg) (dc !! alg)) ->
  evals_step tmp (di, dc, acc) fa = Ok (di', dc', acc') ->
  (forall alg ds, tmp !! alg = Some ds ->
     cursor_ok ds (di' !! alg) (dc' !! alg)) /\
  exists r, acc' = (acc ++ [r])%list /\ evals_row_from tmp fa r.
Proof.
  intros Hinv H. destruct fa as [fv alg]. unfold evals_step in H.
  inv_bind H as ds Hds. unfold dict_get in Hds.
  destruct (tmp !! alg) as [ds'|] eqn:Halg; simplify_eq.
  destruct (advance _ _ fv) as [cur' it'] eqn:Hadv. simplify_eq.
  (* the cursor before the step *)
  assert ((default (Row Np.inf [Np.zero]) (dc !! alg) = Row Np.inf [Np.zero]
           /\ default (DataSet.evals ds) (di !! alg) = DataSet.evals ds)
          \/ exists pre, DataSet.evals ds
               = (pre ++ default (Row Np.inf [Np.zero]) (dc !! alg)
                      :: default (DataSet.evals ds) (di !! alg))%list)
    as Hbefore.
  { pose proof (Hinv alg ds Halg) as Hc. unfold cursor_ok in Hc.
    destruct (di !! alg), (dc !! alg); simpl; try done. by left. }
  apply advance_spec in Hadv.
  (* the cursor after the step *)
  assert ((cur' = Row Np.inf [Np.zero] /\ it' = DataSet.evals ds)
          \/ exists pre, DataSet.evals ds = (pre ++ cur' :: it')%list)
    as Hafter.
  { destruct Hadv as [(-> & -> & _)|(skipped & Hit & _)]; [done|].
    right. destruct Hbefore as [[_ Hb]|[pre Hb]]; rewrite Hit in Hb.
    - by exists skipped.
    - exists (pre ++ default (Row Np.inf [Np.zero]) (dc !! alg) :: skipped)%list.
      by rewrite Hb, <-app_assoc. }
  split.
  - intros a dsa Ha. destruct (decide (alg = a)) as [->|Hne].
    + rewrite !lookup_insert_eq. simplify_eq. done.
    + rewrite !lookup_insert_ne by done. by apply Hinv.
  - eexists. split; [done|]. split; [done|]. exists ds. split; [done|].
    simpl. unfold provenance.
    assert (Np.gtb (key cur') fv = false \/ it' = []) as Hstop.
    { destruct Hadv as [(-> & -> & Hstop)|(skipped & _ & Hstop)]; done. }
    destruct Hafter as [[-> ->]|[pre Hpre]].
    + right. right. split; [done|]. destruct Hstop; eauto.
    + destruct (Np.gtb (key cur') fv) eqn:Hgt.
      * destruct Hstop as [?| ->]; [done|].
        right. left. exists cur'. by rewrite Hpre, last_snoc.
      * left. exists cur'. split_and!; try done.
        rewrite Hpre. apply elem_of_app. right. by left.
Qed.

Lemma evals_loop_rows (tmp : gmap string DataSet.t)
  (l : list (Np.float * string)) : forall di dc acc di' dc' acc',
  (forall alg ds, tmp !! alg = Some ds -> cursor_ok ds (di !! alg) (dc !! alg)) ->
  for_each (evals_step tmp) l (di, dc, acc) = Ok (di', dc', acc') ->
  exists rows, acc' = (acc ++ rows)%list /\ Forall2 (evals_row_from tmp) l rows.
Proof.
  induction l as [|fa l IH]; intros di dc acc di' dc' acc' Hinv H.
  - simpl in H. simplify_eq. exists []. by rewrite app_nil_r.
  - rewrite for_each_cons in H. inv_bind H as st Hst.
    destruct st as [[di1 dc1] acc1].
    destruct (evals_step_row _ _ _ _ _ _ _ _ Hinv Hst) as (Hinv1 & r & -> & Hr).
    destruct (IH _ _ _ _ _ _ Hinv1 H) as (rows & -> & Hrows).
    exists (r :: rows). rewrite <-app_assoc. split; [done|]. by constructor.
Qed.

Lemma init_evals_rows (dict_alg : DictAlg) (self : t) :
  init alignArrayData median dict_alg = Ok self ->
  Forall2 (evals_row_from (tmpdictAlg_of dict_alg))
          (zip (target self) (algs self)) (evals self).
Proof.
  intros H. apply init_inv in H
    as (res & best & st1 & cl & _ & _ & _ & _ & Hevals & _ & _ & -> & _ & ->
        & _).
  destruct st1 as [di dc].
  apply evals_loop_rows in Hevals as (rows & -> & Hrows); [done|].
  intros alg ds _. by rewrite !lookup_empty.
Qed.

Lemma init_evals_keys (dict_alg : DictAlg) (self : t) :
  init alignArrayData median dict_alg = Ok self ->
  key <$> evals self = target self.
Proof.
  intros H. pose proof (init_evals_rows _ _ H) as Hrows.
  destruct (init_lengths _ _ _ _ H) as [Hlen _].
  rewrite <-(fst_zip (target self) (algs self)) by lia.
  revert Hrows. generalize (zip (target self) (algs self)).
  induction (evals self) as [|r rows IH]; intros l Hrows;
    inversion Hrows as [|fa ? ? ? [Hkey _] Hrest]; simplify_eq; [done|].
  csimpl. f_equal; [done|]. by apply IH.
Qed.

(** X8: [self.evals] has one row for each row of the grid, and the zero-th
    column of the row is the target of the grid row. *)
Theorem evals_follow_grid (dict_alg : DictAlg) (self : t) :
  init alignArrayData median dict_alg = Ok self ->
  length (evals self) = length (target self) /\
  key <$> evals self = target self.
Proof.
  intros H. pose proof (init_evals_keys _ _ H) as Hkeys.
  split; [|done]. by rewrite <-Hkeys, length_fmap.
Qed.

(** X9: The data of every row of [self.evals] is taken from the evals of the
    winner of the row, by a cursor that only moves forward: it is a line
    whose alignment value is not above the target of the row, or, when the
    lines have run out, the last line, or the line [[np.inf, 0]] that the
    cursor starts from. *)
Theorem evals_from_winner (dict_alg : DictAlg) (self : t) (i : nat)
  (r : row) (funval : Np.float) (alg : string) (ds : DataSet.t) :
  NoDup (dict_alg.*1) ->
  init alignArrayData median dict_alg = Ok self ->
  evals self !! i = Some r ->
  target self !! i = Some funval ->
  algs self !! i = Some alg ->
  (alg, [ds]) ∈ dict_alg ->
  provenance ds funval (vals r).
Proof.
  intros Hnd H Hr Ht Ha Hds. pose proof (init_evals_rows _ _ H) as Hrows.
  assert (zip (target self) (algs self) !! i = Some (funval, alg)) as Hz.
  { apply lookup_zip_with_Some. by exists funval, alg. }
  destruct (Forall2_lookup_l _ _ _ _ _ Hrows Hz) as (r' & Hr' & _ & ds' & Hds' & Hp).
  simplify_eq. simpl in *.
  pose proof (keep_singletons_lookup alg ds dict_alg (∅, [], ∅, ∅) Hnd Hds)
    as Htmp. unfold tmpdictAlg_of, keep_singletons in Hds'.
  by simplify_eq.
Qed.

(** *** The queries on a constructed set *)

Lemma scan_evals_first (algs0 : list string) (f : Np.float) (ev : list row) :
  forall j i r a,
    ev !! i = Some r -> Np.leb (key r) f = true ->
    (forall k r', k < i -> ev !! k = Some r' -> Np.leb (key r') f = false) ->
    algs0 !! (j + i) = Some a ->
    scan_evals algs0 j ev f = Ok (Some (vals r, a)).
Proof.
  induction ev as [|line ev IH]; intros j i r a Hi Hle Hbefore Ha; [done|].
  simpl. destruct i as [|i]; simpl in Hi.
  - simplify_eq. rewrite Hle. unfold list_get.
    rewrite Nat.add_0_r in Ha. by rewrite Ha.
  - rewrite (Hbefore 0 line) by (done || lia).
    apply (IH (S j) i); try done.
    + intros k r' Hk Hr'. apply (Hbefore (S k)); [lia|done].
    + by rewrite Nat.add_succ_comm.
Qed.

(** X10: On a constructed set, when row [i] is the first row of the grid whose
    target is [<= f], [detEvals] gives for [f] the data of row [i] of
    [self.evals] and the winner of that row, the row from which [detERT]
    takes the ert; it raises nothing. *)
Theorem detEvals_first_row (dict_alg : DictAlg) (self : t) (f : Np.float)
  (i : nat) :
  init alignArrayData median dict_alg = Ok self ->
  first_row_at_or_below self f i ->
  exists r a e,
    evals self !! i = Some r /\ algs self !! i = Some a /\
    ert self !! i = Some e /\
    detEvals self [f] = Ok ([vals r], [Some a]) /\
    detERT self [f] = [e].
Proof.
  intros H Hfirst. pose proof Hfirst as [(t0 & Ht0 & Hle) Hbefore].
  pose proof (init_evals_keys _ _ H) as Hkeys.
  destruct (init_lengths _ _ _ _ H) as [Hl1 Hl2].
  rewrite <-Hkeys in Ht0. rewrite list_lookup_fmap in Ht0.
  destruct (evals self !! i) as [r|] eqn:Hr; simplify_eq. simpl in Hle.
  assert (i < length (evals self)) as Hi by (by eapply lookup_lt_Some).
  assert (length (evals self) = length (target self)) as Hl0
    by (by rewrite <-Hkeys, length_fmap).
  destruct (lookup_lt_is_Some_2 (algs self) i ltac:(lia)) as [a Ha].
  destruct (detERT1_spec self f ltac:(lia)) as [Hert _].
  destruct (Hert i Hfirst) as (e & He & Hdet).
  exists r, a, e. split_and!; try done.
  - unfold detEvals, detEvals1. simpl.
    rewrite (scan_evals_first (algs self) f (evals self) 0 i r a); try done.
    + simpl in Ht0. by simplify_eq.
    + intros k r' Hk Hr'. apply (Hbefore k); [done|].
      by rewrite <-Hkeys, list_lookup_fmap, Hr'.
  - unfold detERT. simpl. by rewrite Hdet.
Qed.

Lemma first_below (P : Np.float -> bool) (l : list Np.float) :
  forall i x, l !! i = Some x -> P x = true ->
  exists i2, i2 <= i /\ (exists x2, l !! i2 = Some x2 /\ P x2 = true) /\
    forall j x', j < i2 -> l !! j = Some x' -> P x' = false.
Proof.
  induction l as [|y l IH]; intros i x Hi HP; [done|].
  destruct (P y) eqn:Hy.
  - exists 0. split_and!; [lia|by exists y|]. intros j x' Hj. lia.
  - destruct i as [|i]; simpl in Hi; [by simplify_eq; congruence|].
    destruct (IH i x Hi HP) as (i2 & Hle & Hx2 & Hbefore).
    exists (S i2). split_and!; [lia|done|].
    intros [|j] x' Hj Hx'; simpl in Hx'; [by simplify_eq|].
    apply (Hbefore j); [lia|done].
Qed.

(** X11: A looser target is served by the same row or by an earlier one: when
    [f1 <= f2] and row [i1] is the first row at or below [f1], the first
    row at or below [f2] exists and is not after [i1], and [detERT] gives
    its ert for [f2]. *)
Theorem detERT_looser_target (dict_alg : DictAlg) (self : t)
  (f1 f2 : Np.float) (i1 : nat) :
  init alignArrayData median dict_alg = Ok self ->
  Np.leb f1 f2 = true ->
  first_row_at_or_below self f1 i1 ->
  exists i2 e2, i2 <= i1 /\ first_row_at_or_below self f2 i2 /\
    ert self !! i2 = Some e2 /\ detERT self [f2] = [e2].
Proof.
  intros H Hf [(t1 & Ht1 & Hle1) _].
  destruct (first_below (fun x => Np.leb x f2) (target self) i1 t1 Ht1)
    as (i2 & Hi2 & Hx2 & Hbefore).
  { by apply NpFacts.leb_trans with f1. }
  assert (first_row_at_or_below self f2 i2) as Hfirst by done.
  destruct (init_lengths _ _ _ _ H) as [Hl1 Hl2].
  destruct (detERT1_spec self f2 ltac:(lia)) as [Hert _].
  destruct (Hert i2 Hfirst) as (e2 & He2 & Hdet).
  exists i2, e2. split_and!; try done. unfold detERT. simpl. by rewrite Hdet.
Qed.

End InitMore.

(** ** The count of each algorithm *)

Section CountMore.
Import BestAlgSet getAllContributingAlgorithmsToBest.
Variable alignArrayData : list (list (Np.float * Np.float)) -> result (list row).
Variable median : list Np.float -> Np.float.

Lemma corrected_steps_exact (b : t) (lb ub : Np.float) :
  length (target b) = length (algs b) ->
  forall n i acc, i + n = length (target b) ->
  for_each (corrected_step b lb ub) (seq i n) acc
  = Ok (acc ++ (snd <$> filter (fun p => Np.geb p.1 lb && Np.leb p.1 ub = true)
                          (drop i (zip (target b) (algs b)))))%list.
Proof.
  intros Hlen. induction n as [|n IH]; intros i acc Hi; simpl.
  - rewrite drop_ge; [by rewrite app_nil_r|].
    rewrite length_zip_with. lia.
  - destruct (lookup_lt_is_Some_2 (target b) i ltac:(lia)) as [t0 Ht0].
    destruct (lookup_lt_is_Some_2 (algs b) i ltac:(lia)) as [a0 Ha0].
    assert (zip (target b) (algs b) !! i = Some (t0, a0)) as Hz
      by (apply lookup_zip_with_Some; by exists t0, a0).
    assert (corrected_step b lb ub acc i
            = Ok (if Np.geb t0 lb && Np.leb t0 ub then acc ++ [a0] else acc)%list)
      as ->.
    { unfold corrected_step, list_get. rewrite Ht0. simpl.
      destruct (Np.geb t0 lb && Np.leb t0 ub); simpl; by rewrite ?Ha0. }
    rewrite (drop_S _ _ _ Hz), filter_cons. simpl.
    destruct (Np.geb t0 lb && Np.leb t0 ub) eqn:Hrange; simpl.
    + rewrite IH by lia. by rewrite <-app_assoc.
    + by rewrite IH by lia.
Qed.

Lemma correctedbestalgentries_exact (b : t) (lb ub : Np.float) :
  length (target b) = length (algs b) ->
  correctedbestalgentries b lb ub = Ok (winners_in_range b lb ub).
Proof.
  intros Hlen. unfold correctedbestalgentries, winners_in_range.
  by rewrite (corrected_steps_exact b lb ub Hlen _ 0 []).
Qed.

Lemma winners_in_range_algs (b : t) (lb ub : Np.float) (a : string) :
  a ∈ winners_in_range b lb ub -> a ∈ algs b.
Proof.
  unfold winners_in_range.
  intros ([t0 a'] & -> & [_ Hin]%list_elem_of_filter)%list_elem_of_fmap.
  apply list_elem_of_lookup in Hin as [i Hi].
  apply lookup_zip_with_Some in Hi as (? & ? & ? & _ & Ha). simplify_eq.
  by eapply list_elem_of_lookup_2.
Qed.

Lemma count_not_elem (a : string) (l : list string) : a ∉ l -> count a l = 0.
Proof.
  intros Ha. unfold count. induction l as [|x l IH]; [done|].
  apply not_elem_of_cons in Ha as [Hne Ha].
  rewrite filter_cons, decide_False by done. by apply IH.
Qed.

Lemma tally_fold_lookup (d : Z) (l : list string) (S : list string) :
  forall (counts : gmap (Z * string) nat) (k : Z * string),
  NoDup S ->
  foldl (tally d l) counts S !! k
  = if decide (k.1 = d /\ k.2 ∈ S)
    then Some (default 0 (counts !! k) + count k.2 l)
    else counts !! k.
Proof.
  induction S as [|a S IH]; intros counts k Hnd; simpl.
  - rewrite decide_False; [done|]. intros [_ []%elem_of_nil].
  - apply NoDup_cons in Hnd as [Hnot Hnd]. rewrite IH by done.
    unfold tally. destruct k as [d' a']. simpl.
    destruct (decide ((d, a) = (d', a'))) as [Heq|Hne].
    + simplify_eq. rewrite decide_False by (by intros [_ ?]).
      rewrite lookup_insert_eq. rewrite decide_True; [done|].
      split; [done|by left].
    + rewrite !lookup_insert_ne by done.
      destruct (decide (d' = d /\ a' ∈ S)) as [[-> Hin]|Hno].
      * rewrite decide_True; [done|]. split; [done|by right].
      * rewrite decide_False; [done|].
        intros [-> [->|Hin]%elem_of_cons]; [done|]. by apply Hno.
Qed.

Lemma entry_step_lookup (lb ub : Np.float) (d' : Z) (a : string)
  (counts : gmap (Z * string) nat) (d f : Z) (b : t) :
  length (target b) = length (algs b) ->
  exists counts',
    entry_step lb ub counts (d, f, b) = Ok counts' /\
    default 0 (counts' !! (d', a))
    = default 0 (counts !! (d', a))
      + (if decide (d = d') then count a (winners_in_range b lb ub) else 0) /\
    (is_Some (counts' !! (d', a))
     <-> is_Some (counts !! (d', a)) \/ (d = d' /\ a ∈ algs b)).
Proof.
  intros Hlen. unfold entry_step.
  rewrite (correctedbestalgentries_exact b lb ub Hlen). simpl.
  eexists. split; [done|].
  rewrite tally_fold_lookup by apply NoDup_elements. simpl.
  destruct (decide (d' = d /\ a ∈ elements (list_to_set (algs b) : gset string)))
    as [[-> Hin]|Hno].
  - rewrite decide_True by done. simpl. split; [done|].
    split; [|by eexists]. intros _. right. split; [done|]. set_solver.
  - destruct (decide (d = d')) as [->|Hne].
    + assert (a ∉ algs b) as Ha by (intros Ha; apply Hno; set_solver).
      rewrite count_not_elem; [|by intros ?%winners_in_range_algs].
      split; [lia|]. naive_solver.
    + split; [lia|]. naive_solver.
Qed.

Lemma entries_lookup (lb ub : Np.float) (d' : Z) (a : string)
  (entries : list (Z * Z * t)) :
  (forall e, e ∈ entries -> length (target e.2) = length (algs e.2)) ->
  forall counts, exists counts',
    for_each (entry_step lb ub) entries counts = Ok counts' /\
    default 0 (counts' !! (d', a))
    = default 0 (counts !! (d', a)) + rows_won d' a entries lb ub /\
    (is_Some (counts' !! (d', a))
     <-> is_Some (counts !! (d', a))
         \/ exists f b, (d', f, b) ∈ entries /\ a ∈ algs b).
Proof.
  induction entries as [|[[d f] b] entries IH]; intros Hlen counts.
  - exists counts. unfold rows_won. simpl. split_and!; [done|lia|].
    split; [by left|]. intros [H|(f & b & []%elem_of_nil & _)]. done.
  - rewrite for_each_cons.
    destruct (entry_step_lookup lb ub d' a counts d f b)
      as (c1 & -> & Hv1 & Hk1).
    { apply (Hlen (d, f, b)). by left. }
    simpl. destruct (IH ltac:(intros e He; apply Hlen; by right) c1)
      as (c2 & -> & Hv2 & Hk2).
    exists c2. split_and!; [done| |].
    + rewrite Hv2, Hv1. unfold rows_won. simpl. lia.
    + rewrite Hk2, Hk1. setoid_rewrite elem_of_cons. naive_solver.
Qed.

(** X12: The count of an algorithm in a dimension is the number of rows in
    range that it won, over the functions of that dimension; and an
    algorithm has a count in a dimension, which may be 0, exactly when it
    won a row, in range or not, of a set of that dimension. *)
Theorem count_is_rows_won (bestalgentries : gmap (Z * Z) t)
  (target_lb target_ub : Np.float) :
  (forall k b, bestalgentries !! k = Some b ->
     exists dict_alg, init alignArrayData median dict_alg = Ok b) ->
  exists counts,
    countsperalgorithm bestalgentries target_lb target_ub = Ok counts /\
    forall d a,
      default 0 (counts !! (d, a))
      = rows_won d a (map_to_list bestalgentries) target_lb target_ub /\
      (is_Some (counts !! (d, a))
       <-> exists f b, bestalgentries !! (d, f) = Some b /\ a ∈ algs b).
Proof.
  intros Hbuilt. unfold countsperalgorithm.
  assert (forall e, e ∈ map_to_list bestalgentries ->
                    length (target e.2) = length (algs e.2)) as Hall.
  { intros [k b] He. apply elem_of_map_to_list in He.
    destruct (Hbuilt k b He) as [dict_alg H].
    by destruct (init_lengths _ _ _ _ H). }
  destruct (entries_lookup target_lb target_ub 0 "" _ Hall ∅)
    as (counts & Hc & _).
  exists counts. split; [done|]. intros d a.
  destruct (entries_lookup target_lb target_ub d a _ Hall ∅)
    as (counts' & Hc' & Hv & Hk).
  rewrite Hc in Hc'. simplify_eq. rewrite lookup_empty in Hv, Hk.
  split; [done|]. rewrite Hk. split.
  - intros [[? ?]|(f & b & He & Ha)]; [done|].
    exists f, b. split; [|done]. by apply elem_of_map_to_list in He.
  - intros (f & b & He & Ha). right. exists f, b. split; [|done].
    by apply elem_of_map_to_list.
Qed.

End CountMore.

(** ** The instances *)

Section Instances.
Import BestAlgSet.

Lemma createDictInstance_steps (instancenumbers : list Z) (n : Z) :
  forall k i (acc : gmap Z (list nat)),
  i + k = length instancenumbers ->
  exists dictinstance,
    for_each (createDictInstance_step instancenumbers) (seq i k) acc
    = Ok dictinstance /\
    default [] (dictinstance !! n)
    = (default [] (acc !! n)
       ++ filter (fun j => instancenumbers !! j = Some n) (seq i k))%list /\
    (is_Some (dictinstance !! n)
     <-> is_Some (acc !! n)
         \/ exists j, i <= j /\ instancenumbers !! j = Some n).
Proof.
  induction k as [|k IH]; intros i acc Hi.
  - exists acc. simpl. rewrite app_nil_r. split_and!; try done.
    split; [by left|]. intros [H|(j & Hj & Hn)]; [done|].
    apply lookup_lt_Some in Hn. lia.
  - cbn [seq]. rewrite for_each_cons.
    destruct (lookup_lt_is_Some_2 instancenumbers i ltac:(lia)) as [m Hm].
    assert (createDictInstance_step instancenumbers acc i
            = Ok (<[m := (default [] (acc !! m) ++ [i])%list]> acc)) as ->
      by (unfold createDictInstance_step, list_get; by rewrite Hm).
    simpl.
    destruct (IH (S i) (<[m := (default [] (acc !! m) ++ [i])%list]> acc)
                 ltac:(lia)) as (dictinstance & -> & Hv & Hk).
    exists dictinstance. split; [done|]. rewrite filter_cons, Hv, Hk.
    destruct (decide (m = n)) as [->|Hne].
    + rewrite lookup_insert_eq, decide_True by done. simpl.
      rewrite <-app_assoc. split; [done|]. split.
      * intros _. right. exists i. split; [lia|done].
      * intros _. left. by eexists.
    + rewrite lookup_insert_ne by done.
      rewrite decide_False by congruence. split; [done|]. split.
      * intros [H|(j & Hj & Hn)]; [by left|]. right. exists j. split; [lia|done].
      * intros [H|(j & Hj & Hn)]; [by left|]. right. exists j. split; [|done].
        destruct (decide (j = i)) as [->|]; [congruence|lia].
Qed.

(** X13: On an object as [__init__] leaves it, which has no attribute
    [instancenumbers], [createDictInstance] raises [AttributeError].  Once
    a list has been assigned to the attribute, the method raises nothing;
    an instance number is a key of the dictionary exactly when it occurs
    in the list, and its value lists the positions at which it occurs, all
    of them, each once, in ascending order. *)
Theorem createDictInstance_positions (instancenumbers : list Z) :
  createDictInstance None = Raise AttributeError /\
  exists dictinstance,
    createDictInstance (Some instancenumbers) = Ok dictinstance /\
    forall n,
      default [] (dictinstance !! n)
      = filter (fun j => instancenumbers !! j = Some n)
               (seq 0 (length instancenumbers)) /\
      (is_Some (dictinstance !! n) <-> n ∈ instancenumbers).
Proof.
  split; [done|]. unfold createDictInstance.
  destruct (createDictInstance_steps instancenumbers 0
              (length instancenumbers) 0 ∅ eq_refl) as (dictinstance & Hd & _).
  exists dictinstance. split; [done|]. intros n.
  destruct (createDictInstance_steps instancenumbers n
              (length instancenumbers) 0 ∅ eq_refl) as (d' & Hd' & Hv & Hk).
  rewrite Hd in Hd'. simplify_eq. rewrite lookup_empty in Hv, Hk.
  split; [done|]. rewrite Hk, list_elem_of_lookup. split.
  - intros [[? ?]|(j & _ & Hj)]; [done|by exists j].
  - intros [j Hj]. right. exists j. split; [lia|done].
Qed.

End Instances.

(** ** The data files *)

Section DataFiles.
Import BestAlgSet create_data_files.
Variable alignArrayData : list (list (Np.float * Np.float)) -> result (list row).
Variable median : list Np.float -> Np.float.

Lemma find_best_not_nan sortedAlgs (i : row) (e : Np.float) (a : string) :
  find_best sortedAlgs i = Ok (e, a) -> Np.isnan e = false.
Proof.
  unfold find_best. case_decide; [|done]. intros Hscan.
  apply (scan_erts_inv sortedAlgs (vals i) []) in Hscan.
  2:{ left. split; [done|]. intros y Hy. by apply elem_of_nil in Hy. }
  simpl in Hscan. destruct Hscan as [[? _]|(j & _ & _ & Hlt & _)].
  - by simplify_eq.
  - by destruct (NpFacts.ltb_not_nan _ _ Hlt).
Qed.

Lemma init_ert_not_nan (dict_alg : DictAlg) (self : t) (i : nat) (e : Np.float) :
  init alignArrayData median dict_alg = Ok self ->
  ert self !! i = Some e -> Np.isnan e = false.
Proof.
  intros H He. apply init_inv in H
    as (res & best & st1 & cl & _ & _ & _ & Hbest & _ & _ & _ & _ & Hert & _).
  rewrite Hert, list_lookup_fmap in He.
  destruct (best !! i) as [[e' a]|] eqn:Hb; [|done].
  assert (is_Some (res !! i)) as [line Hline].
  { apply lookup_lt_is_Some. apply lookup_lt_Some in Hb.
    pose proof (comprehension_length _ _ _ Hbest). lia. }
  destruct (comprehension_lookup _ _ _ _ _ Hbest Hline) as (p & Hp & Hfind).
  simpl in He. simplify_eq. by eapply find_best_not_nan.
Qed.

(** X14: No ert of a constructed set is NaN: a NaN entry never wins a
    row, and a row without a winner has the ert [np.inf]. *)
Theorem constructed_ert_not_nan (dict_alg : DictAlg) (self : t) :
  init alignArrayData median dict_alg = Ok self ->
  Forall (fun e => Np.isnan e = false) (ert self).
Proof.
  intros H. apply Forall_forall.
  intros e [i He]%list_elem_of_lookup. by eapply init_ert_not_nan.
Qed.

Lemma int_not_nan (x : Np.float) :
  Np.isnan x = false ->
  (exists k, int x = inr k /\ forall s, x <> S754_infinity s)
  \/ (int x = inl OverflowError /\ exists s, x = S754_infinity s).
Proof.
  destruct x as [s|s| |s m e]; intros Hx; try done.
  - left. by eexists.
  - right. eauto.
  - left. by eexists.
Qed.

Lemma evaluation_loop_outcome (value : t) :
  length (target value) <= length (ert value) ->
  (forall j x, ert value !! j = Some x -> Np.isnan x = false) ->
  forall n i acc, i + n = length (target value) ->
  ((exists d, evaluation_loop value (seq i n) acc = inr d) /\
   forall j s, i <= j -> j < i + n -> ert value !! j <> Some (S754_infinity s))
  \/ (evaluation_loop value (seq i n) acc = inl OverflowError /\
      exists j s, j < i + n /\ ert value !! j = Some (S754_infinity s)).
Proof.
  intros Hlen Hnan. induction n as [|n IH]; intros i acc Hi.
  - left. split; [by eexists|]. intros j s. lia.
  - cbn [seq evaluation_loop].
    destruct (lookup_lt_is_Some_2 (ert value) i ltac:(lia)) as [x Hx].
    destruct (lookup_lt_is_Some_2 (target value) i ltac:(lia)) as [t0 Ht0].
    unfold evaluation_step. rewrite Hx, Ht0.
    destruct (int_not_nan x (Hnan i x Hx)) as [(k & -> & Hfin)|[-> [s ->]]].
    + destruct (IH (S i) (<[k := t0]> acc) ltac:(lia))
        as [[Hd Hno]|[Hd (j & s & Hj & Hinf)]].
      * left. split; [done|]. intros j s Hj1 Hj2.
        destruct (decide (j = i)) as [->|Hne]; [|apply Hno; lia].
        rewrite Hx. intros ?; simplify_eq. by eapply Hfin.
      * right. split; [done|]. exists j, s. split; [lia|done].
    + right. split; [done|]. exists i, s. split; [lia|done].
Qed.

(** X15: On a constructed set the table of a data file is computed
    unless a row has an infinite ert: [int] of that ert then raises
    [OverflowError], and the loop raises nothing else. *)
Theorem data_file_overflow (dict_alg : DictAlg) (self : t) :
  init alignArrayData median dict_alg = Ok self ->
  (lines self = inl OverflowError
   <-> exists i s, ert self !! i = Some (S754_infinity s)) /\
  ((exists ls, lines self = inr ls)
   <-> forall i s, ert self !! i <> Some (S754_infinity s)) /\
  forall e, lines self <> inl (Python e).
Proof.
  intros H. destruct (init_lengths _ _ _ _ H) as [Hl1 Hl2].
  destruct (evaluation_loop_outcome self ltac:(lia)
              (fun j x => init_ert_not_nan dict_alg self j x H)
              (length (target self)) 0 ∅ eq_refl)
    as [[[d Hd] Hno]|[Hd (j & s & Hj & Hinf)]];
    unfold lines, dict_evaluation; rewrite Hd; simpl.
  - assert (forall i s, ert self !! i <> Some (S754_infinity s)) as Hall.
    { intros i s Hi. apply (Hno i s); [lia| |done].
      apply lookup_lt_Some in Hi. lia. }
    split_and!; [|by split; eauto|done]. split; [done|]. intros (i & s & Hi).
    by destruct (Hall i s).
  - split_and!; [split; eauto| |done]. split; [by intros [? ?]|]. intros Hall.
    by destruct (Hall j s).
Qed.

(** The key of row [j] in the table: [int(value.ert[j])]. *)
Local Abbreviation key_at value j k :=
  (exists y, ert value !! j = Some y /\ int y = inr k).

Lemma evaluation_loop_last (value : t) :
  length (target value) <= length (ert value) ->
  (forall i x, i < length (target value) -> ert value !! i = Some x ->
     exists k, int x = inr k) ->
  forall n i acc, i + n = length (target value) ->
  exists d, evaluation_loop value (seq i n) acc = inr d /\
    forall k t0,
      d !! k = Some t0
      <-> (exists j, i <= j /\ key_at value j k /\ target value !! j = Some t0 /\
             forall j', j < j' -> j' < length (target value) ->
                        ~ key_at value j' k)
          \/ (acc !! k = Some t0 /\
              forall j, i <= j -> j < length (target value) ->
                        ~ key_at value j k).
Proof.
  intros Hlen Hint. induction n as [|n IH]; intros i acc Hi.
  - exists acc. split; [done|]. intros k t0. split.
    + intros Hk. right. split; [done|]. intros j. lia.
    + intros [(j & Hj & _ & Ht & _)|[Hk _]]; [|done].
      apply lookup_lt_Some in Ht. lia.
  - cbn [seq evaluation_loop].
    destruct (lookup_lt_is_Some_2 (ert value) i ltac:(lia)) as [x Hx].
    destruct (lookup_lt_is_Some_2 (target value) i ltac:(lia)) as [ti Hti].
    destruct (Hint i x ltac:(lia) Hx) as [ki Hki].
    unfold evaluation_step. rewrite Hx, Hti, Hki.
    destruct (IH (S i) (<[ki := ti]> acc) ltac:(lia)) as (d & -> & Hd).
    exists d. split; [done|]. intros k t0. rewrite Hd. clear Hd.
    assert (forall j, i <= j -> j = i \/ S i <= j) as Hsplit by lia.
    destruct (decide (ki = k)) as [->|Hne].
    + rewrite lookup_insert_eq. split.
      * intros [(j & Hj & Hrest)|[? Hno]].
        -- left. exists j. split; [lia|done].
        -- simplify_eq. left. exists i. split_and!; eauto.
      * intros [(j & Hj & Hkey & Ht & Hno)|[_ Hno]].
        -- destruct (Hsplit j Hj) as [->|Hj'].
           ++ right. simplify_eq. split; [done|]. intros j' Hj'. apply Hno. lia.
           ++ left. exists j. by split_and!.
        -- destruct (Hno i); [lia|lia|eauto].
    + rewrite lookup_insert_ne by done.
      assert (~ key_at value i k) as Hnot.
      { intros (y & Hy & Hk). rewrite Hx in Hy. simplify_eq. congruence. }
      split.
      * intros [(j & Hj & Hrest)|[Hk Hno]].
        -- left. exists j. split; [lia|done].
        -- right. split; [done|]. intros j Hj.
           destruct (Hsplit j Hj) as [->|Hj']; [done|by apply Hno].
      * intros [(j & Hj & Hkey & Hrest)|[Hk Hno]].
        -- left. exists j. split; [|done].
           destruct (Hsplit j Hj) as [->|Hj']; [done|lia].
        -- right. split; [done|]. intros j Hj. apply Hno. lia.
Qed.

#[local] Instance item_le_trans : Transitive item_le.
Proof. unfold item_le. intros x y z. lia. Qed.

#[local] Instance item_le_total : Total item_le.
Proof. unfold item_le. intros x y. lia. Qed.

Lemma sorted_distinct_keys (l : list (Z * Np.float)) :
  StronglySorted item_le l -> NoDup l.*1 ->
  StronglySorted (fun x y => (x.1 < y.1)%Z) l.
Proof.
  induction 1 as [|x l Hs IH Hall]; intros Hnd; [constructor|].
  csimpl in Hnd. apply NoDup_cons in Hnd as [Hx Hnd].
  constructor; [by apply IH|].
  apply Forall_forall. intros y Hy.
  rewrite Forall_forall in Hall. specialize (Hall y Hy).
  unfold item_le in Hall.
  destruct (decide (x.1 = y.1)) as [Heq|Hne]; [|lia].
  destruct Hx. rewrite Heq. apply list_elem_of_fmap. by exists y.
Qed.

Lemma sorted_items_spec (d : gmap Z Np.float) :
  StronglySorted (fun x y => (x.1 < y.1)%Z) (sorted_items d) /\
  forall k t0, (k, t0) ∈ sorted_items d <-> d !! k = Some t0.
Proof.
  unfold sorted_items.
  pose proof (merge_sort_Permutation item_le (map_to_list d)) as Hperm.
  split.
  - apply sorted_distinct_keys; [by apply StronglySorted_merge_sort; apply _|].
    rewrite Hperm. apply NoDup_fst_map_to_list.
  - intros k t0. rewrite Hperm. apply elem_of_map_to_list.
Qed.

(** X16: When every ert of the rows has an integer part, the table of
    a data file has one line for each integer part: the lines are in
    strictly ascending order of it, and the target of a line is the target
    of the last row with that integer part, so that rows whose erts agree
    up to their fraction leave the last of them only. *)
Theorem data_file_last_row (value : t) :
  length (target value) <= length (ert value) ->
  (forall i x, i < length (target value) -> ert value !! i = Some x ->
     exists k, int x = inr k) ->
  exists ls, lines value = inr ls /\
    StronglySorted (fun x y => (x.1 < y.1)%Z) ls /\
    forall k t0,
      (k, t0) ∈ ls
      <-> exists j, key_at value j k /\ target value !! j = Some t0 /\
            forall j', j < j' -> j' < length (target value) ->
                       ~ key_at value j' k.
Proof.
  intros Hlen Hint.
  destruct (evaluation_loop_last value Hlen Hint (length (target value)) 0 ∅
              eq_refl) as (d & Hd & Hspec).
  unfold lines, dict_evaluation. rewrite Hd.
  destruct (sorted_items_spec d) as [Hsorted Hmem].
  exists (sorted_items d). split_and!; try done.
  intros k t0. rewrite Hmem, Hspec. split.
  - intros [(j & _ & Hrest)|[? _]]; [by exists j|done].
  - intros (j & Hrest). left. exists j. split; [lia|done].
Qed.

End DataFiles.

(** ** The lists of each dimension *)

Section Ranking.

Lemma ascii_compare_lt_trans (a b c : Ascii.ascii) :
  Ascii.compare a b = Lt -> Ascii.compare b c = Lt -> Ascii.compare a c = Lt.
Proof.
  unfold Ascii.compare. rewrite !N.compare_lt_iff. lia.
Qed.

Lemma string_compare_lt_trans (s1 : string) : forall s2 s3,
  String.compare s1 s2 = Lt -> String.compare s2 s3 = Lt ->
  String.compare s1 s3 = Lt.
Proof.
  induction s1 as [|a s1 IH]; intros [|b s2] [|c s3]; simpl; try done.
  destruct (Ascii.compare a b) eqn:Hab; [|
    |done].
  - apply Ascii.compare_eq_iff in Hab as ->.
    destruct (Ascii.compare b c); [apply IH|done|done].
  - intros _. destruct (Ascii.compare b c) eqn:Hbc; [| |done].
    + apply Ascii.compare_eq_iff in Hbc as <-. by rewrite Hab.
    + by rewrite (ascii_compare_lt_trans a b c).
Qed.

Lemma string_leb_trans (s1 s2 s3 : string) :
  String.leb s1 s2 = true -> String.leb s2 s3 = true ->
  String.leb s1 s3 = true.
Proof.
  unfold String.leb.
  destruct (String.compare s1 s2) eqn:H12; [| |done]; intros _.
  - apply String.compare_eq_iff in H12 as ->. done.
  - destruct (String.compare s2 s3) eqn:H23; [| |done]; intros _.
    + apply String.compare_eq_iff in H23 as <-. by rewrite H12.
    + by rewrite (string_compare_lt_trans s1 s2 s3).
Qed.

#[local] Instance key_le_trans : Transitive key_le.
Proof.
  unfold key_le. intros x y z [Hxy|[Hxy Hs1]] [Hyz|[Hyz Hs2]];
    [left; lia|left; lia|left; lia|].
  right. split; [lia|]. by eapply string_leb_trans.
Qed.

#[local] Instance key_le_total : Total key_le.
Proof.
  unfold key_le. intros x y.
  destruct (Z.lt_trichotomy x.1 y.1) as [?|[Heq|?]]; [by left; left| |by right; left].
  destruct (String.leb_total x.2 y.2); [left|right]; right; by split.
Qed.

Lemma ranking_fold (counts : gmap (Z * string) nat) (d : Z)
  (keys : list (Z * string)) : forall sel : gmap Z (list (nat * string)),
  let sel' :=
    foldl (fun sel '(d', a) =>
             <[d' := (default [] (sel !! d')
                      ++ [(default 0 (counts !! (d', a)), a)])%list]> sel)
          sel keys in
  default [] (sel' !! d)
  = (default [] (sel !! d)
     ++ ((fun k => (default 0 (counts !! k), k.2))
           <$> filter (fun k => k.1 = d) keys))%list /\
  (is_Some (sel' !! d)
   <-> is_Some (sel !! d) \/ exists a, (d, a) ∈ keys).
Proof.
  induction keys as [|[d' a] keys IH]; intros sel; simpl.
  - rewrite app_nil_r. split; [done|]. split; [by left|].
    intros [H|[a []%elem_of_nil]]. done.
  - destruct (IH (<[d' := (default [] (sel !! d')
                            ++ [(default 0 (counts !! (d', a)), a)])%list]> sel))
      as [Hv Hk]. simpl in Hv, Hk. rewrite Hv, Hk, filter_cons. simpl.
    setoid_rewrite elem_of_cons.
    destruct (decide (d' = d)) as [->|Hne].
    + rewrite lookup_insert_eq. csimpl. rewrite <-app_assoc.
      split; [done|]. split; [|by intros _; left; eexists].
      intros _. right. exists a. by left.
    + rewrite lookup_insert_ne by done. split; [done|]. split.
      * intros [H|[a' Ha']]; [by left|]. right. exists a'. by right.
      * intros [H|[a' [Ha'|Ha']]]; [by left|congruence|]. right. by exists a'.
Qed.

Lemma sorted_names (d : Z) (keys : list (Z * string)) :
  StronglySorted key_le keys ->
  StronglySorted (fun a b => String.leb a b = true)
                 (snd <$> filter (fun k => k.1 = d) keys).
Proof.
  induction 1 as [|k keys Hs IH Hall]; [constructor|].
  rewrite filter_cons. case_decide as Hk; [|done]. csimpl.
  constructor; [done|]. apply Forall_forall.
  intros b ([d' b'] & -> & [Hd Hin]%list_elem_of_filter)%list_elem_of_fmap.
  rewrite Forall_forall in Hall. specialize (Hall _ Hin).
  unfold key_le in Hall. simpl in *. destruct Hall as [Hlt|[_ Hle]]; [lia|done].
Qed.

(** X17: The list of a dimension [d] in [selectedalgsperdimension] has one
    pair for each key [(d, a)] of [countsperalgorithm], with the count of
    the key; no algorithm is listed twice, the names are in ascending
    order, and a dimension has a list exactly when an algorithm has a
    count in it. *)
Theorem ranking_lists_the_counts (counts : gmap (Z * string) nat) (d : Z) :
  let l := default [] (selectedalgsperdimension counts !! d) in
  (forall n a, (n, a) ∈ l <-> counts !! (d, a) = Some n) /\
  NoDup l.*2 /\
  StronglySorted (fun a b => String.leb a b = true) l.*2 /\
  (is_Some (selectedalgsperdimension counts !! d)
   <-> exists a, is_Some (counts !! (d, a))).
Proof.
  unfold selectedalgsperdimension.
  set (keys := merge_sort key_le (map_to_list counts).*1).
  destruct (ranking_fold counts d keys ∅) as [Hv Hk]. simpl in Hv, Hk.
  rewrite lookup_empty in Hv, Hk. simpl in Hv. cbv zeta. rewrite Hv, Hk.
  assert (keys ≡ₚ (map_to_list counts).*1) as Hperm
    by apply merge_sort_Permutation.
  assert (forall k, k ∈ keys <-> is_Some (counts !! k)) as Hkeys.
  { intros k. rewrite Hperm, list_elem_of_fmap. split.
    - intros ([k' n] & -> & Hin). apply elem_of_map_to_list in Hin. by eexists.
    - intros [n Hn]. exists (k, n). split; [done|]. by apply elem_of_map_to_list. }
  assert (NoDup keys) as Hnd by (rewrite Hperm; apply NoDup_fst_map_to_list).
  assert (forall (A : Type) (g : Z * string -> A) (l0 : list (Z * string)),
            ((fun k => (g k, k.2)) <$> l0).*2 = snd <$> l0) as Hsnd.
  { intros A g l0. rewrite <-list_fmap_compose. by apply list_fmap_ext. }
  split_and!.
  - intros n a. rewrite list_elem_of_fmap. split.
    + intros ([d' a'] & Heq & [Hd Hin]%list_elem_of_filter). simpl in *.
      simplify_eq. apply Hkeys in Hin as [n Hn]. by rewrite Hn.
    + intros Hn. exists (d, a). rewrite Hn. split; [done|].
      apply list_elem_of_filter. split; [done|]. apply Hkeys. by eexists.
  - rewrite Hsnd. apply NoDup_fmap_2_strong; [|by apply NoDup_filter].
    intros [d1 a1] [d2 a2] [Hd1 _]%list_elem_of_filter [Hd2 _]%list_elem_of_filter.
    simpl in *. congruence.
  - rewrite Hsnd. apply sorted_names.
    apply StronglySorted_merge_sort; apply _.
  - split.
    + intros [[? ?]|[a Ha]]; [done|]. exists a. by apply Hkeys.
    + intros [a Ha]. right. exists a. by apply Hkeys.
Qed.

End Ranking.

(** ** The credits of a row, whatever the running times *)

Section CreditMore.
Import extractBestAlgorithms.
Variable dictAlg : gmap string (gmap Z (list DataSet.t)).
Variable dataset_detERT : DataSet.t -> Np.float -> Np.float.
Variable f_factor : Np.float.
Variables (best_alg : string) (best_ERT : Np.float) (d f : Z) (t : Np.float).

Local Abbreviation ERT_at := (CreditSpec.ERT_at dictAlg dataset_detERT d f t).
Local Abbreviation data_set_found := (CreditSpec.data_set_found dictAlg d f).
Local Abbreviation within_factor :=
  (CreditSpec.within_factor dictAlg dataset_detERT f_factor best_alg best_ERT
                            d f t).
Local Abbreviation second_best_step :=
  (CreditSpec.second_best_step dictAlg dataset_detERT best_alg d f t).

Lemma within_factor_other (a : string) :
  within_factor a = true -> a <> best_alg /\ is_Some (ERT_at a).
Proof.
  unfold CreditSpec.within_factor. destruct ERT_at as [e|]; [|done].
  intros [Hne _]%andb_true_iff. apply bool_decide_eq_true in Hne.
  split; [done|by eexists].
Qed.

Lemma existsb_filter_nil (P : string -> bool) (l : list string) :
  existsb P l = false -> filter (fun a => P a = true) l = [].
Proof.
  induction l as [|a l IH]; [done|]. simpl.
  intros [Ha Hl]%orb_false_iff. rewrite filter_cons, decide_False by congruence.
  by apply IH.
Qed.

Lemma credit_split (j selected : list string) :
  NoDup j ->
  (forall a, a ∈ j -> data_set_found a) ->
  exists new,
    credit dictAlg dataset_detERT f_factor best_alg best_ERT d f t j selected
    = Ok (selected ++ best_alg :: new)%list /\
    NoDup (best_alg :: new) /\
    forall a, a ∈ new -> a ∈ j /\ is_Some (ERT_at a).
Proof.
  intros Hnd Hfound. unfold credit.
  rewrite (second_steps_found dictAlg dataset_detERT f_factor best_alg
             best_ERT d f t j Hfound), second_step_fold. simpl.
  pose proof (second_best_fold_inv dictAlg dataset_detERT best_alg d f t
                j [] (Np.inf, "")) as Hinv. simpl in Hinv.
  destruct (foldl second_best_step (Np.inf, "") j) as [sE sS].
  destruct (existsb within_factor j) eqn:Hex; simpl.
  - exists (filter (fun a => within_factor a = true) j).
    rewrite <-app_assoc. split_and!; [done| |].
    + apply NoDup_cons. split; [|by apply NoDup_filter].
      intros [Hw _]%list_elem_of_filter.
      by destruct (within_factor_other _ Hw).
    + intros a [Hw Ha]%list_elem_of_filter.
      by destruct (within_factor_other _ Hw).
  - rewrite (existsb_filter_nil _ _ Hex), app_nil_r.
    destruct (String.eqb sS "") eqn:HsS; simpl.
    + exists []. split_and!; [done| |].
      * apply NoDup_singleton.
      * intros a Ha. by apply elem_of_nil in Ha.
    + apply String.eqb_neq in HsS.
      destruct Hinv as [[? _]|(Hin & Hnb & HE & _)].
      { left. split; [done|]. intros a e Ha. by apply elem_of_nil in Ha. }
      { by simplify_eq. }
      simpl in *. exists [sS]. rewrite <-app_assoc. split_and!; [done| |].
      * apply NoDup_cons. split; [|apply NoDup_singleton].
        by intros ->%list_elem_of_singleton.
      * intros a ->%list_elem_of_singleton. split; [done|by eexists].
Qed.


Lemma second_steps_raise (pre post : list string) (a : string) (e : exn) :
  (forall b, b ∈ pre -> data_set_found b) ->
  currERT dictAlg dataset_detERT a d f t = Raise e ->
  forall st,
    for_each (second_step dictAlg dataset_detERT f_factor best_alg best_ERT
                          d f t) (pre ++ a :: post) st
    = Raise e.
Proof.
  intros Hfound Ha st.
  rewrite for_each_app, (second_steps_found dictAlg dataset_detERT f_factor
                           best_alg best_ERT d f t pre Hfound).
  simpl. unfold second_step. by rewrite Ha.
Qed.

(** X22: The data set of an algorithm is taken by its position [f - 1] in
    the list of its data sets of dimension [d].  When an algorithm of the
    cell has data in that dimension, but fewer than [f] data sets, and the
    data sets of the algorithms before it are found, a considered row
    raises [IndexError] and credits nothing, whichever algorithm wins the
    row. *)
Theorem credit_missing_data_set (pre post selected : list string)
  (a : string) (currdictalg : gmap Z (list DataSet.t))
  (datasets : list DataSet.t) :
  (forall b, b ∈ pre -> data_set_found b) ->
  (1 <= f)%Z ->
  dictAlg !! a = Some currdictalg ->
  currdictalg !! d = Some datasets ->
  (Z.of_nat (length datasets) < f)%Z ->
  credit dictAlg dataset_detERT f_factor best_alg best_ERT d f t
         (pre ++ a :: post) selected = Raise IndexError.
Proof.
  intros Hfound Hf Ha Hd Hlen. unfold credit.
  rewrite (second_steps_raise pre post a IndexError Hfound); [done|].
  unfold currERT, dict_get. rewrite Ha. simpl. rewrite Hd.
  unfold py_index, list_get.
  destruct (f - 1 <? 0)%Z eqn:Hneg; [lia|]. rewrite Hneg.
  rewrite lookup_ge_None_2 by lia. done.
Qed.

End CreditMore.

(** ** The counts of the credits *)

Section CreditCounts.
Import extractBestAlgorithms.

Lemma count_elem (a : string) (l : list string) : a ∈ l -> 0 < count a l.
Proof.
  intros Ha. unfold count.
  assert (a ∈ filter (fun x => x = a) l) as Hin by (by apply list_elem_of_filter).
  destruct (filter _ l); [by apply elem_of_nil in Hin|simpl; lia].
Qed.

Lemma count_step_lookup (d' : Z) (a : string)
  (counts : gmap (Z * string) nat) (d f : Z) (l : list string) :
  let counts' := count_step counts (d, f, l) in
  default 0 (counts' !! (d', a))
  = default 0 (counts !! (d', a)) + (if decide (d = d') then count a l else 0) /\
  (is_Some (counts' !! (d', a))
   <-> is_Some (counts !! (d', a)) \/ (d = d' /\ a ∈ l)) /\
  ((forall n, counts !! (d', a) = Some n -> 0 < n) ->
   forall n, counts' !! (d', a) = Some n -> 0 < n).
Proof.
  unfold count_step. rewrite tally_fold_lookup by apply NoDup_elements. simpl.
  destruct (decide (d' = d /\ a ∈ elements (list_to_set l : gset string)))
    as [[-> Hin]|Hno].
  - assert (a ∈ l) as Ha by set_solver.
    rewrite decide_True by done. simpl. split_and!; [done| |].
    + split; [by right|by eexists].
    + intros _ n ?; simplify_eq. pose proof (count_elem a l Ha). lia.
  - destruct (decide (d = d')) as [->|Hne].
    + assert (a ∉ l) as Ha by (intros Ha; apply Hno; set_solver).
      rewrite count_not_elem by done. split_and!; [lia|naive_solver|done].
    + split_and!; [lia|naive_solver|done].
Qed.

Lemma count_steps_lookup (d' : Z) (a : string)
  (entries : list (Z * Z * list string)) :
  forall counts : gmap (Z * string) nat,
  let counts' := foldl count_step counts entries in
  default 0 (counts' !! (d', a))
  = default 0 (counts !! (d', a))
    + sum_list_with (fun e => if decide (e.1.1 = d') then count a e.2 else 0)
                    entries /\
  (is_Some (counts' !! (d', a))
   <-> is_Some (counts !! (d', a))
       \/ exists f l, (d', f, l) ∈ entries /\ a ∈ l) /\
  ((forall n, counts !! (d', a) = Some n -> 0 < n) ->
   forall n, counts' !! (d', a) = Some n -> 0 < n).
Proof.
  induction entries as [|[[d f] l] entries IH]; intros counts; simpl.
  - split_and!; [lia| |done]. split; [by left|].
    intros [H|(f & l & []%elem_of_nil & _)]. done.
  - destruct (count_step_lookup d' a counts d f l) as (Hv1 & Hk1 & Hp1).
    destruct (IH (count_step counts (d, f, l))) as (Hv2 & Hk2 & Hp2).
    simpl in *. split_and!.
    + rewrite Hv2, Hv1. lia.
    + rewrite Hk2, Hk1. setoid_rewrite elem_of_cons. naive_solver.
    + intros Hp. by apply Hp2, Hp1.
Qed.

(** X19: In [extractBestAlgorithms] the count of an algorithm in a dimension
    is the number of credits it has in the lists of that dimension; an
    algorithm has a count exactly when it is credited in the dimension,
    and every count is at least 1. *)
Theorem credits_counted (selected : gmap (Z * Z) (list string)) (d : Z)
  (a : string) :
  let counts := countsperalgorithm selected in
  default 0 (counts !! (d, a))
  = sum_list_with (fun e => if decide (e.1.1 = d) then count a e.2 else 0)
                  (map_to_list selected) /\
  (is_Some (counts !! (d, a))
   <-> exists f l, selected !! (d, f) = Some l /\ a ∈ l) /\
  forall n, counts !! (d, a) = Some n -> 0 < n.
Proof.
  unfold countsperalgorithm.
  destruct (count_steps_lookup d a (map_to_list selected) ∅) as (Hv & Hk & Hp).
  simpl in *. rewrite lookup_empty in Hv, Hk, Hp. split_and!.
  - by rewrite Hv.
  - rewrite Hk. setoid_rewrite elem_of_map_to_list. split.
    + by intros [[? ?]|?].
    + by right.
  - by apply Hp.
Qed.

End CreditCounts.

(** ** The credits of a cell *)

Section CellMore.
Import BestAlgSet extractBestAlgorithms.
Variable alignArrayData : list (list (Np.float * Np.float)) -> result (list row).
Variable median : list Np.float -> Np.float.
Variable considered : Z -> Z -> Np.float -> bool.
Variable dictAlg : gmap string (gmap Z (list DataSet.t)).
Variable dataset_detERT : DataSet.t -> Np.float -> Np.float.
Variable f_factor : Np.float.

Lemma count_app (a : string) (l1 l2 : list string) :
  count a (l1 ++ l2) = count a l1 + count a l2.
Proof. unfold count. by rewrite filter_app, length_app. Qed.

Lemma count_NoDup (a : string) (l : list string) : NoDup l -> count a l <= 1.
Proof.
  induction 1 as [|x l Hx Hnd IH]; [unfold count; simpl; lia|].
  rewrite count_cons. case_decide as Hxa; [|lia].
  subst x. rewrite count_not_elem by done. lia.
Qed.

Lemma target_steps (best : t) (d f : Z) (j : list string) :
  NoDup j ->
  (forall a, a ∈ j -> CreditSpec.data_set_found dictAlg d f a) ->
  length (target best) = length (algs best) ->
  forall n i acc, i + n = length (target best) ->
  exists selected,
    for_each (target_step considered dictAlg dataset_detERT f_factor best
                          d f j)
             (seq i n) acc = Ok selected /\
    let rows := filter (fun p => considered f d p.1 = true)
                       (drop i (zip (target best) (algs best))) in
    length acc + length rows <= length selected /\
    (rows = [] -> selected = acc) /\
    forall a, count a acc + count a rows.*2 <= count a selected /\
              count a selected <= count a acc + length rows.
Proof.
  intros Hnd Hfound Hlen. induction n as [|n IH]; intros i acc Hi.
  - exists acc. split; [done|]. rewrite drop_ge by (rewrite length_zip_with; lia).
    simpl. split_and!; [lia|done|]. intros a. unfold count at 2. simpl. lia.
  - cbn [seq]. rewrite for_each_cons.
    destruct (lookup_lt_is_Some_2 (target best) i ltac:(lia)) as [t0 Ht0].
    destruct (lookup_lt_is_Some_2 (algs best) i ltac:(lia)) as [a0 Ha0].
    assert (zip (target best) (algs best) !! i = Some (t0, a0)) as Hz
      by (apply lookup_zip_with_Some; by exists t0, a0).
    rewrite (drop_S _ _ _ Hz), filter_cons. simpl.
    assert (target_step considered dictAlg dataset_detERT f_factor best
                        d f j acc i
            = (if considered f d t0
               then credit dictAlg dataset_detERT f_factor a0
                           (detERT1 best t0) d f t0 j acc
               else Ok acc)) as ->.
    { unfold target_step, list_get. rewrite Ht0. simpl.
      destruct (considered f d t0); simpl; by rewrite ?Ha0. }
    destruct (considered f d t0) eqn:Hc.
    + destruct (credit_split dictAlg dataset_detERT f_factor a0
                  (detERT1 best t0) d f t0 j acc Hnd Hfound)
        as (new & -> & Hnew & _). simpl.
      destruct (IH (S i) (acc ++ a0 :: new)%list ltac:(lia))
        as (selected & -> & Hl & _ & Hcount).
      exists selected. split; [done|]. rewrite ?decide_True by done.
      rewrite length_app in Hl. csimpl in *. split_and!; [lia|done|].
      intros a. destruct (Hcount a) as [Hlo Hhi].
      rewrite count_app in Hlo, Hhi.
      pose proof (count_NoDup a _ Hnew) as Hone.
      unfold fmap in *. rewrite !count_cons in *. case_decide; lia.
    + rewrite ?decide_False by done. simpl.
      destruct (IH (S i) acc ltac:(lia)) as (selected & -> & Hrest).
      by exists selected.
Qed.

(** X20: A cell whose set can be constructed, and the data sets of whose
    algorithms are all found, so that no look-up raises, is processed
    without an error.  Its list of credits is stored under [(d, f)]
    exactly when a row of the set is considered; an algorithm has in it at
    least one credit for each considered row that it wins, and at most one
    credit for each considered row. *)
Theorem cell_credits (selectedAlgsPerProblem : gmap (Z * Z) (list string))
  (f d : Z) (j : DictAlg) (best : t) :
  NoDup (j.*1) ->
  (forall a, a ∈ j.*1 -> CreditSpec.data_set_found dictAlg d f a) ->
  init alignArrayData median j = Ok best ->
  exists selected,
    cell_step alignArrayData median considered dictAlg dataset_detERT f_factor
              selectedAlgsPerProblem (f, d, j)
    = Ok (if decide (considered_rows considered best f d = [])
          then selectedAlgsPerProblem
          else <[(d, f) := selected]> selectedAlgsPerProblem) /\
    forall a,
      count a (considered_rows considered best f d).*2 <= count a selected /\
      count a selected <= length (considered_rows considered best f d).
Proof.
  intros Hnd Hfound H. destruct (init_lengths _ _ _ _ H) as [Hl1 Hl2].
  destruct (target_steps best d f (j.*1) Hnd Hfound Hl1
              (length (target best)) 0 [] eq_refl)
    as (selected & Hsel & Hlen & Hnil & Hcount).
  rewrite drop_0 in Hlen, Hnil.
  fold (considered_rows considered best f d) in Hlen, Hnil.
  simpl in Hlen.
  exists selected. unfold cell_step. rewrite H. simpl. rewrite Hsel. simpl.
  split.
  - destruct (decide (considered_rows considered best f d = [])) as [Hrows|Hrows].
    + rewrite (Hnil Hrows). by rewrite decide_False by (simpl; lia).
    + rewrite decide_True; [done|].
      destruct (considered_rows considered best f d); [done|simpl in *; lia].
  - intros a. specialize (Hcount a). rewrite drop_0 in Hcount.
    fold (considered_rows considered best f d) in Hcount.
    assert (count a [] = 0) as Hnone by done. rewrite Hnone in Hcount.
    simpl in Hcount. lia.
Qed.

End CellMore.

(** ** The dictionary of the sets *)

Section GenerateMore.
Import BestAlgSet.
Variable alignArrayData : list (list (Np.float * Np.float)) -> result (list row).
Variable median : list Np.float -> Np.float.

Lemma generate_keeps (cells : list (Z * Z * DictAlg)) (k : Z * Z) :
  forall acc res : gmap (Z * Z) t,
  for_each (generate.cell_step alignArrayData median) cells acc = Ok res ->
  is_Some (acc !! k) -> is_Some (res !! k).
Proof.
  induction cells as [|[[f d] j] cells IH]; intros acc res Hrun Hs.
  - simpl in Hrun. by simplify_eq.
  - rewrite for_each_cons in Hrun. inv_bind Hrun as acc1 Hacc1.
    apply (IH acc1 res Hrun). unfold generate.cell_step in Hacc1.
    inv_bind Hacc1 as b1 Hb1. simplify_eq.
    destruct (decide ((d, f) = k)) as [->|Hne];
      [rewrite lookup_insert_eq; by eexists|by rewrite lookup_insert_ne].
Qed.

Lemma generate_steps (cells : list (Z * Z * DictAlg)) :
  forall acc : gmap (Z * Z) t,
  (is_Ok (for_each (generate.cell_step alignArrayData median) cells acc)
   <-> Forall (fun c => is_Ok (init alignArrayData median c.2)) cells) /\
  forall res,
    for_each (generate.cell_step alignArrayData median) cells acc = Ok res ->
    (forall f d j, (f, d, j) ∈ cells -> is_Some (res !! (d, f))) /\
    (forall d f b, res !! (d, f) = Some b ->
       acc !! (d, f) = Some b
       \/ exists j, (f, d, j) ∈ cells /\ init alignArrayData median j = Ok b).
Proof.
  induction cells as [|[[f d] j] cells IH]; intros acc.
  - simpl. split; [split; [constructor|by eexists]|].
    intros res ?; simplify_eq. split; [|by left].
    intros f d j Hin. by apply elem_of_nil in Hin.
  - rewrite for_each_cons, Forall_cons.
    assert (generate.cell_step alignArrayData median acc (f, d, j)
            = (tmp ← init alignArrayData median j; Ok (<[(d, f) := tmp]> acc)))
      as -> by done.
    cbn [snd]. destruct (init alignArrayData median j) as [b0|e] eqn:Hj; simpl.
    + destruct (IH (<[(d, f) := b0]> acc)) as [Hok Hres]. split.
      * rewrite <-Hok. split; [|by intros [_ ?]].
        intros Hall. split; [by eexists|done].
      * intros res Hrun. destruct (Hres res Hrun) as [Hkeys Hvals]. split.
        -- intros f' d' j' [Heq|Hin]%elem_of_cons; [|by eapply Hkeys].
           simplify_eq. apply (generate_keeps cells (d, f) _ res Hrun).
           rewrite lookup_insert_eq. by eexists.
        -- intros d' f' b Hb.
           destruct (Hvals d' f' b Hb) as [Hacc|(j' & Hin & Hb')].
           ++ destruct (decide ((d, f) = (d', f'))) as [Heq|Hne].
              ** simplify_eq. rewrite lookup_insert_eq in Hacc. simplify_eq.
                 right. exists j. split; [by left|done].
              ** rewrite lookup_insert_ne in Hacc by done. by left.
           ++ right. exists j'. split; [by right|done].
    + split; [|done]. split; [by intros [? ?]|by intros [[? ?] _]].
Qed.

(** X21: [generate] returns a dictionary exactly when the set of every
    cell can be constructed.  The dictionary then has a key [(d, f)] for
    every cell [(f, d, j)], each of its values is the set constructed from
    the data of a cell of its function and dimension, and
    [getAllContributingAlgorithmsToBest] counts over it without an
    error. *)
Theorem generate_sets_of_cells (cells : list (Z * Z * DictAlg))
  (target_lb target_ub : Np.float) :
  (is_Ok (generate.run alignArrayData median cells)
   <-> Forall (fun c => is_Ok (init alignArrayData median c.2)) cells) /\
  forall res, generate.run alignArrayData median cells = Ok res ->
    (forall f d j, (f, d, j) ∈ cells -> is_Some (res !! (d, f))) /\
    (forall d f b, res !! (d, f) = Some b ->
       exists j, (f, d, j) ∈ cells /\ init alignArrayData median j = Ok b) /\
    is_Ok (getAllContributingAlgorithmsToBest.countsperalgorithm
             res target_lb target_ub).
Proof.
  unfold generate.run. destruct (generate_steps cells ∅) as [Hok Hres].
  split; [done|]. intros res Hrun. destruct (Hres res Hrun) as [Hkeys Hvals].
  assert (forall d f b, res !! (d, f) = Some b ->
            exists j, (f, d, j) ∈ cells /\ init alignArrayData median j = Ok b)
    as Hbuilt.
  { intros d f b Hb. by destruct (Hvals d f b Hb) as [?|?]. }
  split_and!; [done|done|].
  destruct (countsperalgorithm_spec res target_lb target_ub) as (counts & Hc & _).
  - intros [d f] b Hb. destruct (Hbuilt d f b Hb) as (j & _ & Hj).
    by destruct (init_lengths _ _ _ _ Hj).
  - by exists counts.
Qed.

End GenerateMore.

(** ** The further properties on examples *)

Section FurtherExamples.
Import BestAlgSet Examples.

Lemma winners_have_one_data_set_witness : exists ds, ("A", [ds]) ∈ three.
Proof.
  apply (winners_have_one_data_set align_common_axis np_median three
           (built three) "A").
  - vm_compute. reflexivity.
  - compute_done.
Defined.

Lemma constructed_rows_first_least_witness :
  exists res,
    aligned_grid align_common_axis three = Ok res /\
    target (built three) = key <$> res /\
    forall i line, res !! i = Some line ->
      exists e a, ert (built three) !! i = Some e /\
        algs (built three) !! i = Some a /\
        first_least (sortedAlgs_of three) (vals line) e a.
Proof.
  apply (constructed_rows_first_least align_common_axis np_median three
           (built three)).
  - compute_done.
  - vm_compute. reflexivity.
Defined.

Lemma comment_names_singletons_witness :
  exists names,
    names ≡ₚ singletons three /\
    comment (built three) = "Combination of " +:+ String.concat ", " names.
Proof.
  apply (comment_names_singletons align_common_axis np_median three
           (built three)).
  - compute_done.
  - vm_compute. reflexivity.
Defined.

(** The comment of [three]. *)
Example comment_three : comment (built three) = "Combination of A, B, C".
Proof. vm_compute. reflexivity. Qed.

Lemma funcId_dim_from_input_witness :
  (exists alg i ds, (alg, i) ∈ three /\ ds ∈ i /\
     DataSet.funcId ds = funcId (built three)) /\
  (exists alg i ds, (alg, i) ∈ three /\ ds ∈ i /\
     DataSet.dim ds = dim (built three)).
Proof.
  apply (funcId_dim_from_input align_common_axis np_median three
           (built three)).
  vm_compute. reflexivity.
Defined.

Lemma init_no_data_set_witness :
  BestAlgSet.init align_common_axis np_median no_data = Raise KeyError.
Proof.
  apply (init_no_data_set align_common_axis np_median no_data).
  intros alg i Hin%list_elem_of_singleton. congruence.
Defined.

Lemma init_unequal_lengths_witness :
  BestAlgSet.init align_common_axis np_median with_ragged = Raise ValueError.
Proof.
  apply (init_unequal_lengths align_common_axis np_median with_ragged "R"
           ragged).
  - compute_done.
  - right. left.
  - vm_compute. lia.
Defined.

Lemma best_final_is_least_witness :
  exists ds, (algbestfinalfunvals (built three), [ds]) ∈ three /\
    bestfinalfunvals (built three) = DataSet.finalfunvals ds /\
    Np.ltb (np_median (DataSet.finalfunvals ds)) (np_median [Np.inf]) = true /\
    forall b dsb, (b, [dsb]) ∈ three ->
      Np.ltb (np_median (DataSet.finalfunvals dsb))
             (np_median (DataSet.finalfunvals ds)) = false.
Proof.
  apply (best_final_is_least align_common_axis np_median three (built three)).
  - compute_done.
  - vm_compute. reflexivity.
Defined.

Lemma evals_follow_grid_witness :
  length (evals (built three)) = length (target (built three)) /\
  key <$> evals (built three) = target (built three).
Proof.
  apply (evals_follow_grid align_common_axis np_median three (built three)).
  vm_compute. reflexivity.
Defined.

Lemma evals_from_winner_witness : provenance A (fl 10) [fl 90].
Proof.
  apply (evals_from_winner align_common_axis np_median three (built three)
           0 (Row (fl 10) [fl 90]) (fl 10) "A" A).
  - compute_done.
  - vm_compute. reflexivity.
  - vm_compute. reflexivity.
  - vm_compute. reflexivity.
  - vm_compute. reflexivity.
  - left.
Defined.

Lemma detEvals_first_row_witness :
  exists r a e,
    evals (built three) !! 1 = Some r /\ algs (built three) !! 1 = Some a /\
    ert (built three) !! 1 = Some e /\
    detEvals (built three) [fl 5] = Ok ([vals r], [Some a]) /\
    detERT (built three) [fl 5] = [e].
Proof.
  apply (detEvals_first_row align_common_axis np_median three (built three)
           (fl 5) 1).
  - vm_compute. reflexivity.
  - split.
    + exists (fl 1). split; vm_compute; reflexivity.
    + intros [|j] t' Hj Ht'; [|lia]. vm_compute in Ht'.
      injection Ht' as <-. vm_compute. reflexivity.
Defined.

(** Target 5 is served by the row of target 1, which [B] wins. *)
Example detEvals_three_reached :
  detEvals (built three) [fl 5] = Ok ([[fl 280]], [Some "B"]).
Proof. vm_compute. reflexivity. Qed.

Lemma detERT_looser_target_witness :
  exists i2 e2, i2 <= 1 /\ first_row_at_or_below (built three) (fl 20) i2 /\
    ert (built three) !! i2 = Some e2 /\ detERT (built three) [fl 20] = [e2].
Proof.
  apply (detERT_looser_target align_common_axis np_median three (built three)
           (fl 5) (fl 20) 1).
  - vm_compute. reflexivity.
  - vm_compute. reflexivity.
  - split.
    + exists (fl 1). split; vm_compute; reflexivity.
    + intros [|j] t' Hj Ht'; [|lia]. vm_compute in Ht'.
      injection Ht' as <-. vm_compute. reflexivity.
Defined.

Lemma count_is_rows_won_witness :
  exists counts,
    getAllContributingAlgorithmsToBest.countsperalgorithm
      entries_three (fl 5) (fl 100) = Ok counts /\
    forall d a,
      default 0 (counts !! (d, a))
      = rows_won d a (map_to_list entries_three) (fl 5) (fl 100) /\
      (is_Some (counts !! (d, a))
       <-> exists f b, entries_three !! (d, f) = Some b /\ a ∈ algs b).
Proof.
  apply (count_is_rows_won align_common_axis np_median entries_three).
  unfold entries_three. intros k b [_ <-]%lookup_singleton_Some.
  exists three. vm_compute. reflexivity.
Defined.

(** The instances 1, 2, 1: the positions 0 and 2 under 1, position 1
    under 2. *)
Example createDictInstance_three :
  createDictInstance (Some [1; 2; 1]%Z) = Ok {[ 1%Z := [0; 2]; 2%Z := [1] ]}.
Proof. vm_compute. reflexivity. Qed.

Lemma constructed_ert_not_nan_witness :
  Forall (fun e => Np.isnan e = false) (ert (built three)).
Proof.
  apply (constructed_ert_not_nan align_common_axis np_median three
           (built three)).
  vm_compute. reflexivity.
Defined.

Lemma data_file_overflow_witness :
  (create_data_files.lines (built three)
   = inl create_data_files.OverflowError
   <-> exists i s, ert (built three) !! i = Some (S754_infinity s)) /\
  ((exists ls, create_data_files.lines (built three) = inr ls)
   <-> forall i s, ert (built three) !! i <> Some (S754_infinity s)) /\
  forall e, create_data_files.lines (built three)
            <> inl (create_data_files.Python e).
Proof.
  apply (data_file_overflow align_common_axis np_median three (built three)).
  vm_compute. reflexivity.
Defined.

(** The set of the empty name and of ["A"], whose one row has the ert
    [np.inf]: no table. *)
Example data_file_infinite :
  create_data_files.lines (built unnamed_and_inf)
  = inl create_data_files.OverflowError.
Proof. vm_compute. reflexivity. Qed.

Lemma data_file_last_row_witness :
  exists ls, create_data_files.lines (built three) = inr ls /\
    StronglySorted (fun x y => (x.1 < y.1)%Z) ls /\
    forall k t0,
      (k, t0) ∈ ls
      <-> exists j,
            (exists y, ert (built three) !! j = Some y /\
                       create_data_files.int y = inr k) /\
            target (built three) !! j = Some t0 /\
            forall j', j < j' -> j' < length (target (built three)) ->
              ~ (exists y, ert (built three) !! j' = Some y /\
                           create_data_files.int y = inr k).
Proof.
  apply (data_file_last_row (built three)).
  - vm_compute. lia.
  - intros [|[|i]] x Hi Hx; vm_compute in Hx.
    + injection Hx as <-. by eexists.
    + injection Hx as <-. by eexists.
    + discriminate.
Defined.

(** Two rows whose erts 100 and 100.5 have the integer part 100: one
    line, with the target of the second row. *)
Example data_file_collision :
  create_data_files.lines
    (BestAlgSet.mk [] ∅ ∅ ∅ 2 1 ["A"; "B"] "" ""
       [fl 100; SFdiv 53 1024 (fl 201) (fl 2)] [fl 10; fl 1] [] "")
  = inr [(100%Z, fl 1)].
Proof. vm_compute. reflexivity. Qed.


Lemma credit_missing_data_set_witness :
  extractBestAlgorithms.credit times_short pproc_detERT (fl 2) "A" (fl 100)
    2 2 (fl 10) (["A"] ++ "B" :: []) [] = Raise IndexError.
Proof.
  apply (credit_missing_data_set times_short pproc_detERT (fl 2) "A" (fl 100)
           2 2 (fl 10) ["A"] [] [] "B" {[ 2%Z := [B] ]} [B]).
  - intros b ->%list_elem_of_singleton. vm_compute. by eexists.
  - lia.
  - vm_compute. reflexivity.
  - vm_compute. reflexivity.
  - simpl. lia.
Defined.

(** The function 2 in dimension 2: [A] has two data sets there and [B]
    one, so that the row raises and credits nothing; an algorithm that is
    not known at all raises too. *)
Example credit_short_list :
  extractBestAlgorithms.credit times_short pproc_detERT (fl 2) "A" (fl 100)
    2 2 (fl 10) ["A"; "B"] [] = Raise IndexError /\
  extractBestAlgorithms.credit times_short pproc_detERT (fl 2) "A" (fl 100)
    2 2 (fl 10) ["A"; "C"] [] = Raise KeyError /\
  extractBestAlgorithms.credit times_short pproc_detERT (fl 2) "A" (fl 100)
    2 1 (fl 10) ["A"; "B"] [] = Ok ["A"; "B"].
Proof. split_and!; vm_compute; reflexivity. Qed.

Lemma cell_credits_witness :
  exists selected,
    extractBestAlgorithms.cell_step align_common_axis np_median
      (fun _ _ _ => true) times_three pproc_detERT (fl 2) ∅ (1%Z, 2%Z, three)
    = Ok (if decide (considered_rows (fun _ _ _ => true) (built three) 1 2 = [])
          then ∅ else <[(2%Z, 1%Z) := selected]> ∅) /\
    forall a,
      count a (considered_rows (fun _ _ _ => true) (built three) 1 2).*2
      <= count a selected /\
      count a selected
      <= length (considered_rows (fun _ _ _ => true) (built three) 1 2).
Proof.
  apply (cell_credits align_common_axis np_median (fun _ _ _ => true)
           times_three pproc_detERT (fl 2) ∅ 1%Z 2%Z three (built three)).
  - compute_done.
  - intros a Ha. simpl in Ha.
    repeat (apply elem_of_cons in Ha as [->|Ha]);
      [vm_compute; by eexists ..|by apply elem_of_nil in Ha].
  - vm_compute. reflexivity.
Defined.

(** The cell of [three]: the row of target 10 credits [A], [B] and [C],
    the row of target 1 credits [B] and [A]. *)
Example cell_three :
  extractBestAlgorithms.cell_step align_common_axis np_median
    (fun _ _ _ => true) times_three pproc_detERT (fl 2) ∅ (1%Z, 2%Z, three)
  = Ok {[ (2%Z, 1%Z) := ["A"; "B"; "C"; "B"; "A"] ]}.
Proof. vm_compute. reflexivity. Qed.

(** The one cell of [three] gives the entries that the counts above are
    taken over. *)
Example generate_three :
  generate.run align_common_axis np_median [(1%Z, 2%Z, three)]
  = Ok entries_three.
Proof. vm_compute. reflexivity. Qed.

End FurtherExamples.
